(** * media/image.go: image versions, their geometry and their cache

    A shallow embedding of [media/image.go] of go-start: the two
    source-rectangle resolvers ([touchOriginalFromInsideSourceRect],
    [touchOriginalFromOutsideSourceRect]), the search-or-create protocol of
    [SourceRectVersion] with its wrappers, and [NewImage].

    Go's [int] is taken as the 64-bit two's complement integer of the amd64
    port, [float64] as IEEE-754 binary64 with round-to-nearest-even. *)

From Stdlib Require Import ZArith QArith Qround Qpower Qabs Bool List String Lia Lqa.
From Stdlib Require Import PrimFloat FloatOps SpecFloat.
Import ListNotations.

Local Open Scope Z_scope.

(** ** Go's [int] *)

Module GoInt.

Definition minInt : Z := - 2 ^ 63.
Definition maxInt : Z := 2 ^ 63 - 1.

(** Two's complement wrap-around of a mathematical integer into [int]. *)
Definition wrap (z : Z) : Z := (z + 2 ^ 63) mod 2 ^ 64 - 2 ^ 63.

Definition add (a b : Z) : Z := wrap (a + b).
Definition sub (a b : Z) : Z := wrap (a - b).
(** [a / b] of Go truncates toward zero. *)
Definition div (a b : Z) : Z := wrap (Z.quot a b).

Definition inRange (z : Z) : Prop := minInt <= z <= maxInt.

End GoInt.

(** ** Go's [float64]

    A finite binary64 value is represented by the rational it denotes, the
    two infinities and NaN by constructors of their own.  Every operation
    computes the exact rational result and rounds it to 53 significant bits,
    ties to even.  The exponent range is not bounded: the operands in this
    file are conversions of [int] values, their quotients and one product or
    quotient of those, whose magnitudes lie within 2^-127 .. 2^127, far
    inside binary64's normal range.  The sign of zero is dropped: it could
    only show in the sign of an infinity, and [toInt] sends both infinities
    to the same value. *)

Module Float64.

Local Open Scope Q_scope.

Inductive float64 : Type :=
| FNum (q : Q)
| FInf (neg : bool)
| FNaN.

(** floor (log2 x) for [0 < x]. *)
Definition ilog2 (x : Q) : Z :=
  if Qle_bool 1 x then Z.log2 (Qfloor x)
  else (- Z.log2_up (Qceiling (/ x)))%Z.

(** Nearest integer, ties to the even one. *)
Definition roundHalfEven (y : Q) : Z :=
  let f := Qfloor y in
  match Qcompare (y - inject_Z f) (1 # 2) with
  | Lt => f
  | Gt => (f + 1)%Z
  | Eq => if Z.even f then f else (f + 1)%Z
  end.

(** Rounding of a positive rational to 53 significant bits. *)
Definition roundPos (x : Q) : Q :=
  let e := (ilog2 x - 52)%Z in
  inject_Z (roundHalfEven (x / 2 ^ e)) * 2 ^ e.

Definition round (x : Q) : Q :=
  match Qcompare x 0 with
  | Eq => 0
  | Gt => roundPos x
  | Lt => - roundPos (- x)
  end.

(** [float64(n)] for an [int] n. *)
Definition ofInt (n : Z) : float64 := FNum (round (inject_Z n)).

Definition isZero (q : Q) : bool := Qeq_bool q 0.
Definition isNeg (q : Q) : bool := negb (Qle_bool 0 q).

(** [a / b] *)
Definition div (a b : float64) : float64 :=
  match a, b with
  | FNaN, _ | _, FNaN => FNaN
  | FInf _, FInf _ => FNaN
  | FInf s, FNum y => FInf (xorb s (isNeg y))
  | FNum _, FInf _ => FNum 0
  | FNum x, FNum y =>
      if isZero y then
        if isZero x then FNaN else FInf (isNeg x)
      else FNum (round (x / y))
  end.

(** [a * b] *)
Definition mul (a b : float64) : float64 :=
  match a, b with
  | FNaN, _ | _, FNaN => FNaN
  | FInf s, FInf t => FInf (xorb s t)
  | FInf s, FNum y => if isZero y then FNaN else FInf (xorb s (isNeg y))
  | FNum x, FInf t => if isZero x then FNaN else FInf (xorb (isNeg x) t)
  | FNum x, FNum y => FNum (round (x * y))
  end.

(** [a > b]; false as soon as one side is NaN. *)
Definition gt (a b : float64) : bool :=
  match a, b with
  | FNaN, _ | _, FNaN => false
  | FInf s, FInf t => negb s && t
  | FInf s, FNum _ => negb s
  | FNum _, FInf t => t
  | FNum x, FNum y => negb (Qle_bool x y)
  end.

(** Truncation toward zero. *)
Definition trunc (q : Q) : Z :=
  if Qle_bool 0 q then Qfloor q else Qceiling q.

(** [int(f)].  The Go specification leaves the result open when the value
    does not fit; the amd64 port yields the smallest [int] (the result of
    CVTTSD2SQ), for NaN and the infinities as well. *)
Definition toInt (f : float64) : Z :=
  match f with
  | FNum q =>
      let z := trunc q in
      if (GoInt.minInt <=? z)%Z && (z <=? GoInt.maxInt)%Z then z
      else GoInt.minInt
  | _ => GoInt.minInt
  end.

(** The value of a hardware binary64 number, to compare the operations
    above with Rocq's primitive floats on concrete operands. *)
Definition ofPrim (f : PrimFloat.float) : float64 :=
  match Prim2SF f with
  | S754_zero _ => FNum 0
  | S754_infinity s => FInf s
  | S754_nan => FNaN
  | S754_finite s m e =>
      FNum ((if s then -1 else 1) * inject_Z (Zpos m) * 2 ^ e)
  end.

Definition feq (a b : float64) : bool :=
  match a, b with
  | FNum x, FNum y => Qeq_bool x y
  | FInf s, FInf t => Bool.eqb s t
  | FNaN, FNaN => true
  | _, _ => false
  end.

End Float64.

Import Float64.

(** ** Go's [image] package: points and rectangles *)

Module image.

Record Point : Type := { X : Z; Y : Z }.

Record Rectangle : Type := { Min : Point; Max : Point }.

(** [image.ZP] *)
Definition ZP : Point := {| X := 0; Y := 0 |}.

(** [image.Rect(x0, y0, x1, y1)]: swaps the coordinates of an axis given in
    the wrong order. *)
Definition Rect (x0 y0 x1 y1 : Z) : Rectangle :=
  let '(x0, x1) := if x1 <? x0 then (x1, x0) else (x0, x1) in
  let '(y0, y1) := if y1 <? y0 then (y1, y0) else (y0, y1) in
  {| Min := {| X := x0; Y := y0 |}; Max := {| X := x1; Y := y1 |} |}.

Definition Dx (r : Rectangle) : Z := GoInt.sub (X (Max r)) (X (Min r)).
Definition Dy (r : Rectangle) : Z := GoInt.sub (Y (Max r)) (Y (Min r)).

(** [r.Add(p)] *)
Definition Add (r : Rectangle) (p : Point) : Rectangle :=
  {| Min := {| X := GoInt.add (X (Min r)) (X p); Y := GoInt.add (Y (Min r)) (Y p) |};
     Max := {| X := GoInt.add (X (Max r)) (X p); Y := GoInt.add (Y (Max r)) (Y p) |} |}.

(** [r.Empty()] *)
Definition Empty (r : Rectangle) : bool :=
  (X (Max r) <=? X (Min r)) || (Y (Max r) <=? Y (Min r)).

(** [r.In(s)]: every point of r is in s. *)
Definition In (r s : Rectangle) : bool :=
  if Empty r then true
  else (X (Min s) <=? X (Min r)) && (X (Max r) <=? X (Max s)) &&
       (Y (Min s) <=? Y (Min r)) && (Y (Max r) <=? Y (Max s)).

(** [p.In(r)] *)
Definition PointIn (p : Point) (r : Rectangle) : bool :=
  (X (Min r) <=? X p) && (X p <? X (Max r)) &&
  (Y (Min r) <=? Y p) && (Y p <? Y (Max r)).

Definition Point_eqb (p q : Point) : bool :=
  (X p =? X q) && (Y p =? Y q).

(** [r == s] on the struct values. *)
Definition Rectangle_eqb (r s : Rectangle) : bool :=
  Point_eqb (Min r) (Min s) && Point_eqb (Max r) (Max s).

End image.

Import image.

(** ** Go's [image/color] and [image/draw], as far as the code uses them *)

Module color.

(** A colour value, as [color.RGBA]. *)
Record Color : Type := RGBA { R : Z; G : Z; B : Z; A : Z }.

(** [color.RGBA{}] *)
Definition zero : Color := RGBA 0 0 0 0.

Definition eqb (c d : Color) : bool :=
  (R c =? R d) && (G c =? G d) && (B c =? B d) && (A c =? A d).

Inductive Model : Type := GrayModel | Gray16Model | RGBAModel | OtherModel.

Definition Model_eqb (m n : Model) : bool :=
  match m, n with
  | GrayModel, GrayModel | Gray16Model, Gray16Model
  | RGBAModel, RGBAModel | OtherModel, OtherModel => true
  | _, _ => false
  end.

End color.

(** A decoded picture whose pixels the code never looks at. *)
Record RawImage : Type := {
  rawId : Z;
  rawBounds : Rectangle;
  rawColorModel : color.Model
}.

(** A pixel buffer allocated by [image.NewGray] or [image.NewRGBA]. *)
Record Canvas : Type := {
  canvasModel : color.Model;
  canvasBounds : Rectangle;
  canvasAt : Z -> Z -> color.Color
}.

Inductive Pixels : Type :=
| Raw (i : RawImage)
| Resized (orig : Pixels) (sourceRect : Rectangle) (width height : Z)
| Drawn (c : Canvas).

(** [ResizeImage] is the resampling routine of the package, defined in
    another file: its result is kept as a term. *)
Definition ResizeImage (orig : Pixels) (sourceRect : Rectangle) (width height : Z) : Pixels :=
  Resized orig sourceRect width height.

(** The buffers [image.NewGray] and [image.NewRGBA] hand back when they
    return: all pixels zero. *)
Definition blankGray (r : Rectangle) : Canvas :=
  {| canvasModel := color.GrayModel; canvasBounds := r; canvasAt := fun _ _ => color.zero |}.

Definition blankRGBA (r : Rectangle) : Canvas :=
  {| canvasModel := color.RGBAModel; canvasBounds := r; canvasAt := fun _ _ => color.zero |}.

(** [mul3NonNeg] of the image package: x * y * z, or -1 when an argument is
    negative or a product does not fit (the two 64-bit multiplications and
    the conversion back to [int]). *)
Definition mul3NonNeg (x y z : Z) : Z :=
  if (x <? 0) || (y <? 0) || (z <? 0) then -1
  else if 2 ^ 64 <=? x * y then -1
  else if 2 ^ 64 <=? x * y * z then -1
  else if 2 ^ 63 <=? x * y * z then -1
  else x * y * z.

Definition Intersect (r s : Rectangle) : Rectangle :=
  let r' := {| Min := {| X := Z.max (X (Min r)) (X (Min s)); Y := Z.max (Y (Min r)) (Y (Min s)) |};
               Max := {| X := Z.min (X (Max r)) (X (Max s)); Y := Z.min (Y (Max r)) (Y (Max s)) |} |} in
  if (X (Max r') <? X (Min r')) || (Y (Max r') <? Y (Min r'))
  then {| Min := ZP; Max := ZP |} else r'.

(** [draw.Draw(dst, r, image.NewUniform(c), image.ZP, draw.Src)]: every pixel
    of dst inside r becomes c as dst's colour model [convert] renders it. *)
Definition DrawUniformSrc (convert : color.Model -> color.Color -> color.Color)
    (dst : Canvas) (r : Rectangle) (c : color.Color) : Canvas :=
  let clip := Intersect r (canvasBounds dst) in
  {| canvasModel := canvasModel dst;
     canvasBounds := canvasBounds dst;
     canvasAt := fun x y =>
       if PointIn {| X := x; Y := y |} clip
       then convert (canvasModel dst) c
       else canvasAt dst x y |}.

(** ** Alignments *)

(** [type HorAlignment int], [type VerAlignment int]: any [int] is a value
    of these types, the constants name three of them. *)
Definition HorAlignment : Type := Z.
Definition HorCenter : HorAlignment := 0.
Definition Left : HorAlignment := 1.
Definition Right : HorAlignment := 2.

Definition VerAlignment : Type := Z.
Definition VerCenter : VerAlignment := 0.
Definition Top : VerAlignment := 1.
Definition Bottom : VerAlignment := 2.

(** ** Outcomes *)

(** A computation either yields a value or panics: index out of range on an
    empty [Versions], or a pixel buffer that [image.NewGray] or
    [image.NewRGBA] does not hand back. *)
Inductive Res (A : Type) : Type :=
| Ok (a : A)
| Panic.

Arguments Ok {A} a.
Arguments Panic {A}.

Definition bind {A B : Type} (m : Res A) (k : A -> Res B) : Res B :=
  match m with
  | Ok a => k a
  | Panic => Panic
  end.

Notation "x <- m ;; k" := (bind m (fun x => k))
  (at level 61, m at next level, right associativity).

(** ** Image versions *)

Module ImageVersion.

(** Modelled from the spec: the struct [ImageVersion] is declared in
    another file of the package.  The fields are the ones [image.go]
    reads; the model wrappers around them ([model.String], [model.Int],
    ...) are dropped, [Get] and [Set] of a field being inverse to each
    other. *)
Record t : Type := {
  Filename : string;
  ContentType : string;
  SourceRect : Rectangle;
  Width : Z;
  Height : Z;
  Grayscale : bool;
  OutsideColor : color.Color
}.

(** Modelled from the spec: [newImageVersion] is defined in another file.
    It receives the six values below and no colour, so the outside colour
    of the version it returns is the zero value. *)
Definition newImageVersion (filename contentType : string) (sourceRect : Rectangle)
    (width height : Z) (grayscale : bool) : t :=
  {| Filename := filename;
     ContentType := contentType;
     SourceRect := sourceRect;
     Width := width;
     Height := height;
     Grayscale := grayscale;
     OutsideColor := color.zero |}.

(** Modelled from the spec: [AspectRatio] of a version is defined in
    another file; "AspectRatio returns Width / Height", in floating
    point. *)
Definition AspectRatio (v : t) : float64 :=
  Float64.div (ofInt (Width v)) (ofInt (Height v)).

(** Modelled from the spec: [EqualsColor] of [model.Color] is defined in
    another package; the match is exact equality of the colour values. *)
Definition EqualsColor (stored requested : color.Color) : bool :=
  color.eqb stored requested.

End ImageVersion.

(** ** The storage backend and the codecs *)

Definition Error : Type := string.

Record ImageData : Type := {
  ID : string;
  Description : string;
  Link : string;
  Versions : list ImageVersion.t
}.

(** What the code asks of its collaborators, in the order it asks. *)
Inductive Event : Type :=
| EvLoadImage (v : ImageVersion.t)
| EvSaveImage (v : ImageVersion.t) (p : Pixels)
| EvSaveImageData (v : ImageVersion.t) (data : list Byte.byte)
| EvBackendSaveImage (i : ImageData).

(** The collaborators.  The answer of the backend may depend on everything
    asked of it so far.  [MakeBytes n] tells whether the runtime hands back
    a byte slice of length n: it refuses lengths it cannot address and may
    find no memory for others. *)
Record Env : Type := {
  MakeBytes : Z -> bool;
  Decode : list Byte.byte -> (RawImage * string) + Error;
  PngEncode : RawImage -> list Byte.byte + Error;
  ValidUrlFilename : string -> string;
  ModelConvert : color.Model -> color.Color -> color.Color;
  LoadImage : list Event -> ImageVersion.t -> Pixels + Error;
  SaveImage : list Event -> ImageVersion.t -> Pixels -> option Error;
  SaveImageData : list Event -> ImageVersion.t -> list Byte.byte -> option Error;
  BackendSaveImage : list Event -> ImageData -> option Error
}.

(** [pixelBufferLength] of the image package: the byte length of a buffer
    over r, with a panic ("huge or negative dimensions") when it does not
    fit an [int]. *)
Definition pixelBufferLength (bytesPerPixel : Z) (r : Rectangle) : Res Z :=
  let totalLength := mul3NonNeg bytesPerPixel (Dx r) (Dy r) in
  if totalLength <? 0 then Panic else Ok totalLength.

(** [image.NewGray(r)] and [image.NewRGBA(r)]: one and four bytes a pixel.
    A run that ends for want of memory counts as a panic: nothing is
    returned either way. *)
Definition NewGray (env : Env) (r : Rectangle) : Res Canvas :=
  n <- pixelBufferLength 1 r ;;
  if MakeBytes env n then Ok (blankGray r) else Panic.

Definition NewRGBA (env : Env) (r : Rectangle) : Res Canvas :=
  n <- pixelBufferLength 4 r ;;
  if MakeBytes env n then Ok (blankRGBA r) else Panic.

(** ** The image aggregate *)

Module Image.

Definition t : Type := ImageData.

(** [self.Versions[0]], which panics on an empty slice. *)
Definition original (self : t) : Res ImageVersion.t :=
  match Versions self with
  | v :: _ => Ok v
  | [] => Panic
  end.

Definition Filename (self : t) : Res string :=
  v <- original self ;; Ok (ImageVersion.Filename v).

Definition ContentType (self : t) : Res string :=
  v <- original self ;; Ok (ImageVersion.ContentType v).

Definition Width (self : t) : Res Z :=
  v <- original self ;; Ok (ImageVersion.Width v).

Definition Height (self : t) : Res Z :=
  v <- original self ;; Ok (ImageVersion.Height v).

Definition Rectangle (self : t) : Res image.Rectangle :=
  v <- original self ;; Ok (ImageVersion.SourceRect v).

Definition Grayscale (self : t) : Res bool :=
  v <- original self ;; Ok (ImageVersion.Grayscale v).

Definition AspectRatio (self : t) : Res float64 :=
  v <- original self ;; Ok (ImageVersion.AspectRatio v).

Definition touchOriginalFromOutsideSourceRect (self : t) (width height : Z)
    (horAlign : HorAlignment) (verAlign : VerAlignment) : Res image.Rectangle :=
  let aspectRatio := Float64.div (ofInt width) (ofInt height) in
  origAspect <- AspectRatio self ;;
  if Float64.gt aspectRatio origAspect then
    h <- Height self ;;
    let maxX := toInt (Float64.mul (ofInt h) aspectRatio) in
    maxY <- Height self ;;
    offsetX <-
      (if horAlign =? HorCenter then
         w <- Width self ;; Ok (GoInt.div (GoInt.sub w maxX) 2)
       else if horAlign =? Right then
         w <- Width self ;; Ok (GoInt.sub w maxX)
       else Ok 0) ;;
    Ok (Add {| Min := ZP; Max := {| X := maxX; Y := maxY |} |}
            {| X := offsetX; Y := 0 |})
  else
    maxX <- Width self ;;
    w <- Width self ;;
    let maxY := toInt (Float64.div (ofInt w) aspectRatio) in
    offsetY <-
      (if verAlign =? VerCenter then
         h <- Height self ;; Ok (GoInt.div (GoInt.sub h maxY) 2)
       else if verAlign =? Bottom then
         h <- Height self ;; Ok (GoInt.sub h maxY)
       else Ok 0) ;;
    Ok (Add {| Min := ZP; Max := {| X := maxX; Y := maxY |} |}
            {| X := 0; Y := offsetY |}).

Definition touchOriginalFromInsideSourceRect (self : t) (width height : Z)
    (horAlign : HorAlignment) (verAlign : VerAlignment) : Res image.Rectangle :=
  let aspectRatio := Float64.div (ofInt width) (ofInt height) in
  origAspect <- AspectRatio self ;;
  if Float64.gt aspectRatio origAspect then
    maxX <- Width self ;;
    w <- Width self ;;
    let maxY := toInt (Float64.div (ofInt w) aspectRatio) in
    offsetY <-
      (if verAlign =? VerCenter then
         h <- Height self ;; Ok (GoInt.div (GoInt.sub h maxY) 2)
       else if verAlign =? Bottom then
         h <- Height self ;; Ok (GoInt.sub h maxY)
       else Ok 0) ;;
    Ok (Add {| Min := ZP; Max := {| X := maxX; Y := maxY |} |}
            {| X := 0; Y := offsetY |})
  else
    h <- Height self ;;
    let maxX := toInt (Float64.mul (ofInt h) aspectRatio) in
    maxY <- Height self ;;
    offsetX <-
      (if horAlign =? HorCenter then
         w <- Width self ;; Ok (GoInt.div (GoInt.sub w maxX) 2)
       else if horAlign =? Right then
         w <- Width self ;; Ok (GoInt.sub w maxX)
       else Ok 0) ;;
    Ok (Add {| Min := ZP; Max := {| X := maxX; Y := maxY |} |}
            {| X := offsetX; Y := 0 |}).

(** The test of the search loop on one version. *)
Definition matches (v : ImageVersion.t) (sourceRect : image.Rectangle)
    (width height : Z) (grayscale : bool) (outsideColor : color.Color) : bool :=
  Rectangle_eqb (ImageVersion.SourceRect v) sourceRect &&
  (ImageVersion.Width v =? width) &&
  (ImageVersion.Height v =? height) &&
  ImageVersion.EqualsColor (ImageVersion.OutsideColor v) outsideColor &&
  Bool.eqb (ImageVersion.Grayscale v) grayscale.

(** [for i := range self.Versions { ... if match { return v, nil } }],
    started at index i. *)
Fixpoint search (vs : list ImageVersion.t) (i : nat) (sourceRect : image.Rectangle)
    (width height : Z) (grayscale : bool) (outsideColor : color.Color) : option nat :=
  match vs with
  | [] => None
  | v :: rest =>
      if matches v sourceRect width height grayscale outsideColor then Some i
      else search rest (S i) sourceRect width height grayscale outsideColor
  end.

(** What a call hands back: a pointer to [self.Versions[i]] with a nil
    error, or a nil pointer with an error. *)
Inductive Return : Type :=
| RetVersion (i : nat)
| RetError (e : Error).

(** The state a call runs in and leaves behind. *)
Record World : Type := {
  img : t;
  trace : list Event
}.

Definition setVersions (self : t) (vs : list ImageVersion.t) : t :=
  {| ID := ID self; Description := Description self; Link := Link self; Versions := vs |}.

(** [SourceRectVersion].  The canvas of the fill path is allocated before
    the version is appended: when [image.NewGray] or [image.NewRGBA] does
    not return, the call panics with the version list as it was and nothing
    saved.  [outsideColor] is a colour value; the nil interface, on which
    the fill path panics in [draw.Draw], is not among the inputs
    considered. *)
Definition SourceRectVersion (env : Env) (w : World) (sourceRect : image.Rectangle)
    (width height : Z) (grayscale : bool) (outsideColor : color.Color)
    : Res (Return * World) :=
  let self := img w in
  origGray <- Grayscale self ;;
  let grayscale := if origGray then true else grayscale in
  match search (Versions self) 0 sourceRect width height grayscale outsideColor with
  | Some i => Ok (RetVersion i, w)
  | None =>
      v0 <- original self ;;
      let tr := trace w ++ [EvLoadImage v0] in
      match LoadImage env (trace w) v0 with
      | inr err => Ok (RetError err, {| img := self; trace := tr |})
      | inl origImage =>
          bounds <- Rectangle self ;;
          versionImage <-
            (if In sourceRect bounds then
               Ok (ResizeImage origImage sourceRect width height)
             else
               canvas <-
                 (if grayscale then NewGray env (Rect 0 0 width height)
                  else NewRGBA env (Rect 0 0 width height)) ;;
               Ok (Drawn (DrawUniformSrc (ModelConvert env) canvas (canvasBounds canvas)
                                         outsideColor))) ;;
          filename <- Filename self ;;
          contentType <- ContentType self ;;
          let version :=
            ImageVersion.newImageVersion filename contentType sourceRect
                                         width height grayscale in
          let self := setVersions self (Versions self ++ [version]) in
          let i := (List.length (Versions self) - 1)%nat in
          let tr1 := tr ++ [EvSaveImage version versionImage] in
          match SaveImage env tr version versionImage with
          | Some err => Ok (RetError err, {| img := self; trace := tr1 |})
          | None =>
              let tr2 := tr1 ++ [EvBackendSaveImage self] in
              match BackendSaveImage env tr1 self with
              | Some err => Ok (RetError err, {| img := self; trace := tr2 |})
              | None => Ok (RetVersion i, {| img := self; trace := tr2 |})
              end
          end
      end
  end.

Definition VersionTouchOrigFromOutside (env : Env) (w : World) (width height : Z)
    (horAlign : HorAlignment) (verAlign : VerAlignment) (grayscale : bool)
    (outsideColor : color.Color) : Res (Return * World) :=
  r <- touchOriginalFromOutsideSourceRect (img w) width height horAlign verAlign ;;
  SourceRectVersion env w r width height grayscale outsideColor.

Definition Version (env : Env) (w : World) (width height : Z)
    (horAlign : HorAlignment) (verAlign : VerAlignment) (grayscale : bool)
    : Res (Return * World) :=
  r <- touchOriginalFromInsideSourceRect (img w) width height horAlign verAlign ;;
  SourceRectVersion env w r width height grayscale color.zero.



End Image.

(** ** Ingestion *)

Definition isOneOf (t : string) (l : list string) : bool :=
  existsb (String.eqb t) l.

(** What [NewImage] hands back: the new image with a nil error, or nil with
    an error. *)
Inductive NewImageReturn : Type :=
| NewOk (i : Image.t)
| NewError (e : Error).

(** [image.Init()] at the end of [NewImage] only points every version back
    to its image; versions carry no such pointer here. *)
Definition NewImage (env : Env) (tr : list Event) (filename : string)
    (data : list Byte.byte) : NewImageReturn * list Event :=
  match Decode env data with
  | inr err => (NewError err, tr)
  | inl (i, t) =>
      let reencoded :=
        if isOneOf t ["gif"; "bmp"; "tiff"]%string then
          match PngEncode env i with
          | inr err => inr err
          | inl data' =>
              match Decode env data' with
              | inr err => inr err
              | inl (i', t') => inl (i', t', data', (filename ++ ".png")%string)
              end
          end
        else inl (i, t, data, filename) in
      match reencoded with
      | inr err => (NewError err, tr)
      | inl (i, t, data, filename) =>
          let width := Dx (rawBounds i) in
          let height := Dy (rawBounds i) in
          let version :=
            ImageVersion.newImageVersion
              (ValidUrlFilename env filename)
              ("image/" ++ t)%string
              (Rect 0 0 width height)
              width
              height
              (color.Model_eqb (rawColorModel i) color.GrayModel ||
               color.Model_eqb (rawColorModel i) color.Gray16Model) in
          let tr1 := tr ++ [EvSaveImageData version data] in
          match SaveImageData env tr version data with
          | Some err => (NewError err, tr1)
          | None =>
              (NewOk {| ID := ""; Description := ""; Link := ""; Versions := [version] |}, tr1)
          end
      end
  end.

(** ** Notions the statements below are written with *)

(** The unit roundoff of binary64, 2^-53. *)
Definition u53 : Q := (1 # 9007199254740992)%Q.

(** The bounds of the original, (0,0)-(Width,Height). *)
Definition originalBounds (v0 : ImageVersion.t) : Rectangle :=
  {| Min := ZP; Max := {| X := ImageVersion.Width v0; Y := ImageVersion.Height v0 |} |}.

(** The block both resolvers run when the rectangle keeps the width of the
    original: a band of full width, placed by the vertical alignment. *)
Definition fullWidthBand (W H : Z) (aspectRatio : float64) (verAlign : VerAlignment) : Rectangle :=
  let maxY := toInt (Float64.div (ofInt W) aspectRatio) in
  let offsetY :=
    if verAlign =? VerCenter then GoInt.div (GoInt.sub H maxY) 2
    else if verAlign =? Bottom then GoInt.sub H maxY
    else 0 in
  Add {| Min := ZP; Max := {| X := W; Y := maxY |} |} {| X := 0; Y := offsetY |}.

(** The block both resolvers run when the rectangle keeps the height of the
    original: a band of full height, placed by the horizontal alignment. *)
Definition fullHeightBand (W H : Z) (aspectRatio : float64) (horAlign : HorAlignment) : Rectangle :=
  let maxX := toInt (Float64.mul (ofInt H) aspectRatio) in
  let offsetX :=
    if horAlign =? HorCenter then GoInt.div (GoInt.sub W maxX) 2
    else if horAlign =? Right then GoInt.sub W maxX
    else 0 in
  Add {| Min := ZP; Max := {| X := maxX; Y := H |} |} {| X := offsetX; Y := 0 |}.


(** The colour mode a call works with: a grayscale original overrides the
    request. *)
Definition effectiveGrayscale (v0 : ImageVersion.t) (grayscale : bool) : bool :=
  if ImageVersion.Grayscale v0 then true else grayscale.

(** A version carries exactly the requested key. *)
Definition keyEq (v : ImageVersion.t) (sourceRect : Rectangle) (width height : Z)
    (grayscale : bool) (outsideColor : color.Color) : Prop :=
  ImageVersion.SourceRect v = sourceRect /\
  ImageVersion.Width v = width /\
  ImageVersion.Height v = height /\
  ImageVersion.OutsideColor v = outsideColor /\
  ImageVersion.Grayscale v = grayscale.

(** Index i holds the first version with the requested key. *)
Definition firstMatch (vs : list ImageVersion.t) (i : nat) (sourceRect : Rectangle)
    (width height : Z) (grayscale : bool) (outsideColor : color.Color) : Prop :=
  (exists v, nth_error vs i = Some v /\ keyEq v sourceRect width height grayscale outsideColor) /\
  forall j u, (j < i)%nat -> nth_error vs j = Some u ->
              ~ keyEq u sourceRect width height grayscale outsideColor.

(** The version a miss appends. *)
Definition newVersionOf (v0 : ImageVersion.t) (sourceRect : Rectangle) (width height : Z)
    (grayscale : bool) : ImageVersion.t :=
  ImageVersion.newImageVersion (ImageVersion.Filename v0) (ImageVersion.ContentType v0)
                               sourceRect width height grayscale.

(** Whether the canvas of the out-of-bounds path comes into being. *)
Definition canvasAllocates (env : Env) (grayscale : bool) (width height : Z) : bool :=
  match (if grayscale then NewGray env (Rect 0 0 width height)
         else NewRGBA env (Rect 0 0 width height)) with
  | Ok _ => true
  | Panic => false
  end.

(** Whether a miss gets as far as having pixels to save: the rectangle lies
    in the bounds, or the canvas comes into being. *)
Definition pixelsProduced (env : Env) (v0 : ImageVersion.t) (sourceRect : Rectangle)
    (width height : Z) (grayscale : bool) : bool :=
  In sourceRect (ImageVersion.SourceRect v0) || canvasAllocates env grayscale width height.

(** The canvas of the out-of-bounds path, once it is there. *)
Definition filledCanvas (env : Env) (width height : Z) (grayscale : bool)
    (outsideColor : color.Color) : Canvas :=
  let canvas := if grayscale then blankGray (Rect 0 0 width height)
                else blankRGBA (Rect 0 0 width height) in
  DrawUniformSrc (ModelConvert env) canvas (canvasBounds canvas) outsideColor.

(** The pixels a miss hands to [SaveImage], when it gets there. *)
Definition versionImageOf (env : Env) (origImage : Pixels) (v0 : ImageVersion.t)
    (sourceRect : Rectangle) (width height : Z) (grayscale : bool)
    (outsideColor : color.Color) : Pixels :=
  if In sourceRect (ImageVersion.SourceRect v0)
  then ResizeImage origImage sourceRect width height
  else Drawn (filledCanvas env width height grayscale outsideColor).

(** ** Sample data *)

Definition samplePicture (width height : Z) (m : color.Model) : RawImage :=
  {| rawId := 1; rawBounds := Rect 0 0 width height; rawColorModel := m |}.

(** A backend and codecs that never fail, and memory for buffers of less
    than 2^32 bytes; every upload decodes to a colour picture of 800 x 600
    pixels. *)
Definition okEnv : Env :=
  {| MakeBytes := fun n => n <? 2 ^ 32;
     Decode := fun _ => inl (samplePicture 800 600 color.RGBAModel, "png"%string);
     PngEncode := fun _ => inl [];
     ValidUrlFilename := fun s => s;
     ModelConvert := fun _ c => c;
     LoadImage := fun _ v =>
       inl (Raw {| rawId := 1; rawBounds := ImageVersion.SourceRect v;
                   rawColorModel := color.RGBAModel |});
     SaveImage := fun _ _ _ => None;
     SaveImageData := fun _ _ _ => None;
     BackendSaveImage := fun _ _ => None |}.

(** The same, with a backend that cannot store pixel bytes. *)
Definition failingSaveEnv : Env :=
  {| MakeBytes := MakeBytes okEnv;
     Decode := Decode okEnv;
     PngEncode := PngEncode okEnv;
     ValidUrlFilename := ValidUrlFilename okEnv;
     ModelConvert := ModelConvert okEnv;
     LoadImage := LoadImage okEnv;
     SaveImage := fun _ _ _ => Some "disk full"%string;
     SaveImageData := SaveImageData okEnv;
     BackendSaveImage := BackendSaveImage okEnv |}.

Definition sampleOriginal (width height : Z) (grayscale : bool) : ImageVersion.t :=
  ImageVersion.newImageVersion "a.png" "image/png" (Rect 0 0 width height)
                               width height grayscale.

Definition sampleImage (width height : Z) (grayscale : bool) : Image.t :=
  {| ID := ""; Description := ""; Link := "";
     Versions := [sampleOriginal width height grayscale] |}.

Definition sampleWorld (width height : Z) (grayscale : bool) : Image.World :=
  {| Image.img := sampleImage width height grayscale; Image.trace := [] |}.

Definition red : color.Color := color.RGBA 255 0 0 255.

(** The whole original of 800 x 600, and the cover-from-outside rectangle
    of a square request on it. *)
Definition fullRect : Rectangle := Rect 0 0 800 600.
Definition coverRect : Rectangle := Rect 0 (-100) 800 700.

(** The same request issued twice in a row: what the two calls hand back and
    how many versions the image holds after each. *)
Definition requestTwice (op : Image.World -> Res (Image.Return * Image.World))
    (w : Image.World) : Res (Image.Return * Image.Return * nat * nat) :=
  p1 <- op w ;;
  p2 <- op (snd p1) ;;
  Ok (fst p1, fst p2,
      List.length (Versions (Image.img (snd p1))),
      List.length (Versions (Image.img (snd p2)))).


(** ** Notions of the further properties *)

(** The decoding stage of [NewImage]: the picture, its format, the bytes to
    store and the file name, after GIF, BMP and TIFF went through PNG. *)
Definition ingest (env : Env) (filename : string) (data : list Byte.byte)
    : (RawImage * string * list Byte.byte * string) + Error :=
  match Decode env data with
  | inr err => inr err
  | inl (i, t) =>
      if isOneOf t ["gif"; "bmp"; "tiff"]%string then
        match PngEncode env i with
        | inr err => inr err
        | inl data' =>
            match Decode env data' with
            | inr err => inr err
            | inl (i', t') => inl (i', t', data', (filename ++ ".png")%string)
            end
        end
      else inl (i, t, data, filename)
  end.

(** The version [NewImage] makes of a decoded picture. *)
Definition originalVersion (env : Env) (i : RawImage) (t filename : string) : ImageVersion.t :=
  ImageVersion.newImageVersion
    (ValidUrlFilename env filename)
    ("image/" ++ t)%string
    (Rect 0 0 (Dx (rawBounds i)) (Dy (rawBounds i)))
    (Dx (rawBounds i))
    (Dy (rawBounds i))
    (color.Model_eqb (rawColorModel i) color.GrayModel ||
     color.Model_eqb (rawColorModel i) color.Gray16Model).

(** The worlds the code can get to: [NewImage] makes the image, and calls of
    [SourceRectVersion] that return, with outside colours among the allowed
    ones, take it further.  [Version], [VersionTouchOrigFromOutside] and the
    centred variants are such calls. *)
Inductive reachableWith (env : Env) (allowed : color.Color -> Prop) : Image.World -> Prop :=
| reach_new (tr tr' : list Event) (filename : string) (data : list Byte.byte)
    (image : Image.t) :
    NewImage env tr filename data = (NewOk image, tr') ->
    reachableWith env allowed {| Image.img := image; Image.trace := tr' |}
| reach_call (w w' : Image.World) (sourceRect : Rectangle) (width height : Z)
    (grayscale : bool) (outsideColor : color.Color) (ret : Image.Return) :
    reachableWith env allowed w ->
    allowed outsideColor ->
    Image.SourceRectVersion env w sourceRect width height grayscale outsideColor
      = Ok (ret, w') ->
    reachableWith env allowed w'.

(** A request on which the canvas of the fill path does not come into
    being: it misses, the original loads, the rectangle leaves the bounds
    of the original, and [image.NewGray] or [image.NewRGBA] does not
    return. *)
Definition canvasRefused (env : Env) (w : Image.World) (sourceRect : Rectangle)
    (width height : Z) (grayscale : bool) (outsideColor : color.Color) : Prop :=
  exists v0 rest origImage,
    Versions (Image.img w) = v0 :: rest /\
    (forall v, List.In v (Versions (Image.img w)) ->
               ~ keyEq v sourceRect width height (effectiveGrayscale v0 grayscale)
                   outsideColor) /\
    LoadImage env (Image.trace w) v0 = inl origImage /\
    In sourceRect (ImageVersion.SourceRect v0) = false /\
    canvasAllocates env (effectiveGrayscale v0 grayscale) width height = false.

Definition anyColour (c : color.Color) : Prop := True.
Definition zeroColour (c : color.Color) : Prop := c = color.zero.

(** Two versions made for the same rectangle, size and colour mode. *)
Definition sameRendition (u v : ImageVersion.t) : Prop :=
  ImageVersion.SourceRect u = ImageVersion.SourceRect v /\
  ImageVersion.Width u = ImageVersion.Width v /\
  ImageVersion.Height u = ImageVersion.Height v /\
  ImageVersion.Grayscale u = ImageVersion.Grayscale v.

(** The offset an alignment gives a band of length m on a side of length D,
    in plain integers. *)
Definition alignOffset (align D m : Z) : Z :=
  if align =? 0 then Z.quot (D - m) 2
  else if align =? 2 then D - m
  else 0.

(** How an alignment (0 centre, 1 left or top, 2 right or bottom, anything
    else as 1) places a band of length m on a side of length D, the band
    running from [lo] to [hi]: centred up to one pixel, flush with the far
    end, or flush with the near end. *)
Definition placed (align D m lo hi : Z) : Prop :=
  hi = lo + m /\
  (align = 0 -> -1 <= (D - hi) - lo <= 1 /\ (m <= D -> 0 <= (D - hi) - lo) /\
                (D <= m -> (D - hi) - lo <= 0)) /\
  (align = 2 -> hi = D) /\
  (align <> 0 -> align <> 2 -> lo = 0).

(** Two floats that denote the same value. *)
Definition sameFloat (a b : float64) : Prop :=
  match a, b with
  | FNum x, FNum y => (x == y)%Q
  | FInf s, FInf t => s = t
  | FNaN, FNaN => True
  | _, _ => False
  end.

(** ** Further sample data *)

(** The world a call leaves behind, and [fallback] if it panicked. *)
Definition worldAfter (res : Res (Image.Return * Image.World)) (fallback : Image.World)
    : Image.World :=
  match res with
  | Ok (_, w) => w
  | Panic => fallback
  end.

(** The sample image right after [NewImage] made it. *)
Definition newWorld : Image.World :=
  {| Image.img := sampleImage 800 600 false;
     Image.trace := [EvSaveImageData (sampleOriginal 800 600 false) []] |}.

(** The sample world after a centred fit-inside request of 400 x 400. *)
Definition squareWorld : Image.World :=
  worldAfter (Image.Version okEnv (sampleWorld 800 600 false) 400 400 HorCenter VerCenter false)
             (sampleWorld 800 600 false).

(** The rectangle of that request. *)
Definition squareRect : Rectangle := Rect 100 0 700 600.

(** The sample world after the same request met a backend that cannot store
    pixel bytes. *)
Definition failedWorld : Image.World :=
  worldAfter (Image.SourceRectVersion failingSaveEnv (sampleWorld 800 600 false)
                squareRect 400 400 false color.zero)
             (sampleWorld 800 600 false).

(** The sample world after a cover-from-outside request with a red outside
    colour. *)
Definition redWorld : Image.World :=
  worldAfter (Image.VersionTouchOrigFromOutside okEnv newWorld 400 400 HorCenter VerCenter
                false red)
             newWorld.

(** Codecs that take every upload for a GIF and every other byte string for
    a gray PNG of 80 x 60, of which [PngEncode] makes one. *)
Definition gifEnv : Env :=
  {| MakeBytes := MakeBytes okEnv;
     Decode := fun d =>
       match d with
       | [] => inl (samplePicture 800 600 color.OtherModel, "gif"%string)
       | _ => inl (samplePicture 80 60 color.GrayModel, "png"%string)
       end;
     PngEncode := fun _ => inl [Byte.x89];
     ValidUrlFilename := ValidUrlFilename okEnv;
     ModelConvert := ModelConvert okEnv;
     LoadImage := LoadImage okEnv;
     SaveImage := SaveImage okEnv;
     SaveImageData := SaveImageData okEnv;
     BackendSaveImage := BackendSaveImage okEnv |}.

(** What [NewImage] makes of an upload with these codecs. *)
Definition gifImage : Image.t :=
  match fst (NewImage gifEnv [] "a.gif" []) with
  | NewOk im => im
  | NewError _ => sampleImage 800 600 false
  end.

(** * Properties *)

Section Rounding.
Local Open Scope Q_scope.

Lemma pow2_pos (e : Z) : 0 < 2 ^ e.
Proof. apply Qpower_0_lt. reflexivity. Qed.

Lemma pow2_split (a b : Z) : 2 ^ (a + b) == 2 ^ a * 2 ^ b.
Proof. apply Qpower_plus. discriminate. Qed.

Lemma pow2_inject (k : Z) : (0 <= k)%Z -> 2 ^ k == inject_Z (2 ^ k).
Proof. intros Hk. rewrite (Zpower_Qpower 2 k Hk). reflexivity. Qed.

Lemma ilog2_lower (x : Q) : 0 < x -> 2 ^ ilog2 x <= x.
Proof.
  intros Hx. unfold ilog2.
  destruct (Qle_bool 1 x) eqn:E.
  - apply Qle_bool_iff in E.
    assert (Hf : (1 <= Qfloor x)%Z).
    { rewrite <- (Qfloor_Z 1). apply Qfloor_resp_le. exact E. }
    rewrite pow2_inject by apply Z.log2_nonneg.
    apply Qle_trans with (inject_Z (Qfloor x)); [| apply Qfloor_le].
    rewrite <- Zle_Qle. apply Z.log2_spec. lia.
  - assert (Hlt : x < 1).
    { apply Qnot_le_lt. intros H. apply Qle_bool_iff in H. congruence. }
    set (c := Qceiling (/ x)).
    assert (Hinv : 0 < / x) by (apply Qinv_lt_0_compat; exact Hx).
    assert (Hc : / x <= inject_Z c) by apply Qle_ceiling.
    assert (Hc1 : (1 <= c)%Z).
    { apply Z.lt_pred_le. simpl. rewrite Zlt_Qlt.
      apply Qlt_le_trans with (/ x); assumption. }
    assert (Hup : (c <= 2 ^ Z.log2_up c)%Z).
    { destruct (Z.eq_dec c 1) as [-> | Hne]; [simpl; lia |].
      apply Z.log2_up_spec. lia. }
    rewrite Qpower_opp.
    rewrite pow2_inject by apply Z.log2_up_nonneg.
    assert (Hp : / x <= inject_Z (2 ^ Z.log2_up c)).
    { apply Qle_trans with (inject_Z c); [exact Hc |].
      rewrite <- Zle_Qle. exact Hup. }
    set (p := inject_Z (2 ^ Z.log2_up c)) in *.
    assert (Hp0 : 0 < p) by (apply Qlt_le_trans with (/ x); assumption).
    apply Qle_shift_inv_r; [exact Hp0 |].
    setoid_replace 1 with (/ x * x) by (field; intros H; rewrite H in Hx; discriminate).
    rewrite (Qmult_comm x p).
    apply Qmult_le_compat_r; [exact Hp | apply Qlt_le_weak; exact Hx].
Qed.

Lemma roundHalfEven_near (y : Q) :
  y - (1 # 2) <= inject_Z (roundHalfEven y) <= y + (1 # 2).
Proof.
  unfold roundHalfEven.
  pose proof (Qfloor_le y) as Hlo.
  pose proof (Qlt_floor y) as Hhi.
  rewrite inject_Z_plus in Hhi.
  change (inject_Z 1) with 1 in Hhi.
  set (f := Qfloor y) in *.
  assert (Hs : inject_Z (f + 1) == inject_Z f + 1)
    by (rewrite inject_Z_plus; reflexivity).
  destruct (Qcompare (y - inject_Z f) (1 # 2)) eqn:E.
  - apply Qeq_alt in E.
    destruct (Z.even f); [| rewrite Hs]; lra.
  - apply Qlt_alt in E. lra.
  - apply Qgt_alt in E. rewrite Hs. lra.
Qed.

Lemma roundPos_near (x : Q) :
  0 < x -> x * (1 - u53) <= roundPos x <= x * (1 + u53).
Proof.
  intros Hx. unfold roundPos.
  set (e := (ilog2 x - 52)%Z).
  pose proof (pow2_pos e) as Hs.
  pose proof (ilog2_lower x Hx) as Hl.
  replace (ilog2 x) with (e + 52)%Z in Hl by (unfold e; lia).
  rewrite pow2_split in Hl.
  assert (H52 : 2 ^ 52 == 4503599627370496) by reflexivity.
  rewrite H52 in Hl.
  pose proof (roundHalfEven_near (x / 2 ^ e)) as Hn.
  set (m := inject_Z (roundHalfEven (x / 2 ^ e))) in *.
  set (s := 2 ^ e) in *.
  assert (Hy : x / s * s == x) by (field; lra).
  unfold u53.
  split.
  - assert (H1 : (x / s - (1 # 2)) * s <= m * s)
      by (apply Qmult_le_compat_r; lra).
    lra.
  - assert (H1 : m * s <= (x / s + (1 # 2)) * s)
      by (apply Qmult_le_compat_r; lra).
    lra.
Qed.

Lemma round_near (x : Q) :
  0 <= x -> x * (1 - u53) <= round x <= x * (1 + u53).
Proof.
  intros Hx. unfold round.
  destruct (Qcompare x 0) eqn:E.
  - apply Qeq_alt in E. unfold u53. lra.
  - apply Qlt_alt in E. lra.
  - apply Qgt_alt in E. apply roundPos_near. exact E.
Qed.

Lemma roundHalfEven_int (y : Q) (m : Z) :
  y == inject_Z m -> roundHalfEven y = m.
Proof.
  intros Hy. unfold roundHalfEven.
  assert (Hf : Qfloor y = m) by (rewrite Hy; apply Qfloor_Z).
  rewrite Hf.
  assert (E : Qcompare (y - inject_Z m) (1 # 2) = Lt).
  { apply (proj1 (Qlt_alt _ _)). lra. }
  rewrite E. reflexivity.
Qed.

Lemma ilog2_int (n : Z) : (1 <= n)%Z -> ilog2 (inject_Z n) = Z.log2 n.
Proof.
  intros Hn. unfold ilog2.
  assert (E : Qle_bool 1 (inject_Z n) = true).
  { apply Qle_bool_iff. change 1 with (inject_Z 1). rewrite <- Zle_Qle. exact Hn. }
  rewrite E, Qfloor_Z. reflexivity.
Qed.

Lemma roundPos_int (n : Z) :
  (1 <= n < 2 ^ 53)%Z -> roundPos (inject_Z n) == inject_Z n.
Proof.
  intros [Hn Hb]. unfold roundPos.
  rewrite ilog2_int by exact Hn.
  assert (Hl : (Z.log2 n < 53)%Z) by (apply Z.log2_lt_pow2; lia).
  pose proof (Z.log2_nonneg n) as Hl0.
  set (k := (52 - Z.log2 n)%Z).
  replace (Z.log2 n - 52)%Z with (- k)%Z by (unfold k; lia).
  assert (Hk : (0 <= k)%Z) by (unfold k; lia).
  pose proof (pow2_pos k) as Hp.
  assert (Hy : inject_Z n / 2 ^ (- k) == inject_Z (n * 2 ^ k)).
  { rewrite Qpower_opp, inject_Z_mult, <- (pow2_inject k Hk). field. lra. }
  rewrite (roundHalfEven_int _ _ Hy).
  rewrite Qpower_opp, inject_Z_mult, <- (pow2_inject k Hk). field. lra.
Qed.

Lemma round_int (n : Z) :
  (0 <= n < 2 ^ 53)%Z -> round (inject_Z n) == inject_Z n.
Proof.
  intros [Hn Hb]. unfold round.
  destruct (Qcompare (inject_Z n) 0) eqn:E.
  - apply Qeq_alt in E. symmetry. exact E.
  - apply Qlt_alt in E. change 0 with (inject_Z 0) in E.
    rewrite <- Zlt_Qlt in E. lia.
  - apply Qgt_alt in E. change 0 with (inject_Z 0) in E.
    rewrite <- Zlt_Qlt in E. apply roundPos_int. lia.
Qed.

Lemma trunc_nonneg_bounds (q : Q) (n : Z) :
  0 <= q -> q < inject_Z (n + 1) -> (0 <= trunc q <= n)%Z.
Proof.
  intros H0 Hn. unfold trunc.
  assert (E : Qle_bool 0 q = true) by (apply Qle_bool_iff; exact H0).
  rewrite E. split.
  - rewrite <- (Qfloor_Z 0). apply Qfloor_resp_le. exact H0.
  - apply Z.lt_succ_r. rewrite Zlt_Qlt.
    apply Qle_lt_trans with q; [apply Qfloor_le | exact Hn].
Qed.

Lemma toInt_round_bounds (x : Q) (n : Z) :
  0 <= x -> x * (1 + u53) < inject_Z (n + 1) -> (n <= GoInt.maxInt)%Z ->
  (0 <= toInt (FNum (round x)) <= n)%Z.
Proof.
  intros H0 Hn Hmax.
  pose proof (round_near x H0) as [Hlo Hhi].
  assert (Hr0 : 0 <= round x) by (unfold u53 in Hlo; nra).
  assert (Hb : (0 <= trunc (round x) <= n)%Z).
  { apply trunc_nonneg_bounds; [exact Hr0 | lra]. }
  unfold toInt.
  assert (E1 : (GoInt.minInt <=? trunc (round x))%Z = true)
    by (apply Z.leb_le; unfold GoInt.minInt; lia).
  assert (E2 : (trunc (round x) <=? GoInt.maxInt)%Z = true)
    by (apply Z.leb_le; lia).
  rewrite E1, E2. exact Hb.
Qed.

(** The wide branch of the fit-inside resolver: the height of the band. *)
Lemma fit_wide_core (W H : Z) (ar o x : Q) :
  (0 <= W)%Z -> (0 < H < 2 ^ 50)%Z ->
  0 < ar -> o < ar ->
  inject_Z W * (1 - u53) <= o * inject_Z H ->
  x * ar == inject_Z W ->
  0 <= x /\ x * (1 + u53) < inject_Z (H + 1).
Proof.
  intros HW [HH0 HH] Har Ho Hlo Hx.
  assert (HWq : 0 <= inject_Z W) by (change 0 with (inject_Z 0); rewrite <- Zle_Qle; lia).
  assert (HHq : 0 < inject_Z H) by (change 0 with (inject_Z 0); rewrite <- Zlt_Qlt; lia).
  assert (HHb : inject_Z H < 1125899906842624).
  { change 1125899906842624 with (inject_Z (2 ^ 50)). rewrite <- Zlt_Qlt. lia. }
  rewrite inject_Z_plus. change (inject_Z 1) with 1.
  unfold u53 in *.
  assert (Hx0 : 0 <= x).
  { destruct (Qlt_le_dec x 0) as [Hneg | Hpos]; [| exact Hpos].
    exfalso. assert (x * ar < 0) by nra. lra. }
  split; [exact Hx0 |].
  assert (H1 : o * inject_Z H <= ar * inject_Z H) by nra.
  assert (H2 : x * ar * (1 - (1 # 9007199254740992)) <= ar * inject_Z H) by (rewrite Hx; lra).
  assert (H3 : x * (1 - (1 # 9007199254740992)) <= inject_Z H).
  { destruct (Qlt_le_dec (inject_Z H) (x * (1 - (1 # 9007199254740992)))) as [Hc | Hc];
      [| exact Hc].
    exfalso.
    assert (ar * inject_Z H < ar * (x * (1 - (1 # 9007199254740992)))).
    { apply (proj2 (Qmult_lt_l _ _ ar Har)). exact Hc. }
    lra. }
  lra.
Qed.

(** The tall branch of the fit-inside resolver: the width of the band. *)
Lemma fit_tall_core (W H : Z) (ar o x : Q) :
  (0 <= W < 2 ^ 50)%Z -> (0 <= H)%Z ->
  0 <= ar -> ar <= o ->
  o * inject_Z H <= inject_Z W * (1 + u53) ->
  x == inject_Z H * ar ->
  0 <= x /\ x * (1 + u53) < inject_Z (W + 1).
Proof.
  intros [HW0 HW] HH Har Ho Hhi Hx.
  assert (HWq : 0 <= inject_Z W) by (change 0 with (inject_Z 0); rewrite <- Zle_Qle; lia).
  assert (HHq : 0 <= inject_Z H) by (change 0 with (inject_Z 0); rewrite <- Zle_Qle; lia).
  assert (HWb : inject_Z W < 1125899906842624).
  { change 1125899906842624 with (inject_Z (2 ^ 50)). rewrite <- Zlt_Qlt. lia. }
  rewrite inject_Z_plus. change (inject_Z 1) with 1.
  unfold u53 in *.
  assert (Hx0 : 0 <= x) by (rewrite Hx; apply Qmult_le_0_compat; assumption).
  split; [exact Hx0 |].
  assert (H1 : inject_Z H * ar <= o * inject_Z H).
  { rewrite (Qmult_comm (inject_Z H)). apply Qmult_le_compat_r; assumption. }
  assert (H2 : x * (1 + (1 # 9007199254740992))
               <= inject_Z W * (1 + (1 # 9007199254740992)) * (1 + (1 # 9007199254740992))).
  { apply Qmult_le_compat_r; lra. }
  lra.
Qed.

Lemma inject_Z_pos (n : Z) : (0 < n)%Z -> 0 < inject_Z n.
Proof. intros H. change 0 with (inject_Z 0). rewrite <- Zlt_Qlt. exact H. Qed.

Lemma inject_Z_nonneg (n : Z) : (0 <= n)%Z -> 0 <= inject_Z n.
Proof. intros H. change 0 with (inject_Z 0). rewrite <- Zle_Qle. exact H. Qed.

Lemma round_pos (x : Q) : 0 < x -> 0 < round x.
Proof.
  intros Hx. pose proof (round_near x (Qlt_le_weak _ _ Hx)) as [Hlo _].
  unfold u53 in Hlo. nra.
Qed.

Lemma ilog2_upper (x : Q) : 0 < x -> x < 2 ^ (ilog2 x + 1).
Proof.
  intros Hx. unfold ilog2.
  destruct (Qle_bool 1 x) eqn:E.
  - apply Qle_bool_iff in E.
    assert (Hf : (1 <= Qfloor x)%Z).
    { rewrite <- (Qfloor_Z 1). apply Qfloor_resp_le. exact E. }
    pose proof (Z.log2_nonneg (Qfloor x)) as Hl.
    rewrite pow2_inject by lia.
    apply Qlt_le_trans with (inject_Z (Qfloor x + 1)); [apply Qlt_floor |].
    rewrite <- Zle_Qle.
    assert (Qfloor x < 2 ^ Z.succ (Z.log2 (Qfloor x)))%Z by (apply Z.log2_spec; lia).
    unfold Z.succ in *. lia.
  - assert (Hlt : x < 1).
    { apply Qnot_le_lt. intros H. apply Qle_bool_iff in H. congruence. }
    set (c := Qceiling (/ x)).
    assert (Hinv : 1 < / x).
    { apply Qlt_shift_inv_l; [exact Hx | lra]. }
    assert (Hc : / x <= inject_Z c) by apply Qle_ceiling.
    assert (Hc' : inject_Z (c - 1) < / x) by apply Qceiling_lt.
    assert (Hc1 : (1 < c)%Z).
    { rewrite Zlt_Qlt. apply Qlt_le_trans with (/ x); assumption. }
    pose proof (Z.log2_up_spec c Hc1) as [Hlo _].
    pose proof (Z.log2_up_pos c Hc1) as Hk.
    set (k := Z.log2_up c) in *.
    replace (- k + 1)%Z with (- (k - 1))%Z by lia.
    rewrite Qpower_opp, pow2_inject by lia.
    replace (Z.pred k) with (k - 1)%Z in Hlo by lia.
    assert (Hp : inject_Z (2 ^ (k - 1)) < / x).
    { apply Qle_lt_trans with (inject_Z (c - 1)); [| exact Hc'].
      rewrite <- Zle_Qle. lia. }
    assert (Hp0 : 0 < inject_Z (2 ^ (k - 1))).
    { apply inject_Z_pos. apply Z.pow_pos_nonneg; lia. }
    set (p := inject_Z (2 ^ (k - 1))) in *.
    apply Qlt_shift_inv_l; [exact Hp0 |].
    setoid_replace 1 with (/ x * x) by (field; lra).
    rewrite (Qmult_comm x p).
    apply (proj2 (Qmult_lt_r _ _ x Hx)). exact Hp.
Qed.

(** The significand [roundPos] rounds is a number of 53 bits: the model
    rounds at the place binary64 does. *)
Lemma roundPos_significand (x : Q) :
  0 < x ->
  let e := (ilog2 x - 52)%Z in
  inject_Z (2 ^ 52) <= x / 2 ^ e < inject_Z (2 ^ 53).
Proof.
  intros Hx e.
  pose proof (pow2_pos e) as Hs.
  pose proof (ilog2_lower x Hx) as Hl.
  pose proof (ilog2_upper x Hx) as Hu.
  replace (ilog2 x) with (e + 52)%Z in Hl by (unfold e; lia).
  replace (ilog2 x + 1)%Z with (e + 53)%Z in Hu by (unfold e; lia).
  rewrite pow2_split in Hl, Hu.
  rewrite (pow2_inject 52) in Hl by lia.
  rewrite (pow2_inject 53) in Hu by lia.
  split.
  - apply Qle_shift_div_l; [exact Hs |]. rewrite Qmult_comm. exact Hl.
  - apply Qlt_shift_div_r; [exact Hs |]. rewrite Qmult_comm. exact Hu.
Qed.

Lemma isZero_pos (x : Q) : 0 < x -> isZero x = false.
Proof.
  intros Hx. unfold isZero. destruct (Qeq_bool x 0) eqn:E; [| reflexivity].
  apply Qeq_bool_iff in E. lra.
Qed.

Lemma div_pos (x y : Q) :
  0 < y -> Float64.div (FNum x) (FNum y) = FNum (round (x / y)).
Proof. intros Hy. unfold Float64.div. rewrite (isZero_pos y Hy). reflexivity. Qed.

(** The requested aspect ratio is a positive number. *)
Lemma request_ratio (w h : Z) :
  (0 < w)%Z -> (0 < h)%Z ->
  exists ar, Float64.div (ofInt w) (ofInt h) = FNum ar /\ 0 < ar.
Proof.
  intros Hw Hh. unfold ofInt.
  pose proof (round_pos _ (inject_Z_pos w Hw)) as Ha.
  pose proof (round_pos _ (inject_Z_pos h Hh)) as Hb.
  rewrite div_pos by exact Hb.
  eexists. split; [reflexivity |].
  apply round_pos. apply Qlt_shift_div_l; lra.
Qed.

(** The aspect ratio of an original with a positive height is within one
    unit roundoff of Width / Height. *)
Lemma orig_ratio (W H : Z) :
  (0 <= W < 2 ^ 53)%Z -> (0 < H < 2 ^ 53)%Z ->
  exists o, Float64.div (ofInt W) (ofInt H) = FNum o /\
            inject_Z W * (1 - u53) <= o * inject_Z H <= inject_Z W * (1 + u53).
Proof.
  intros HW HH. unfold ofInt.
  pose proof (round_int W HW) as EW.
  assert (HH' : (0 <= H < 2 ^ 53)%Z) by lia.
  pose proof (round_int H HH') as EH.
  pose proof (inject_Z_pos H (proj1 HH)) as HHq.
  pose proof (inject_Z_nonneg W (proj1 HW)) as HWq.
  rewrite div_pos by lra.
  eexists. split; [reflexivity |].
  set (d := round (inject_Z W) / round (inject_Z H)).
  assert (Hd : d * inject_Z H == inject_Z W).
  { unfold d. rewrite EW, EH. field. lra. }
  assert (Hd0 : 0 <= d).
  { unfold d. rewrite EW, EH. apply Qle_shift_div_l; lra. }
  pose proof (round_near d Hd0) as [Hlo Hhi].
  split.
  - apply Qle_trans with (d * (1 - u53) * inject_Z H).
    + rewrite <- Hd. nra.
    + apply Qmult_le_compat_r; lra.
  - apply Qle_trans with (d * (1 + u53) * inject_Z H).
    + apply Qmult_le_compat_r; lra.
    + rewrite <- Hd. nra.
Qed.

(** With a height of zero the aspect ratio is an infinity or NaN, and no
    number is greater. *)
Lemma orig_ratio_zero_height (W : Z) (ar : Q) :
  (0 <= W)%Z -> Float64.gt (FNum ar) (Float64.div (ofInt W) (ofInt 0)) = false.
Proof.
  intros HW. unfold ofInt, Float64.div.
  change (isZero (round (inject_Z 0))) with true. cbv iota.
  destruct (isZero (round (inject_Z W))); [reflexivity |].
  assert (E : isNeg (round (inject_Z W)) = false).
  { unfold isNeg. apply negb_false_iff. apply Qle_bool_iff.
    pose proof (round_near _ (inject_Z_nonneg W HW)) as [Hlo _].
    unfold u53 in Hlo. pose proof (inject_Z_nonneg W HW). nra. }
  rewrite E. reflexivity.
Qed.

End Rounding.

Local Open Scope Z_scope.

Lemma wrap_id (z : Z) : GoInt.inRange z -> GoInt.wrap z = z.
Proof.
  unfold GoInt.inRange, GoInt.minInt, GoInt.maxInt, GoInt.wrap. intros H.
  rewrite Z.mod_small; lia.
Qed.

Lemma original_cons (self : Image.t) (v0 : ImageVersion.t) (rest : list ImageVersion.t) :
  Versions self = v0 :: rest -> Image.original self = Ok v0.
Proof. intros H. unfold Image.original. rewrite H. reflexivity. Qed.

Lemma inside_bands (self : Image.t) (v0 : ImageVersion.t) (rest : list ImageVersion.t)
    (width height : Z) (horAlign : HorAlignment) (verAlign : VerAlignment) :
  Versions self = v0 :: rest ->
  Image.touchOriginalFromInsideSourceRect self width height horAlign verAlign =
  Ok (let W := ImageVersion.Width v0 in
      let H := ImageVersion.Height v0 in
      let ar := Float64.div (ofInt width) (ofInt height) in
      if Float64.gt ar (ImageVersion.AspectRatio v0)
      then fullWidthBand W H ar verAlign
      else fullHeightBand W H ar horAlign).
Proof.
  intros Hv. pose proof (original_cons self v0 rest Hv) as Ho.
  unfold Image.touchOriginalFromInsideSourceRect, Image.AspectRatio, Image.Width,
    Image.Height, fullWidthBand, fullHeightBand.
  rewrite Ho. cbn [bind]. cbv zeta.
  destruct (Float64.gt _ _).
  - destruct (verAlign =? VerCenter); [reflexivity |].
    destruct (verAlign =? Bottom); reflexivity.
  - destruct (horAlign =? HorCenter); [reflexivity |].
    destruct (horAlign =? Right); reflexivity.
Qed.

Lemma outside_bands (self : Image.t) (v0 : ImageVersion.t) (rest : list ImageVersion.t)
    (width height : Z) (horAlign : HorAlignment) (verAlign : VerAlignment) :
  Versions self = v0 :: rest ->
  Image.touchOriginalFromOutsideSourceRect self width height horAlign verAlign =
  Ok (let W := ImageVersion.Width v0 in
      let H := ImageVersion.Height v0 in
      let ar := Float64.div (ofInt width) (ofInt height) in
      if Float64.gt ar (ImageVersion.AspectRatio v0)
      then fullHeightBand W H ar horAlign
      else fullWidthBand W H ar verAlign).
Proof.
  intros Hv. pose proof (original_cons self v0 rest Hv) as Ho.
  unfold Image.touchOriginalFromOutsideSourceRect, Image.AspectRatio, Image.Width,
    Image.Height, fullWidthBand, fullHeightBand.
  rewrite Ho. cbn [bind]. cbv zeta.
  destruct (Float64.gt _ _).
  - destruct (horAlign =? HorCenter); [reflexivity |].
    destruct (horAlign =? Right); reflexivity.
  - destruct (verAlign =? VerCenter); [reflexivity |].
    destruct (verAlign =? Bottom); reflexivity.
Qed.

(** The offset of a band of length m along a side of length D lies between
    0 and the leftover D - m, whichever sign the leftover has. *)
Lemma offset_between (align D m : Z) :
  0 <= m < 2 ^ 50 -> 0 <= D < 2 ^ 50 ->
  let off := if align =? 0 then GoInt.div (GoInt.sub D m) 2
             else if align =? 2 then GoInt.sub D m
             else 0 in
  Z.min 0 (D - m) <= off <= Z.max 0 (D - m) /\
  GoInt.add 0 off = off /\ GoInt.add m off = m + off /\
  (align = 1 -> off = 0) /\ (align = 2 -> off = D - m).
Proof.
  intros Hm HD.
  assert (Hsub : GoInt.sub D m = D - m).
  { apply wrap_id. unfold GoInt.inRange, GoInt.minInt, GoInt.maxInt. lia. }
  assert (Hq : Z.min 0 (D - m) <= Z.quot (D - m) 2 <= Z.max 0 (D - m)).
  { destruct (Z.le_gt_cases 0 (D - m)) as [Hp | Hn].
    - rewrite Z.quot_div_nonneg by lia.
      pose proof (Z.div_pos (D - m) 2 Hp ltac:(lia)).
      assert ((D - m) / 2 <= D - m) by (apply Z.div_le_upper_bound; lia). lia.
    - replace (D - m) with (- (m - D)) by lia.
      rewrite Z.quot_opp_l by lia.
      rewrite Z.quot_div_nonneg by lia.
      assert (0 <= (m - D) / 2) by (apply Z.div_pos; lia).
      assert ((m - D) / 2 <= m - D) by (apply Z.div_le_upper_bound; lia). lia. }
  assert (Hdiv : GoInt.div (D - m) 2 = Z.quot (D - m) 2).
  { apply wrap_id. unfold GoInt.inRange, GoInt.minInt, GoInt.maxInt. lia. }
  assert (Hadd : forall off, Z.min 0 (D - m) <= off <= Z.max 0 (D - m) ->
                 GoInt.add 0 off = off /\ GoInt.add m off = m + off).
  { intros off H0. unfold GoInt.add.
    rewrite !wrap_id; [split; reflexivity | |];
      unfold GoInt.inRange, GoInt.minInt, GoInt.maxInt; lia. }
  cbv zeta. rewrite Hsub, Hdiv.
  destruct (Z.eqb_spec align 0) as [-> | N0].
  - destruct (Hadd (Z.quot (D - m) 2)) as [E1 E2]; [lia |].
    rewrite E1, E2. repeat split; lia.
  - destruct (Z.eqb_spec align 2) as [-> | N2].
    + destruct (Hadd (D - m)) as [E1 E2]; [lia |].
      rewrite E1, E2. repeat split; lia.
    + destruct (Hadd 0) as [E1 E2]; [lia |].
      rewrite E1, E2. repeat split; lia.
Qed.

Lemma add_zero_side (D : Z) :
  0 <= D < 2 ^ 50 -> GoInt.add 0 0 = 0 /\ GoInt.add D 0 = D.
Proof.
  intros HD. unfold GoInt.add.
  rewrite !wrap_id; [split; [reflexivity | lia] | |];
    unfold GoInt.inRange, GoInt.minInt, GoInt.maxInt; lia.
Qed.

Lemma sub_small (a b : Z) :
  - 2 ^ 51 <= a <= 2 ^ 51 -> - 2 ^ 51 <= b <= 2 ^ 51 -> GoInt.sub a b = a - b.
Proof.
  intros Ha Hb. apply wrap_id. unfold GoInt.inRange, GoInt.minInt, GoInt.maxInt. lia.
Qed.

Lemma fullWidthBand_shape (W H m : Z) (ar : float64) (verAlign : VerAlignment) :
  0 <= W < 2 ^ 50 -> 0 <= H < 2 ^ 50 ->
  toInt (Float64.div (ofInt W) ar) = m -> 0 <= m < 2 ^ 50 ->
  let r := fullWidthBand W H ar verAlign in
  X (Min r) = 0 /\ X (Max r) = W /\ Dx r = W /\
  Y (Max r) = Y (Min r) + m /\ Dy r = m /\
  Z.min 0 (H - m) <= Y (Min r) <= Z.max 0 (H - m) /\
  (verAlign = Top -> Y (Min r) = 0) /\ (verAlign = Bottom -> Y (Min r) = H - m).
Proof.
  intros HW HH Em Hm. unfold fullWidthBand. rewrite Em.
  pose proof (offset_between verAlign H m Hm HH) as Hoff. cbv zeta in Hoff.
  unfold VerCenter, Bottom, Top.
  set (off := if verAlign =? 0 then _ else _) in *.
  destruct Hoff as (H1 & H4 & H5 & H6 & H7).
  destruct (add_zero_side W HW) as [Z1 Z2].
  cbv zeta. unfold Dx, Dy, Add. cbn [Min Max X Y ZP]. rewrite Z1, Z2, H4, H5.
  rewrite !sub_small by lia.
  repeat split; try lia; try tauto.
Qed.

Lemma fullHeightBand_shape (W H m : Z) (ar : float64) (horAlign : HorAlignment) :
  0 <= W < 2 ^ 50 -> 0 <= H < 2 ^ 50 ->
  toInt (Float64.mul (ofInt H) ar) = m -> 0 <= m < 2 ^ 50 ->
  let r := fullHeightBand W H ar horAlign in
  Y (Min r) = 0 /\ Y (Max r) = H /\ Dy r = H /\
  X (Max r) = X (Min r) + m /\ Dx r = m /\
  Z.min 0 (W - m) <= X (Min r) <= Z.max 0 (W - m) /\
  (horAlign = Left -> X (Min r) = 0) /\ (horAlign = Right -> X (Min r) = W - m).
Proof.
  intros HW HH Em Hm. unfold fullHeightBand. rewrite Em.
  pose proof (offset_between horAlign W m Hm HW) as Hoff. cbv zeta in Hoff.
  unfold HorCenter, Right, Left.
  set (off := if horAlign =? 0 then _ else _) in *.
  destruct Hoff as (H1 & H4 & H5 & H6 & H7).
  destruct (add_zero_side H HH) as [Z1 Z2].
  cbv zeta. unfold Dx, Dy, Add. cbn [Min Max X Y ZP]. rewrite Z1, Z2, H4, H5.
  rewrite !sub_small by lia.
  repeat split; try lia; try tauto.
Qed.

Lemma gt_num (x y : Q) : Float64.gt (FNum x) (FNum y) = true <-> (y < x)%Q.
Proof.
  unfold Float64.gt. rewrite negb_true_iff. split.
  - intros E. apply Qnot_le_lt. intros Hle. apply Qle_bool_iff in Hle. congruence.
  - intros Hlt. destruct (Qle_bool x y) eqn:E; [| reflexivity].
    apply Qle_bool_iff in E. exfalso. apply (Qlt_not_le _ _ Hlt). exact E.
Qed.

Lemma gt_num_false (x y : Q) : Float64.gt (FNum x) (FNum y) = false <-> (x <= y)%Q.
Proof.
  unfold Float64.gt. rewrite negb_false_iff. apply Qle_bool_iff.
Qed.

Lemma ofInt_small (n : Z) :
  0 <= n < 2 ^ 53 -> exists q, ofInt n = FNum q /\ (q == inject_Z n)%Q.
Proof. intros Hn. eexists. split; [reflexivity | apply round_int; exact Hn]. Qed.

(** Fit-inside, request wider than the original: the band is not higher
    than the original. *)
Lemma fit_wide_height (W H : Z) (ar o : Q) :
  0 <= W < 2 ^ 50 -> 0 < H < 2 ^ 50 -> (0 < ar)%Q ->
  Float64.div (ofInt W) (ofInt H) = FNum o ->
  Float64.gt (FNum ar) (FNum o) = true ->
  0 <= toInt (Float64.div (ofInt W) (FNum ar)) <= H.
Proof.
  intros HW HH Har Eo Hgt.
  destruct (orig_ratio W H) as [o' [Eo' [Hlo _]]]; [lia | lia |].
  rewrite Eo in Eo'. injection Eo' as <-.
  apply gt_num in Hgt.
  destruct (ofInt_small W) as [W' [EW HW']]; [lia |].
  rewrite EW, div_pos by exact Har.
  destruct (fit_wide_core W H ar o (W' / ar)) as [Hx0 Hx1]; try assumption; try lia.
  { rewrite <- HW'. field. lra. }
  apply toInt_round_bounds; [exact Hx0 | exact Hx1 | unfold GoInt.maxInt; lia].
Qed.

(** Fit-inside, request not wider than the original: the band is not wider
    than the original. *)
Lemma fit_tall_width (W H : Z) (ar : Q) :
  0 <= W < 2 ^ 50 -> 0 <= H < 2 ^ 50 -> (0 < ar)%Q ->
  Float64.gt (FNum ar) (Float64.div (ofInt W) (ofInt H)) = false ->
  0 <= toInt (Float64.mul (ofInt H) (FNum ar)) <= W.
Proof.
  intros HW HH Har Hgt.
  destruct (ofInt_small H) as [H' [EH HH']]; [lia |].
  rewrite EH. unfold Float64.mul.
  destruct (Z.eq_dec H 0) as [-> | Hne].
  - apply toInt_round_bounds; [| | unfold GoInt.maxInt; lia].
    + rewrite HH'. change (inject_Z 0) with 0%Q. lra.
    + rewrite HH'. change (inject_Z 0) with 0%Q.
      pose proof (inject_Z_pos (W + 1)) as Hp. unfold u53.
      assert (0 < inject_Z (W + 1))%Q by (apply Hp; lia). lra.
  - destruct (orig_ratio W H) as [o [Eo [_ Hhi]]]; [lia | lia |].
    rewrite Eo in Hgt. apply gt_num_false in Hgt.
    destruct (fit_tall_core W H ar o (H' * ar)) as [Hx0 Hx1]; try assumption; try lia.
    { lra. }
    { rewrite HH'. reflexivity. }
    apply toInt_round_bounds; [exact Hx0 | exact Hx1 | unfold GoInt.maxInt; lia].
Qed.

Lemma in_originalBounds (v0 : ImageVersion.t) (r : Rectangle) :
  0 <= X (Min r) -> X (Max r) <= ImageVersion.Width v0 ->
  0 <= Y (Min r) -> Y (Max r) <= ImageVersion.Height v0 ->
  In r (originalBounds v0) = true.
Proof.
  intros Hx1 Hx2 Hy1 Hy2.
  unfold In. destruct (Empty r); [reflexivity |].
  unfold originalBounds. cbn [Min Max X Y ZP].
  rewrite !andb_true_iff, !Z.leb_le. lia.
Qed.

(** C1.  Fit-inside: for an original of Width x Height pixels (both below
    2^50; no decoder of the package yields 2^32 or more) and a request with
    width > 0 and height > 0, under any alignment,
    [touchOriginalFromInsideSourceRect] returns a rectangle that lies inside
    (0,0)-(Width,Height). *)
Theorem fit_inside_rect_in_bounds
    (self : Image.t) (v0 : ImageVersion.t) (rest : list ImageVersion.t)
    (width height : Z) (horAlign : HorAlignment) (verAlign : VerAlignment) :
  Versions self = v0 :: rest ->
  0 <= ImageVersion.Width v0 < 2 ^ 50 ->
  0 <= ImageVersion.Height v0 < 2 ^ 50 ->
  0 < width -> 0 < height ->
  exists r,
    Image.touchOriginalFromInsideSourceRect self width height horAlign verAlign = Ok r /\
    In r (originalBounds v0) = true /\
    0 <= X (Min r) <= X (Max r) /\ X (Max r) <= ImageVersion.Width v0 /\
    0 <= Y (Min r) <= Y (Max r) /\ Y (Max r) <= ImageVersion.Height v0.
Proof.
  intros Hv HW HH Hw Hh.
  rewrite (inside_bands self v0 rest _ _ _ _ Hv). cbv zeta.
  destruct (request_ratio width height Hw Hh) as [ar [Ear Har]].
  rewrite Ear. unfold ImageVersion.AspectRatio.
  set (W := ImageVersion.Width v0) in *.
  set (H := ImageVersion.Height v0) in *.
  destruct (Float64.gt (FNum ar) (Float64.div (ofInt W) (ofInt H))) eqn:Hgt.
  - (* request wider than the original *)
    assert (HHpos : 0 < H).
    { destruct (Z.eq_dec H 0) as [E0 | N0]; [| lia].
      rewrite E0, orig_ratio_zero_height in Hgt by lia. discriminate. }
    destruct (orig_ratio W H) as [o [Eo _]]; [lia | lia |].
    rewrite Eo in Hgt.
    pose proof (fit_wide_height W H ar o HW (conj HHpos (proj2 HH)) Har Eo Hgt) as Hm.
    assert (Hm' : 0 <= toInt (Float64.div (ofInt W) (FNum ar)) < 2 ^ 50) by lia.
    pose proof (fullWidthBand_shape W H _ (FNum ar) verAlign HW HH eq_refl Hm') as Hb.
    cbv zeta in Hb. destruct Hb as (B1 & B2 & _ & B3 & _ & B4 & _).
    eexists. split; [reflexivity |].
    split; [apply in_originalBounds; fold W H; lia | lia].
  - (* request not wider than the original *)
    pose proof (fit_tall_width W H ar HW HH Har Hgt) as Hm.
    assert (Hm' : 0 <= toInt (Float64.mul (ofInt H) (FNum ar)) < 2 ^ 50) by lia.
    pose proof (fullHeightBand_shape W H _ (FNum ar) horAlign HW HH eq_refl Hm') as Hb.
    cbv zeta in Hb. destruct Hb as (B1 & B2 & _ & B3 & _ & B4 & _).
    eexists. split; [reflexivity |].
    split; [apply in_originalBounds; fold W H; lia | lia].
Qed.

Section Covering.
Local Open Scope Q_scope.

Lemma toInt_floor (q : Q) :
  0 <= q -> q < inject_Z (2 ^ 62) -> toInt (FNum q) = Qfloor q.
Proof.
  intros H0 Hb.
  destruct (trunc_nonneg_bounds q (2 ^ 62 - 1) H0) as [T0 T1].
  { replace (2 ^ 62 - 1 + 1)%Z with (2 ^ 62)%Z by lia. exact Hb. }
  assert (Et : trunc q = Qfloor q).
  { unfold trunc. assert (E : Qle_bool 0 q = true) by (apply Qle_bool_iff; exact H0).
    rewrite E. reflexivity. }
  unfold toInt. rewrite Et in *.
  assert (E1 : (GoInt.minInt <=? Qfloor q)%Z = true)
    by (apply Z.leb_le; unfold GoInt.minInt; lia).
  assert (E2 : (Qfloor q <=? GoInt.maxInt)%Z = true)
    by (apply Z.leb_le; unfold GoInt.maxInt; lia).
  rewrite E1, E2. reflexivity.
Qed.

(** A number whose k-fold lies within one of the integer P truncates to the
    quotient P / k, or to one less when k divides P. *)
Lemma floor_scaled (r : Q) (k P : Z) :
  (0 < k)%Z ->
  inject_Z P - 1 < r * inject_Z k -> r * inject_Z k < inject_Z P + 1 ->
  (Qfloor r * k <= P <= (Qfloor r + 1) * k)%Z.
Proof.
  intros Hk Hlo Hhi.
  pose proof (inject_Z_pos k Hk) as Hkq.
  pose proof (Qfloor_le r) as Hf.
  pose proof (Qlt_floor r) as Hc.
  split.
  - apply Z.lt_succ_r. rewrite Zlt_Qlt.
    unfold Z.succ. rewrite inject_Z_plus, inject_Z_mult. change (inject_Z 1) with 1.
    apply Qle_lt_trans with (r * inject_Z k); [| exact Hhi].
    apply Qmult_le_compat_r; lra.
  - apply Z.lt_pred_le. rewrite Zlt_Qlt.
    unfold Z.pred. rewrite inject_Z_plus, inject_Z_mult. change (inject_Z (-1)) with (-1).
    apply Qlt_trans with (r * inject_Z k); [lra |].
    apply (proj2 (Qmult_lt_r _ _ (inject_Z k) Hkq)). exact Hc.
Qed.

(** The full-height block: the width is H * w / h cut to whole pixels. *)
Lemma mul_trunc_bounds (H w h : Z) (ar : Q) :
  (0 < H)%Z -> (0 < w)%Z -> (0 < h)%Z -> (H * w < 2 ^ 50)%Z ->
  inject_Z w * (1 - u53) <= ar * inject_Z h <= inject_Z w * (1 + u53) ->
  let m := toInt (Float64.mul (ofInt H) (FNum ar)) in
  (0 <= m < 2 ^ 50 /\ m * h <= H * w <= (m + 1) * h)%Z.
Proof.
  intros HH Hw Hh Hb [Hlo Hhi] m.
  assert (HHb : (0 <= H < 2 ^ 53)%Z) by nia.
  destruct (ofInt_small H HHb) as [H' [EH HH']].
  pose proof (inject_Z_pos H HH) as HHq.
  pose proof (inject_Z_pos w Hw) as Hwq.
  pose proof (inject_Z_pos h Hh) as Hhq.
  assert (HP : inject_Z (H * w) < 1125899906842624).
  { change 1125899906842624 with (inject_Z (2 ^ 50)). rewrite <- Zlt_Qlt. exact Hb. }
  assert (HP0 : 0 < inject_Z (H * w)) by (apply inject_Z_pos; nia).
  rewrite inject_Z_mult in HP, HP0.
  assert (Har : 0 < ar).
  { destruct (Qlt_le_dec 0 ar) as [Hp | Hn]; [exact Hp |].
    exfalso. unfold u53 in Hlo.
    assert (ar * inject_Z h <= 0) by nra. nra. }
  set (x := H' * ar).
  assert (Hx0 : 0 <= x) by (unfold x; rewrite HH'; nra).
  assert (Hxlo : inject_Z H * inject_Z w * (1 - u53) <= x * inject_Z h).
  { unfold x. rewrite HH'.
    setoid_replace (inject_Z H * ar * inject_Z h) with (inject_Z H * (ar * inject_Z h)) by ring.
    setoid_replace (inject_Z H * inject_Z w * (1 - u53))
      with (inject_Z H * (inject_Z w * (1 - u53))) by ring.
    apply (proj2 (Qmult_le_l _ _ (inject_Z H) HHq)). exact Hlo. }
  assert (Hxhi : x * inject_Z h <= inject_Z H * inject_Z w * (1 + u53)).
  { unfold x. rewrite HH'.
    setoid_replace (inject_Z H * ar * inject_Z h) with (inject_Z H * (ar * inject_Z h)) by ring.
    setoid_replace (inject_Z H * inject_Z w * (1 + u53))
      with (inject_Z H * (inject_Z w * (1 + u53))) by ring.
    apply (proj2 (Qmult_le_l _ _ (inject_Z H) HHq)). exact Hhi. }
  pose proof (round_near x Hx0) as [Rlo Rhi].
  set (r := round x) in *.
  assert (Rlo' : x * inject_Z h * (1 - u53) <= r * inject_Z h).
  { setoid_replace (x * inject_Z h * (1 - u53)) with (x * (1 - u53) * inject_Z h) by ring.
    apply Qmult_le_compat_r; lra. }
  assert (Rhi' : r * inject_Z h <= x * inject_Z h * (1 + u53)).
  { setoid_replace (x * inject_Z h * (1 + u53)) with (x * (1 + u53) * inject_Z h) by ring.
    apply Qmult_le_compat_r; lra. }
  set (P := inject_Z H * inject_Z w) in *.
  set (xh := x * inject_Z h) in *.
  set (rh := r * inject_Z h) in *.
  unfold u53 in *.
  assert (Hr0 : 0 <= r) by lra.
  assert (B1 : inject_Z (H * w) - 1 < rh) by (rewrite inject_Z_mult; fold P; lra).
  assert (B2 : rh < inject_Z (H * w) + 1) by (rewrite inject_Z_mult; fold P; lra).
  pose proof (floor_scaled r h (H * w) Hh B1 B2) as [F1 F2].
  assert (Hrb : r < inject_Z (2 ^ 62)).
  { apply Qle_lt_trans with rh.
    - unfold rh. assert (1 <= inject_Z h).
      { change 1 with (inject_Z 1). rewrite <- Zle_Qle. lia. }
      nra.
    - apply Qlt_trans with (1125899906842624 + 1); [fold P in HP; rewrite inject_Z_mult in B2; fold P in B2; lra |].
      reflexivity. }
  assert (Em : m = Qfloor r).
  { unfold m. rewrite EH. unfold Float64.mul. fold x. fold r. apply toInt_floor; assumption. }
  rewrite Em.
  assert (Hf0 : (0 <= Qfloor r)%Z).
  { rewrite <- (Qfloor_Z 0). apply Qfloor_resp_le. exact Hr0. }
  split; [| split; assumption].
  split; [exact Hf0 | nia].
Qed.

(** The full-width block: the height is W * h / w cut to whole pixels. *)
Lemma div_trunc_bounds (W w h : Z) (ar : Q) :
  (0 < W)%Z -> (0 < w)%Z -> (0 < h)%Z -> (W * h < 2 ^ 50)%Z ->
  inject_Z w * (1 - u53) <= ar * inject_Z h <= inject_Z w * (1 + u53) ->
  let m := toInt (Float64.div (ofInt W) (FNum ar)) in
  (0 <= m < 2 ^ 50 /\ m * w <= W * h <= (m + 1) * w)%Z.
Proof.
  intros HW Hw Hh Hb [Hlo Hhi] m.
  assert (HWb : (0 <= W < 2 ^ 53)%Z) by nia.
  destruct (ofInt_small W HWb) as [W' [EW HW']].
  pose proof (inject_Z_pos W HW) as HWq.
  pose proof (inject_Z_pos w Hw) as Hwq.
  pose proof (inject_Z_pos h Hh) as Hhq.
  assert (HP : inject_Z (W * h) < 1125899906842624).
  { change 1125899906842624 with (inject_Z (2 ^ 50)). rewrite <- Zlt_Qlt. exact Hb. }
  rewrite inject_Z_mult in HP.
  assert (Har : 0 < ar).
  { destruct (Qlt_le_dec 0 ar) as [Hp | Hn]; [exact Hp |].
    exfalso. unfold u53 in Hlo.
    assert (ar * inject_Z h <= 0) by nra. nra. }
  set (x := W' / ar).
  assert (Hxa : x * ar == inject_Z W) by (unfold x; rewrite HW'; field; lra).
  assert (Hx0 : 0 <= x) by (unfold x; rewrite HW'; apply Qle_shift_div_l; lra).
  assert (Hxlo : x * inject_Z w * (1 - u53) <= inject_Z W * inject_Z h).
  { rewrite <- Hxa.
    setoid_replace (x * inject_Z w * (1 - u53)) with (x * (inject_Z w * (1 - u53))) by ring.
    setoid_replace (x * ar * inject_Z h) with (x * (ar * inject_Z h)) by ring.
    rewrite !(Qmult_comm x). apply Qmult_le_compat_r; assumption. }
  assert (Hxhi : inject_Z W * inject_Z h <= x * inject_Z w * (1 + u53)).
  { rewrite <- Hxa.
    setoid_replace (x * inject_Z w * (1 + u53)) with (x * (inject_Z w * (1 + u53))) by ring.
    setoid_replace (x * ar * inject_Z h) with (x * (ar * inject_Z h)) by ring.
    rewrite !(Qmult_comm x). apply Qmult_le_compat_r; assumption. }
  pose proof (round_near x Hx0) as [Rlo Rhi].
  set (r := round x) in *.
  assert (Rlo' : x * inject_Z w * (1 - u53) <= r * inject_Z w).
  { setoid_replace (x * inject_Z w * (1 - u53)) with (x * (1 - u53) * inject_Z w) by ring.
    apply Qmult_le_compat_r; lra. }
  assert (Rhi' : r * inject_Z w <= x * inject_Z w * (1 + u53)).
  { setoid_replace (x * inject_Z w * (1 + u53)) with (x * (1 + u53) * inject_Z w) by ring.
    apply Qmult_le_compat_r; lra. }
  set (P := inject_Z W * inject_Z h) in *.
  assert (Hxw0 : 0 <= x * inject_Z w) by (apply Qmult_le_0_compat; lra).
  set (xw := x * inject_Z w) in *.
  set (rw := r * inject_Z w) in *.
  unfold u53 in *.
  assert (Hr0 : 0 <= r) by lra.
  assert (B1 : inject_Z (W * h) - 1 < rw) by (rewrite inject_Z_mult; fold P; lra).
  assert (B2 : rw < inject_Z (W * h) + 1) by (rewrite inject_Z_mult; fold P; lra).
  pose proof (floor_scaled r w (W * h) Hw B1 B2) as [F1 F2].
  assert (Hrb : r < inject_Z (2 ^ 62)).
  { apply Qle_lt_trans with rw.
    - unfold rw. assert (1 <= inject_Z w).
      { change 1 with (inject_Z 1). rewrite <- Zle_Qle. lia. }
      nra.
    - apply Qlt_trans with (1125899906842624 + 1);
        [rewrite inject_Z_mult in B2; fold P in B2; lra |].
      reflexivity. }
  assert (Em : m = Qfloor r).
  { unfold m. rewrite EW, div_pos by exact Har. fold x. fold r.
    apply toInt_floor; assumption. }
  rewrite Em.
  assert (Hf0 : (0 <= Qfloor r)%Z).
  { rewrite <- (Qfloor_Z 0). apply Qfloor_resp_le. exact Hr0. }
  split; [| split; assumption].
  split; [exact Hf0 | nia].
Qed.

(** Below 2^50 the comparison of the two rounded ratios never contradicts
    the comparison of the exact ones. *)
Lemma ratio_order (W H w h : Z) (ar o : Q) :
  (0 < W)%Z -> (0 < H)%Z -> (0 < w)%Z -> (0 < h)%Z ->
  (W * h < 2 ^ 50)%Z -> (H * w < 2 ^ 50)%Z ->
  inject_Z w * (1 - u53) <= ar * inject_Z h <= inject_Z w * (1 + u53) ->
  inject_Z W * (1 - u53) <= o * inject_Z H <= inject_Z W * (1 + u53) ->
  (o < ar -> (W * h <= w * H)%Z) /\ (ar <= o -> (w * H <= W * h)%Z).
Proof.
  intros HW HH Hw Hh Hb1 Hb2 [Alo Ahi] [Olo Ohi].
  pose proof (inject_Z_pos H HH) as HHq.
  pose proof (inject_Z_pos h Hh) as Hhq.
  assert (HP1 : inject_Z (W * h) < 1125899906842624).
  { change 1125899906842624 with (inject_Z (2 ^ 50)). rewrite <- Zlt_Qlt. exact Hb1. }
  assert (HP2 : inject_Z (H * w) < 1125899906842624).
  { change 1125899906842624 with (inject_Z (2 ^ 50)). rewrite <- Zlt_Qlt. exact Hb2. }
  assert (HP10 : 0 < inject_Z (W * h)) by (apply inject_Z_pos; nia).
  assert (HP20 : 0 < inject_Z (H * w)) by (apply inject_Z_pos; nia).
  (* scale both ratios to the common denominator h * H *)
  assert (A1 : inject_Z (H * w) * (1 - u53) <= ar * (inject_Z h * inject_Z H)).
  { rewrite inject_Z_mult.
    setoid_replace (inject_Z H * inject_Z w * (1 - u53))
      with (inject_Z w * (1 - u53) * inject_Z H) by ring.
    setoid_replace (ar * (inject_Z h * inject_Z H)) with (ar * inject_Z h * inject_Z H) by ring.
    apply Qmult_le_compat_r; lra. }
  assert (A2 : ar * (inject_Z h * inject_Z H) <= inject_Z (H * w) * (1 + u53)).
  { rewrite inject_Z_mult.
    setoid_replace (inject_Z H * inject_Z w * (1 + u53))
      with (inject_Z w * (1 + u53) * inject_Z H) by ring.
    setoid_replace (ar * (inject_Z h * inject_Z H)) with (ar * inject_Z h * inject_Z H) by ring.
    apply Qmult_le_compat_r; lra. }
  assert (O1 : inject_Z (W * h) * (1 - u53) <= o * (inject_Z h * inject_Z H)).
  { rewrite inject_Z_mult.
    setoid_replace (inject_Z W * inject_Z h * (1 - u53))
      with (inject_Z W * (1 - u53) * inject_Z h) by ring.
    setoid_replace (o * (inject_Z h * inject_Z H)) with (o * inject_Z H * inject_Z h) by ring.
    apply Qmult_le_compat_r; lra. }
  assert (O2 : o * (inject_Z h * inject_Z H) <= inject_Z (W * h) * (1 + u53)).
  { rewrite inject_Z_mult.
    setoid_replace (inject_Z W * inject_Z h * (1 + u53))
      with (inject_Z W * (1 + u53) * inject_Z h) by ring.
    setoid_replace (o * (inject_Z h * inject_Z H)) with (o * inject_Z H * inject_Z h) by ring.
    apply Qmult_le_compat_r; lra. }
  assert (Hk : 0 < inject_Z h * inject_Z H) by nra.
  set (k := inject_Z h * inject_Z H) in *.
  set (P1 := inject_Z (W * h)) in *.
  set (P2 := inject_Z (H * w)) in *.
  unfold u53 in *.
  split.
  - intros Hlt.
    assert (Hs : o * k < ar * k) by (apply (proj2 (Qmult_lt_r _ _ k Hk)); exact Hlt).
    assert (Hq : P1 - 1 < P2) by lra.
    apply Z.lt_pred_le. rewrite Zlt_Qlt.
    unfold Z.pred. rewrite inject_Z_plus. change (inject_Z (-1)) with (-1).
    replace (w * H)%Z with (H * w)%Z by lia. fold P1 P2. lra.
  - intros Hle.
    assert (Hs : ar * k <= o * k) by (apply Qmult_le_compat_r; lra).
    assert (Hq : P2 - 1 < P1) by lra.
    apply Z.lt_pred_le. rewrite Zlt_Qlt.
    unfold Z.pred. rewrite inject_Z_plus. change (inject_Z (-1)) with (-1).
    replace (w * H)%Z with (H * w)%Z by lia. fold P1 P2. lra.
Qed.

End Covering.

Local Open Scope Z_scope.

(** C9.  Alignment symmetry: when the requested aspect ratio is not greater
    than the original's, the fit-inside rectangles for [Left] and [Right]
    have the same width and the same height, and their horizontal offsets
    add up to the original's width minus the width of the rectangle. *)
Theorem fit_inside_left_right_symmetric
    (self : Image.t) (v0 : ImageVersion.t) (rest : list ImageVersion.t)
    (width height : Z) (verAlign : VerAlignment) :
  Versions self = v0 :: rest ->
  0 <= ImageVersion.Width v0 < 2 ^ 50 ->
  0 <= ImageVersion.Height v0 < 2 ^ 50 ->
  0 < width -> 0 < height ->
  Float64.gt (Float64.div (ofInt width) (ofInt height)) (ImageVersion.AspectRatio v0) = false ->
  exists rl rr,
    Image.touchOriginalFromInsideSourceRect self width height Left verAlign = Ok rl /\
    Image.touchOriginalFromInsideSourceRect self width height Right verAlign = Ok rr /\
    Dx rl = Dx rr /\ Dy rl = Dy rr /\
    X (Min rl) + X (Min rr) = ImageVersion.Width v0 - Dx rl.
Proof.
  intros Hv HW HH Hw Hh Hgt.
  rewrite !(inside_bands self v0 rest _ _ _ _ Hv). cbv zeta.
  rewrite Hgt.
  destruct (request_ratio width height Hw Hh) as [ar [Ear Har]].
  rewrite Ear in *. unfold ImageVersion.AspectRatio in Hgt.
  set (W := ImageVersion.Width v0) in *.
  set (H := ImageVersion.Height v0) in *.
  pose proof (fit_tall_width W H ar HW HH Har Hgt) as Hm.
  assert (Hm' : 0 <= toInt (Float64.mul (ofInt H) (FNum ar)) < 2 ^ 50) by lia.
  pose proof (fullHeightBand_shape W H _ (FNum ar) Left HW HH eq_refl Hm') as Hl.
  pose proof (fullHeightBand_shape W H _ (FNum ar) Right HW HH eq_refl Hm') as Hr.
  cbv zeta in Hl, Hr.
  destruct Hl as (_ & _ & L1 & _ & L2 & _ & L3 & _).
  destruct Hr as (_ & _ & R1 & _ & R2 & _ & _ & R3).
  eexists. eexists. split; [reflexivity |]. split; [reflexivity |].
  rewrite L1, R1, L2, R2, (L3 eq_refl), (R3 eq_refl).
  repeat split; lia.
Qed.

(** C2, as amended.  Cover-from-outside: the rectangle keeps one side of the
    original and has the other one cut to whole pixels, so that its ratio
    meets the requested one up to one pixel: either it is Height high and
    its width X has X * height <= Height * width <= (X + 1) * height, or it
    is Width wide and its height Y has Y * width <= Width * height <=
    (Y + 1) * width.  When the requested ratio differs from the original's,
    the rectangle contains (0,0)-(Width,Height).  Stated for products
    Width * height and Height * width below 2^50, where binary64 still
    separates neighbouring ratios. *)
Theorem cover_outside_rect_shape
    (self : Image.t) (v0 : ImageVersion.t) (rest : list ImageVersion.t)
    (width height : Z) (horAlign : HorAlignment) (verAlign : VerAlignment) :
  Versions self = v0 :: rest ->
  0 < ImageVersion.Width v0 -> 0 < ImageVersion.Height v0 ->
  0 < width -> 0 < height ->
  ImageVersion.Width v0 * height < 2 ^ 50 ->
  ImageVersion.Height v0 * width < 2 ^ 50 ->
  exists r,
    Image.touchOriginalFromOutsideSourceRect self width height horAlign verAlign = Ok r /\
    ((Dy r = ImageVersion.Height v0 /\ Y (Min r) = 0 /\
      Dx r * height <= ImageVersion.Height v0 * width <= (Dx r + 1) * height)
     \/
     (Dx r = ImageVersion.Width v0 /\ X (Min r) = 0 /\
      Dy r * width <= ImageVersion.Width v0 * height <= (Dy r + 1) * width)) /\
    (width * ImageVersion.Height v0 <> ImageVersion.Width v0 * height ->
     In (originalBounds v0) r = true /\
     X (Min r) <= 0 /\ ImageVersion.Width v0 <= X (Max r) /\
     Y (Min r) <= 0 /\ ImageVersion.Height v0 <= Y (Max r)).
Proof.
  intros Hv HW HH Hw Hh Hb1 Hb2.
  rewrite (outside_bands self v0 rest _ _ _ _ Hv). cbv zeta.
  unfold ImageVersion.AspectRatio.
  set (W := ImageVersion.Width v0) in *.
  set (H := ImageVersion.Height v0) in *.
  assert (HWb : 0 <= W < 2 ^ 50) by nia.
  assert (HHb : 0 <= H < 2 ^ 50) by nia.
  destruct (orig_ratio width height) as [ar [Ear Abnd]]; [nia | nia |].
  destruct (orig_ratio W H) as [o [Eo Obnd]]; [lia | lia |].
  rewrite Ear, Eo.
  pose proof (ratio_order W H width height ar o HW HH Hw Hh Hb1 Hb2 Abnd Obnd) as [Ord1 Ord2].
  assert (Hcontains : forall r : Rectangle,
    X (Min r) <= 0 -> W <= X (Max r) -> Y (Min r) <= 0 -> H <= Y (Max r) ->
    In (originalBounds v0) r = true /\
    X (Min r) <= 0 /\ W <= X (Max r) /\ Y (Min r) <= 0 /\ H <= Y (Max r)).
  { intros r C1 C2 C3 C4. split; [| tauto].
    unfold In. destruct (Empty (originalBounds v0)); [reflexivity |].
    unfold originalBounds. cbn [Min Max X Y ZP]. fold W H.
    rewrite !andb_true_iff, !Z.leb_le. lia. }
  destruct (Float64.gt (FNum ar) (FNum o)) eqn:Hgt.
  - (* request wider than the original: full height, computed width *)
    apply gt_num in Hgt. specialize (Ord1 Hgt).
    pose proof (mul_trunc_bounds H width height ar HH Hw Hh Hb2 Abnd) as Hm.
    cbv zeta in Hm. destruct Hm as [Hm Hfl].
    pose proof (fullHeightBand_shape W H _ (FNum ar) horAlign HWb HHb eq_refl Hm) as Hs.
    cbv zeta in Hs. destruct Hs as (S1 & S2 & S3 & S4 & S5 & S6 & _).
    eexists. split; [reflexivity |]. split.
    + left. rewrite S3, S5. tauto.
    + intros Hne. apply Hcontains; try lia.
      * assert (W <= toInt (Float64.mul (ofInt H) (FNum ar))) by nia. lia.
      * assert (W <= toInt (Float64.mul (ofInt H) (FNum ar))) by nia. lia.
  - (* request not wider than the original: full width, computed height *)
    apply gt_num_false in Hgt. specialize (Ord2 Hgt).
    pose proof (div_trunc_bounds W width height ar HW Hw Hh Hb1 Abnd) as Hm.
    cbv zeta in Hm. destruct Hm as [Hm Hfl].
    pose proof (fullWidthBand_shape W H _ (FNum ar) verAlign HWb HHb eq_refl Hm) as Hs.
    cbv zeta in Hs. destruct Hs as (S1 & S2 & S3 & S4 & S5 & S6 & _).
    eexists. split; [reflexivity |]. split.
    + right. rewrite S3, S5. tauto.
    + intros Hne. apply Hcontains; try lia.
      * assert (H <= toInt (Float64.div (ofInt W) (FNum ar))) by nia. lia.
      * assert (H <= toInt (Float64.div (ofInt W) (FNum ar))) by nia. lia.
Qed.

Section Cache.

Lemma Point_eqb_eq (p q : Point) : Point_eqb p q = true <-> p = q.
Proof.
  destruct p as [px py], q as [qx qy]. unfold Point_eqb. cbn [X Y].
  rewrite andb_true_iff, !Z.eqb_eq. split.
  - intros [-> ->]. reflexivity.
  - intros E. injection E as -> ->. split; reflexivity.
Qed.

Lemma Rectangle_eqb_eq (r s : Rectangle) : Rectangle_eqb r s = true <-> r = s.
Proof.
  destruct r as [rmin rmax], s as [smin smax]. unfold Rectangle_eqb. cbn [Min Max].
  rewrite andb_true_iff, !Point_eqb_eq. split.
  - intros [-> ->]. reflexivity.
  - intros E. injection E as -> ->. split; reflexivity.
Qed.

Lemma color_eqb_eq (c d : color.Color) : color.eqb c d = true <-> c = d.
Proof.
  destruct c as [r1 g1 b1 a1], d as [r2 g2 b2 a2]. unfold color.eqb.
  cbn [color.R color.G color.B color.A].
  rewrite !andb_true_iff, !Z.eqb_eq. split.
  - intros [[[-> ->] ->] ->]. reflexivity.
  - intros E. injection E as -> -> -> ->. repeat split; reflexivity.
Qed.

(** The test of the loop is exact equality of the five key fields. *)
Lemma matches_keyEq (v : ImageVersion.t) (r : Rectangle) (width height : Z)
    (g : bool) (c : color.Color) :
  Image.matches v r width height g c = true <-> keyEq v r width height g c.
Proof.
  unfold Image.matches, keyEq, ImageVersion.EqualsColor.
  rewrite !andb_true_iff, Rectangle_eqb_eq, !Z.eqb_eq, color_eqb_eq, Bool.eqb_true_iff.
  tauto.
Qed.

Lemma matches_false_keyEq (v : ImageVersion.t) (r : Rectangle) (width height : Z)
    (g : bool) (c : color.Color) :
  Image.matches v r width height g c = false <-> ~ keyEq v r width height g c.
Proof.
  rewrite <- matches_keyEq. destruct (Image.matches v r width height g c); split;
    intros H; congruence.
Qed.

(** The loop stops at the first version that passes the test. *)
Lemma search_first (vs : list ImageVersion.t) (r : Rectangle) (width height : Z)
    (g : bool) (c : color.Color) :
  forall (start i : nat),
    Image.search vs start r width height g c = Some i <->
    exists k, i = (start + k)%nat /\ firstMatch vs k r width height g c.
Proof.
  induction vs as [| v vs IH]; intros start i; cbn [Image.search].
  - split; [discriminate |].
    intros [k [_ [[u [Hn _]] _]]]. destruct k; discriminate.
  - destruct (Image.matches v r width height g c) eqn:Em.
    + split.
      * intros E. injection E as <-. exists 0%nat. split; [lia |].
        split; [exists v; split; [reflexivity | apply matches_keyEq; exact Em] |].
        intros j u Hj. lia.
      * intros [k [-> [_ Hmin]]]. destruct k as [| k]; [f_equal; lia |].
        exfalso. apply (Hmin 0%nat v); [lia | reflexivity | apply matches_keyEq; exact Em].
    + rewrite IH. split.
      * intros [k [-> [[u [Hn Hk]] Hmin]]]. exists (S k). split; [lia |].
        split; [exists u; split; assumption |].
        intros j u' Hj Hu'. destruct j as [| j].
        -- cbn in Hu'. injection Hu' as <-. apply matches_false_keyEq. exact Em.
        -- apply (Hmin j u'); [lia | exact Hu'].
      * intros [k [-> [[u [Hn Hk]] Hmin]]]. destruct k as [| k].
        -- cbn in Hn. injection Hn as <-. apply matches_keyEq in Hk. congruence.
        -- exists k. split; [lia |].
           split; [exists u; split; assumption |].
           intros j u' Hj Hu'. apply (Hmin (S j) u'); [lia | exact Hu'].
Qed.

Lemma search_none (vs : list ImageVersion.t) (r : Rectangle) (width height : Z)
    (g : bool) (c : color.Color) (start : nat) :
  Image.search vs start r width height g c = None <->
  forall v, List.In v vs -> ~ keyEq v r width height g c.
Proof.
  revert start. induction vs as [| v vs IH]; intros start; cbn [Image.search].
  - split; [intros _ v [] | reflexivity].
  - destruct (Image.matches v r width height g c) eqn:Em.
    + split; [discriminate |]. intros Hall. exfalso.
      apply (Hall v); [left; reflexivity | apply matches_keyEq; exact Em].
    + rewrite IH. split.
      * intros Hall u [<- | Hin]; [apply matches_false_keyEq; exact Em | apply Hall; exact Hin].
      * intros Hall u Hin. apply Hall. right. exact Hin.
Qed.

Lemma search_lt (vs : list ImageVersion.t) (r : Rectangle) (width height : Z)
    (g : bool) (c : color.Color) (i : nat) :
  Image.search vs 0 r width height g c = Some i -> (i < List.length vs)%nat.
Proof.
  intros E. apply search_first in E. destruct E as [k [-> [[u [Hn _]] _]]].
  apply nth_error_Some. cbn. congruence.
Qed.

(** What a call computes, once the original is known: a hit hands back the
    index found and leaves the world alone, a miss runs the three backend
    operations in order, unless the canvas it needs does not come into
    being. *)
Lemma SourceRectVersion_unfold (env : Env) (w : Image.World) (v0 : ImageVersion.t)
    (rest : list ImageVersion.t) (r : Rectangle) (width height : Z) (grayscale : bool)
    (c : color.Color) :
  Versions (Image.img w) = v0 :: rest ->
  let g := effectiveGrayscale v0 grayscale in
  Image.SourceRectVersion env w r width height grayscale c =
  match Image.search (Versions (Image.img w)) 0 r width height g c with
  | Some i => Ok (Image.RetVersion i, w)
  | None =>
      let tr := Image.trace w ++ [EvLoadImage v0] in
      match LoadImage env (Image.trace w) v0 with
      | inr err => Ok (Image.RetError err, {| Image.img := Image.img w; Image.trace := tr |})
      | inl origImage =>
          if pixelsProduced env v0 r width height g then
            let version := newVersionOf v0 r width height g in
            let px := versionImageOf env origImage v0 r width height g c in
            let self :=
              Image.setVersions (Image.img w) (Versions (Image.img w) ++ [version]) in
            let tr1 := tr ++ [EvSaveImage version px] in
            match SaveImage env tr version px with
            | Some err => Ok (Image.RetError err, {| Image.img := self; Image.trace := tr1 |})
            | None =>
                let tr2 := tr1 ++ [EvBackendSaveImage self] in
                match BackendSaveImage env tr1 self with
                | Some err =>
                    Ok (Image.RetError err, {| Image.img := self; Image.trace := tr2 |})
                | None => Ok (Image.RetVersion (List.length (Versions (Image.img w))),
                              {| Image.img := self; Image.trace := tr2 |})
                end
            end
          else Panic
      end
  end.
Proof.
  intros Hv g.
  pose proof (original_cons _ _ _ Hv) as Ho.
  unfold Image.SourceRectVersion, Image.Grayscale, Image.Rectangle, Image.Filename,
    Image.ContentType.
  rewrite Ho. cbn [bind]. cbv zeta. fold (effectiveGrayscale v0 grayscale). fold g.
  destruct (Image.search _ _ _ _ _ _ _); [reflexivity |].
  destruct (LoadImage env _ _); [| reflexivity].
  unfold pixelsProduced, canvasAllocates, versionImageOf, filledCanvas, newVersionOf.
  cbn [Versions Image.setVersions].
  rewrite length_app. cbn [List.length].
  replace (List.length (Versions (Image.img w)) + 1 - 1)%nat
    with (List.length (Versions (Image.img w))) by lia.
  destruct (In r (ImageVersion.SourceRect v0)); [reflexivity |].
  cbn [orb bind].
  destruct g; unfold NewGray, NewRGBA;
    (destruct (pixelBufferLength _ _) as [n |]; [| reflexivity]);
    cbn [bind]; destruct (MakeBytes env n); reflexivity.
Qed.

(** On a miss the call asks the backend for the original first; whatever
    it returns afterwards, that load opens what it added to the trace. *)
Lemma SourceRectVersion_miss_trace (env : Env) (w : Image.World) (v0 : ImageVersion.t)
    (rest : list ImageVersion.t) (r : Rectangle) (width height : Z) (grayscale : bool)
    (c : color.Color) :
  Versions (Image.img w) = v0 :: rest ->
  Image.search (Versions (Image.img w)) 0 r width height
    (effectiveGrayscale v0 grayscale) c = None ->
  forall ret w',
    Image.SourceRectVersion env w r width height grayscale c = Ok (ret, w') ->
    exists tail, Image.trace w' = Image.trace w ++ EvLoadImage v0 :: tail.
Proof.
  intros Hv Hnone ret w' E.
  rewrite (SourceRectVersion_unfold env w v0 rest _ _ _ _ _ Hv) in E. cbv zeta in E.
  rewrite Hnone in E.
  destruct (LoadImage env _ _) as [orig | err].
  - destruct (pixelsProduced env v0 r width height _); [| discriminate E].
    destruct (SaveImage env _ _ _) as [err |].
    + injection E as _ <-. cbn [Image.trace]. eexists.
      rewrite <- app_assoc. reflexivity.
    + destruct (BackendSaveImage env _ _) as [err |];
        (injection E as _ <-; cbn [Image.trace]; eexists;
         rewrite <- !app_assoc; reflexivity).
  - injection E as _ <-. cbn [Image.trace]. eexists. reflexivity.
Qed.

(** On a miss the call returns as soon as the load fails or the pixels of
    the new version are produced. *)
Lemma SourceRectVersion_miss_returns (env : Env) (w : Image.World) (v0 : ImageVersion.t)
    (rest : list ImageVersion.t) (r : Rectangle) (width height : Z) (grayscale : bool)
    (c : color.Color) :
  Versions (Image.img w) = v0 :: rest ->
  Image.search (Versions (Image.img w)) 0 r width height
    (effectiveGrayscale v0 grayscale) c = None ->
  (exists err, LoadImage env (Image.trace w) v0 = inr err) \/
  pixelsProduced env v0 r width height (effectiveGrayscale v0 grayscale) = true ->
  exists ret w',
    Image.SourceRectVersion env w r width height grayscale c = Ok (ret, w').
Proof.
  intros Hv Hnone Hgo.
  rewrite (SourceRectVersion_unfold env w v0 rest _ _ _ _ _ Hv). cbv zeta.
  rewrite Hnone.
  destruct (LoadImage env _ _) as [orig | err]; [| eexists _, _; reflexivity].
  destruct Hgo as [[err Herr] | Hpx]; [discriminate Herr |].
  rewrite Hpx.
  destruct (SaveImage env _ _ _) as [err |]; [eexists _, _; reflexivity |].
  destruct (BackendSaveImage env _ _) as [err |]; eexists _, _; reflexivity.
Qed.

Lemma firstMatch_In (vs : list ImageVersion.t) (r : Rectangle) (width height : Z)
    (g : bool) (c : color.Color) :
  (exists v, List.In v vs /\ keyEq v r width height g c) ->
  exists i, Image.search vs 0 r width height g c = Some i.
Proof.
  intros [v [Hin Hk]].
  destruct (Image.search vs 0 r width height g c) as [i |] eqn:E; [exists i; reflexivity |].
  exfalso. rewrite search_none in E. exact (E v Hin Hk).
Qed.

(** C10.  A call that finds a version with the requested key hands back a
    pointer to a stored version with that key and a nil error, and leaves
    the world as it was: the same image with the same versions, and a trace
    without any new backend operation. *)
Theorem cache_hit_changes_nothing
    (env : Env) (w : Image.World) (v0 : ImageVersion.t) (rest : list ImageVersion.t)
    (sourceRect : Rectangle) (width height : Z) (grayscale : bool)
    (outsideColor : color.Color) :
  Versions (Image.img w) = v0 :: rest ->
  (exists v, List.In v (Versions (Image.img w)) /\
             keyEq v sourceRect width height (effectiveGrayscale v0 grayscale) outsideColor) ->
  exists i v,
    Image.SourceRectVersion env w sourceRect width height grayscale outsideColor
      = Ok (Image.RetVersion i, w) /\
    nth_error (Versions (Image.img w)) i = Some v /\
    keyEq v sourceRect width height (effectiveGrayscale v0 grayscale) outsideColor.
Proof.
  intros Hv Hex.
  rewrite (SourceRectVersion_unfold env w v0 rest _ _ _ _ _ Hv). cbv zeta.
  destruct (firstMatch_In _ _ _ _ _ _ Hex) as [i Ei]. rewrite Ei.
  apply search_first in Ei. destruct Ei as [k [-> [[v [Hn Hk]] _]]].
  exists k, v. cbn [Nat.add]. auto.
Qed.

(** C5.  The lookup of [SourceRectVersion]: a stored version passes the test
    exactly when its five key fields equal the request (the colour mode
    being the one the call works with); the versions are tried from index 0
    in the order they were appended and the first one that passes is handed
    back; when none passes, the call turns to the backend: it returns as
    soon as loading fails or the pixels of the new version are produced, and
    whenever it returns the load is the first thing it asked. *)
Theorem lookup_exact_first_match
    (env : Env) (w : Image.World) (v0 : ImageVersion.t) (rest : list ImageVersion.t)
    (sourceRect : Rectangle) (width height : Z) (grayscale : bool)
    (outsideColor : color.Color) :
  Versions (Image.img w) = v0 :: rest ->
  let g := effectiveGrayscale v0 grayscale in
  (forall v, Image.matches v sourceRect width height g outsideColor = true <->
             keyEq v sourceRect width height g outsideColor) /\
  (forall i, firstMatch (Versions (Image.img w)) i sourceRect width height g outsideColor ->
             Image.SourceRectVersion env w sourceRect width height grayscale outsideColor
               = Ok (Image.RetVersion i, w)) /\
  ((forall v, List.In v (Versions (Image.img w)) ->
              ~ keyEq v sourceRect width height g outsideColor) ->
   ((exists err, LoadImage env (Image.trace w) v0 = inr err) \/
    pixelsProduced env v0 sourceRect width height g = true ->
    exists ret w' tail,
      Image.SourceRectVersion env w sourceRect width height grayscale outsideColor
        = Ok (ret, w') /\
      Image.trace w' = Image.trace w ++ EvLoadImage v0 :: tail) /\
   (forall ret w',
      Image.SourceRectVersion env w sourceRect width height grayscale outsideColor
        = Ok (ret, w') ->
      exists tail, Image.trace w' = Image.trace w ++ EvLoadImage v0 :: tail)).
Proof.
  intros Hv g. split; [intros v; apply matches_keyEq |].
  split.
  - intros i Hi.
    rewrite (SourceRectVersion_unfold env w v0 rest _ _ _ _ _ Hv). cbv zeta. fold g.
    assert (E : Image.search (Versions (Image.img w)) 0 sourceRect width height g outsideColor
                = Some i).
    { apply search_first. exists i. split; [reflexivity | exact Hi]. }
    rewrite E. reflexivity.
  - intros Hnone. apply (search_none _ _ _ _ _ _ 0%nat) in Hnone.
    pose proof (SourceRectVersion_miss_trace env w v0 rest _ _ _ _ _ Hv Hnone) as Hret.
    split; [| exact Hret].
    intros Hgo.
    destruct (SourceRectVersion_miss_returns env w v0 rest _ _ _ _ _ Hv Hnone Hgo)
      as [ret [w' Hok]].
    destruct (Hret ret w' Hok) as [tail Htail].
    exists ret, w', tail. split; assumption.
Qed.

Lemma nth_error_snoc {A : Type} (l : list A) (a : A) :
  nth_error (l ++ [a]) (List.length l) = Some a.
Proof.
  rewrite nth_error_app2 by lia. rewrite Nat.sub_diag. reflexivity.
Qed.

(** C4.  With a grayscale original a call does what the same call with
    grayscale = true does, whatever the caller passed; it returns as soon as
    the pixels of a grayscale version are produced (the source rectangle
    lies inside the original, or the gray canvas of the requested size is
    allocated), and the version it hands back, found or new, is
    grayscale. *)
Theorem grayscale_original_forces_grayscale
    (env : Env) (w : Image.World) (v0 : ImageVersion.t) (rest : list ImageVersion.t)
    (sourceRect : Rectangle) (width height : Z) (grayscale : bool)
    (outsideColor : color.Color) :
  Versions (Image.img w) = v0 :: rest ->
  ImageVersion.Grayscale v0 = true ->
  Image.SourceRectVersion env w sourceRect width height grayscale outsideColor
    = Image.SourceRectVersion env w sourceRect width height true outsideColor /\
  (pixelsProduced env v0 sourceRect width height true = true ->
   exists ret w',
     Image.SourceRectVersion env w sourceRect width height grayscale outsideColor
       = Ok (ret, w')) /\
  (forall i w',
     Image.SourceRectVersion env w sourceRect width height grayscale outsideColor
       = Ok (Image.RetVersion i, w') ->
     exists v, nth_error (Versions (Image.img w')) i = Some v /\
               ImageVersion.Grayscale v = true).
Proof.
  intros Hv Hg.
  rewrite !(SourceRectVersion_unfold env w v0 rest _ _ _ _ _ Hv). cbv zeta.
  unfold effectiveGrayscale. rewrite Hg.
  split; [reflexivity |].
  destruct (Image.search _ _ _ _ _ _ _) as [k |] eqn:Es.
  - split; [intros _; eexists _, _; reflexivity |].
    intros i w' E. injection E as <- <-.
    apply search_first in Es. destruct Es as [j [-> [[v [Hn Hk]] _]]].
    exists v. split; [exact Hn |]. destruct Hk as (_ & _ & _ & _ & Hgv). exact Hgv.
  - destruct (LoadImage env _ _) as [orig | err].
    + destruct (pixelsProduced env v0 sourceRect width height true).
      * destruct (SaveImage env _ _ _) as [err |].
        -- split; [intros _; eexists _, _; reflexivity | intros i w' E; discriminate].
        -- destruct (BackendSaveImage env _ _) as [err |].
           ++ split; [intros _; eexists _, _; reflexivity | intros i w' E; discriminate].
           ++ split; [intros _; eexists _, _; reflexivity |].
              intros i w' E. injection E as <- <-.
              cbn [Image.img Image.setVersions Versions].
              eexists. split; [apply nth_error_snoc | reflexivity].
      * split; [discriminate | intros i w' E; discriminate].
    + split; [intros _; eexists _, _; reflexivity | intros i w' E; discriminate].
Qed.

Lemma Rect_origin (width height : Z) :
  0 <= width -> 0 <= height ->
  Rect 0 0 width height = {| Min := ZP; Max := {| X := width; Y := height |} |}.
Proof.
  intros Hw Hh. unfold Rect.
  destruct (Z.ltb_spec width 0); [lia |].
  destruct (Z.ltb_spec height 0); [lia |]. reflexivity.
Qed.



(** When the canvas comes into being, for sizes that are not negative: its
    rows fit 64 bits, its bytes fit an [int], and the runtime hands them
    out. *)
Lemma canvasAllocates_spec (env : Env) (g : bool) (width height : Z) :
  0 <= width <= GoInt.maxInt -> 0 <= height <= GoInt.maxInt ->
  let bytesPerPixel := if g then 1 else 4 in
  canvasAllocates env g width height = true <->
  bytesPerPixel * width < 2 ^ 64 /\
  bytesPerPixel * width * height < 2 ^ 63 /\
  MakeBytes env (bytesPerPixel * width * height) = true.
Proof.
  intros Hw Hh. cbv zeta.
  assert (Hdx : Dx (Rect 0 0 width height) = width /\ Dy (Rect 0 0 width height) = height).
  { rewrite Rect_origin by lia.
    unfold Dx, Dy, GoInt.sub. cbn [Min Max X Y ZP]. rewrite !Z.sub_0_r.
    split; apply wrap_id; unfold GoInt.inRange, GoInt.minInt, GoInt.maxInt in *; lia. }
  destruct Hdx as [Hdx Hdy].
  unfold canvasAllocates, NewGray, NewRGBA, pixelBufferLength. cbv zeta.
  rewrite Hdx, Hdy.
  assert (Hm : forall b, 0 < b ->
    match (n <- (if mul3NonNeg b width height <? 0 then Panic
                 else Ok (mul3NonNeg b width height)) ;;
           if MakeBytes env n then Ok (if g then blankGray (Rect 0 0 width height)
                                       else blankRGBA (Rect 0 0 width height))
           else Panic)
    with Ok _ => true | Panic => false end = true <->
    b * width < 2 ^ 64 /\ b * width * height < 2 ^ 63 /\
    MakeBytes env (b * width * height) = true).
  { intros b Hb. unfold mul3NonNeg.
    destruct (Z.ltb_spec b 0); [lia |].
    destruct (Z.ltb_spec width 0); [lia |].
    destruct (Z.ltb_spec height 0); [lia |].
    cbn [orb].
    destruct (Z.leb_spec (2 ^ 64) (b * width)).
    { cbn. split; [discriminate | lia]. }
    destruct (Z.leb_spec (2 ^ 64) (b * width * height)).
    { cbn. split; [discriminate | lia]. }
    destruct (Z.leb_spec (2 ^ 63) (b * width * height)).
    { cbn. split; [discriminate | lia]. }
    destruct (Z.ltb_spec (b * width * height) 0); [nia |].
    cbn [bind].
    destruct (MakeBytes env (b * width * height)).
    - split; [intros _; repeat split; lia | reflexivity].
    - split; [discriminate | intros (_ & _ & F); discriminate F]. }
  destruct g; [apply (Hm 1) | apply (Hm 4)]; lia.
Qed.



(** C7.  On a miss whose pixels are produced (the rectangle lies in the
    original's bounds, or the canvas of the requested size is allocated),
    when saving the pixels of the new version fails, or saving the image
    after it fails, the call hands back that error and no version, and the
    new version stays appended to [Versions]. *)
Theorem persistence_failure_keeps_append
    (env : Env) (w : Image.World) (v0 : ImageVersion.t) (rest : list ImageVersion.t)
    (sourceRect : Rectangle) (width height : Z) (grayscale : bool)
    (outsideColor : color.Color) (origImage : Pixels) (e : Error) :
  Versions (Image.img w) = v0 :: rest ->
  let g := effectiveGrayscale v0 grayscale in
  let version := newVersionOf v0 sourceRect width height g in
  let px := versionImageOf env origImage v0 sourceRect width height g outsideColor in
  let tr := Image.trace w ++ [EvLoadImage v0] in
  let self' := Image.setVersions (Image.img w) (Versions (Image.img w) ++ [version]) in
  (forall v, List.In v (Versions (Image.img w)) ->
             ~ keyEq v sourceRect width height g outsideColor) ->
  LoadImage env (Image.trace w) v0 = inl origImage ->
  pixelsProduced env v0 sourceRect width height g = true ->
  (SaveImage env tr version px = Some e \/
   (SaveImage env tr version px = None /\
    BackendSaveImage env (tr ++ [EvSaveImage version px]) self' = Some e)) ->
  exists w',
    Image.SourceRectVersion env w sourceRect width height grayscale outsideColor
      = Ok (Image.RetError e, w') /\
    Versions (Image.img w') = Versions (Image.img w) ++ [version].
Proof.
  intros Hv g version px tr self' Hnone Hload Hpp Hfail.
  rewrite (SourceRectVersion_unfold env w v0 rest _ _ _ _ _ Hv). cbv zeta.
  subst g version px tr self'.
  apply (search_none _ _ _ _ _ _ 0%nat) in Hnone. rewrite Hnone, Hload, Hpp.
  destruct Hfail as [Hs | [Hs Hb]].
  - rewrite Hs. eexists. split; reflexivity.
  - rewrite Hs, Hb. eexists. split; reflexivity.
Qed.

(** A call that returns leaves every version in place and adds at most one
    at the end. *)
Lemma SourceRectVersion_grows
    (env : Env) (w w' : Image.World) (sourceRect : Rectangle) (width height : Z)
    (grayscale : bool) (outsideColor : color.Color) (ret : Image.Return) :
  Image.SourceRectVersion env w sourceRect width height grayscale outsideColor = Ok (ret, w') ->
  exists added, Versions (Image.img w') = Versions (Image.img w) ++ added /\
                (List.length added <= 1)%nat.
Proof.
  destruct (Versions (Image.img w)) as [| v0 rest] eqn:Hv.
  - unfold Image.SourceRectVersion, Image.Grayscale, Image.original.
    rewrite Hv. cbn [bind]. discriminate.
  - rewrite (SourceRectVersion_unfold env w v0 rest _ _ _ _ _ Hv). cbv zeta.
    rewrite Hv.
    assert (Hsame : exists added, v0 :: rest = (v0 :: rest) ++ added /\
                                  (List.length added <= 1)%nat).
    { exists []. rewrite app_nil_r. split; [reflexivity | cbn; lia]. }
    destruct (Image.search _ _ _ _ _ _ _).
    { intros E. injection E as _ <-. rewrite Hv. exact Hsame. }
    destruct (LoadImage env _ _).
    2: { intros E. injection E as _ <-. cbn [Image.img]. rewrite Hv. exact Hsame. }
    destruct (pixelsProduced env v0 _ _ _ _); [| discriminate].
    destruct (SaveImage env _ _ _).
    { intros E. injection E as _ <-. cbn [Image.img Image.setVersions Versions].
      eexists. split; [reflexivity | cbn; lia]. }
    destruct (BackendSaveImage env _ _);
      (intros E; injection E as _ <-; cbn [Image.img Image.setVersions Versions];
       eexists; split; [reflexivity | cbn; lia]).
Qed.

Lemma bind_Ok {A B : Type} (m : Res A) (k : A -> Res B) (b : B) :
  bind m k = Ok b -> exists a, m = Ok a /\ k a = Ok b.
Proof. destruct m as [a |]; [intros E; exists a; auto | discriminate]. Qed.

(** C8.  An image made by [NewImage] holds exactly one version, whose source
    rectangle is (0,0)-(Width,Height) (the decoder reporting bounds of
    non-negative extent); and every later call of [SourceRectVersion],
    [Version] or [VersionTouchOrigFromOutside] that returns keeps all
    versions in place and appends at most one. *)
Theorem versions_start_with_original_and_only_grow
    (env : Env) (tr tr' : list Event) (filename : string) (data : list Byte.byte)
    (image : Image.t) :
  (forall d i t, Decode env d = inl (i, t) ->
                 0 <= Dx (rawBounds i) /\ 0 <= Dy (rawBounds i)) ->
  NewImage env tr filename data = (NewOk image, tr') ->
  (exists v0, Versions image = [v0] /\ ImageVersion.SourceRect v0 = originalBounds v0) /\
  (forall w sourceRect width height grayscale outsideColor ret w',
     Image.SourceRectVersion env w sourceRect width height grayscale outsideColor
       = Ok (ret, w') ->
     exists added, Versions (Image.img w') = Versions (Image.img w) ++ added /\
                   (List.length added <= 1)%nat) /\
  (forall w width height horAlign verAlign grayscale ret w',
     Image.Version env w width height horAlign verAlign grayscale = Ok (ret, w') ->
     exists added, Versions (Image.img w') = Versions (Image.img w) ++ added /\
                   (List.length added <= 1)%nat) /\
  (forall w width height horAlign verAlign grayscale outsideColor ret w',
     Image.VersionTouchOrigFromOutside env w width height horAlign verAlign grayscale
                                       outsideColor = Ok (ret, w') ->
     exists added, Versions (Image.img w') = Versions (Image.img w) ++ added /\
                   (List.length added <= 1)%nat).
Proof.
  intros Hdec Hnew. split; [| split; [| split]].
  - unfold NewImage in Hnew.
    assert (Hfinal : forall (i : RawImage) (t : string) (d : list Byte.byte) (f : string),
      0 <= Dx (rawBounds i) /\ 0 <= Dy (rawBounds i) ->
      (let width := Dx (rawBounds i) in
       let height := Dy (rawBounds i) in
       let version :=
         ImageVersion.newImageVersion (ValidUrlFilename env f) ("image/" ++ t)%string
           (Rect 0 0 width height) width height
           (color.Model_eqb (rawColorModel i) color.GrayModel ||
            color.Model_eqb (rawColorModel i) color.Gray16Model) in
       let tr1 := tr ++ [EvSaveImageData version d] in
       match SaveImageData env tr version d with
       | Some err => (NewError err, tr1)
       | None => (NewOk {| ID := ""; Description := ""; Link := ""; Versions := [version] |}, tr1)
       end) = (NewOk image, tr') ->
      exists v0, Versions image = [v0] /\ ImageVersion.SourceRect v0 = originalBounds v0).
    { intros i t d f [Hx Hy]. cbv zeta.
      destruct (SaveImageData env _ _ _); [discriminate |].
      intros E. injection E as <- _. eexists. split; [reflexivity |].
      unfold originalBounds, ImageVersion.newImageVersion.
      cbn [ImageVersion.SourceRect ImageVersion.Width ImageVersion.Height].
      apply Rect_origin; assumption. }
    destruct (Decode env data) as [[i t] | err] eqn:Ed; [| discriminate].
    destruct (isOneOf t _).
    + destruct (PngEncode env i) as [data' | err]; [| discriminate].
      destruct (Decode env data') as [[i' t'] | err] eqn:Ed'; [| discriminate].
      apply (Hfinal i' t' data' (filename ++ ".png")%string); [| exact Hnew].
      exact (Hdec _ _ _ Ed').
    + apply (Hfinal i t data filename); [| exact Hnew].
      exact (Hdec _ _ _ Ed).
  - intros w sourceRect width height grayscale outsideColor ret w' E.
    exact (SourceRectVersion_grows _ _ _ _ _ _ _ _ _ E).
  - intros w width height horAlign verAlign grayscale ret w' E.
    unfold Image.Version in E. apply bind_Ok in E. destruct E as [r [_ E]].
    exact (SourceRectVersion_grows _ _ _ _ _ _ _ _ _ E).
  - intros w width height horAlign verAlign grayscale outsideColor ret w' E.
    unfold Image.VersionTouchOrigFromOutside in E. apply bind_Ok in E.
    destruct E as [r [_ E]].
    exact (SourceRectVersion_grows _ _ _ _ _ _ _ _ _ E).
Qed.

(** A request with the zero outside colour that handed back a version hands
    back the same one when repeated, and changes nothing. *)
Lemma zero_colour_request_repeats
    (env : Env) (w w1 : Image.World) (v0 : ImageVersion.t) (rest : list ImageVersion.t)
    (sourceRect : Rectangle) (width height : Z) (grayscale : bool) (i : nat) :
  Versions (Image.img w) = v0 :: rest ->
  Image.SourceRectVersion env w sourceRect width height grayscale color.zero
    = Ok (Image.RetVersion i, w1) ->
  Image.SourceRectVersion env w1 sourceRect width height grayscale color.zero
    = Ok (Image.RetVersion i, w1).
Proof.
  intros Hv E.
  pose proof E as E0.
  rewrite (SourceRectVersion_unfold env w v0 rest _ _ _ _ _ Hv) in E. cbv zeta in E.
  destruct (Image.search _ _ _ _ _ _ _) as [k |] eqn:Es.
  { injection E as <- <-. exact E0. }
  destruct (LoadImage env _ _); [| discriminate].
  destruct (pixelsProduced env v0 _ _ _ _); [| discriminate].
  destruct (SaveImage env _ _ _); [discriminate |].
  destruct (BackendSaveImage env _ _); [discriminate |].
  injection E as <- <-.
  set (g := effectiveGrayscale v0 grayscale) in *.
  set (nv := newVersionOf v0 sourceRect width height g) in *.
  set (w1 := {| Image.img := _; Image.trace := _ |}).
  assert (Hv1 : Versions (Image.img w1) = v0 :: (rest ++ [nv])).
  { unfold w1. cbn [Image.img Image.setVersions Versions]. rewrite Hv. reflexivity. }
  rewrite (SourceRectVersion_unfold env w1 v0 (rest ++ [nv]) _ _ _ _ _ Hv1). cbv zeta.
  fold g.
  assert (Es1 : Image.search (Versions (Image.img w1)) 0 sourceRect width height g color.zero
                = Some (List.length (Versions (Image.img w)))).
  { apply search_first. eexists. split; [reflexivity |].
    unfold w1. cbn [Image.img Image.setVersions Versions]. split.
    - exists nv. split; [apply nth_error_snoc |].
      unfold nv, newVersionOf, ImageVersion.newImageVersion, keyEq.
      cbn. repeat split; reflexivity.
    - intros j u Hj Hu. rewrite nth_error_app1 in Hu by exact Hj.
      rewrite search_none in Es. apply Es. eapply nth_error_In. exact Hu. }
  rewrite Es1. reflexivity.
Qed.

End Cache.

(** ** The model of [float64] against the hardware operations *)

Example div_agrees_9_7 :
  feq (Float64.div (ofInt 9) (ofInt 7)) (ofPrim (9 / 7)%float) = true.
Proof. vm_compute. reflexivity. Qed.

Example div_agrees_9_by_9_7 :
  feq (Float64.div (ofInt 9) (Float64.div (ofInt 9) (ofInt 7)))
      (ofPrim (9 / (9 / 7))%float) = true.
Proof. vm_compute. reflexivity. Qed.

Example div_agrees_800_by_3_7 :
  feq (Float64.div (ofInt 800) (Float64.div (ofInt 3) (ofInt 7)))
      (ofPrim (800 / (3 / 7))%float) = true.
Proof. vm_compute. reflexivity. Qed.

Example mul_agrees_7_by_61_7 :
  feq (Float64.mul (ofInt 7) (Float64.div (ofInt 61) (ofInt 7)))
      (ofPrim (7 * (61 / 7))%float) = true.
Proof. vm_compute. reflexivity. Qed.

Example ofInt_agrees_above_2_53 :
  feq (ofInt 9007199254740995) (ofPrim (9007199254740992 + 3)%float) = true.
Proof. vm_compute. reflexivity. Qed.

Example div_agrees_1_3 :
  feq (Float64.div (ofInt 1) (ofInt 3)) (ofPrim (1 / 3)%float) = true.
Proof. vm_compute. reflexivity. Qed.

Example mul_agrees_49_by_1_49 :
  feq (Float64.mul (ofInt 49) (Float64.div (ofInt 1) (ofInt 49)))
      (ofPrim (49 * (1 / 49))%float) = true.
Proof. vm_compute. reflexivity. Qed.

Example mul_agrees_600_by_1 :
  feq (Float64.mul (ofInt 600) (Float64.div (ofInt 400) (ofInt 400)))
      (ofPrim (600 * (400 / 400))%float) = true.
Proof. vm_compute. reflexivity. Qed.

(** ** The resolvers on concrete requests *)

(** The scenario of the specification: 800 x 600, fit-inside 400 x 400,
    centred. *)
Example fit_inside_800_600_square :
  Image.touchOriginalFromInsideSourceRect (sampleImage 800 600 false) 400 400 HorCenter VerCenter
  = Ok {| Min := {| X := 100; Y := 0 |}; Max := {| X := 700; Y := 600 |} |}.
Proof. vm_compute. reflexivity. Qed.

Example fit_inside_same_aspect_61_7 :
  Image.touchOriginalFromInsideSourceRect (sampleImage 61 7 false) 61 7 Left Top
  = Ok {| Min := {| X := 0; Y := 0 |}; Max := {| X := 60; Y := 7 |} |}.
Proof. vm_compute. reflexivity. Qed.

Example cover_outside_800_600_square :
  Image.touchOriginalFromOutsideSourceRect (sampleImage 800 600 false) 400 400 HorCenter VerCenter
  = Ok {| Min := {| X := 0; Y := -100 |}; Max := {| X := 800; Y := 700 |} |}.
Proof. vm_compute. reflexivity. Qed.

(** With the aspect ratio of the original itself, 9 / (9 / 7) rounds below 7
    and the rectangle loses the last row of the original. *)
Example cover_outside_same_aspect_9_7 :
  Image.touchOriginalFromOutsideSourceRect (sampleImage 9 7 false) 9 7 HorCenter VerCenter
  = Ok {| Min := {| X := 0; Y := 0 |}; Max := {| X := 9; Y := 6 |} |}.
Proof. vm_compute. reflexivity. Qed.

(** ** Requests whose canvas does not come into being *)

(** A cover-from-outside request of 2^40 x 2^40: the bytes of the canvas do
    not fit an [int], [image.NewRGBA] panics, after the load and before
    anything is appended or saved. *)
Example huge_cover_request_panics :
  Image.SourceRectVersion okEnv (sampleWorld 800 600 false) coverRect (2 ^ 40) (2 ^ 40)
                          false red = Panic /\
  pixelBufferLength 4 (Rect 0 0 (2 ^ 40) (2 ^ 40)) = Panic.
Proof. split; vm_compute; reflexivity. Qed.

(** A width of 2^62 and a height of 0: the canvas has no byte at all, and
    [image.NewRGBA] still panics, on the row length. *)
Example flat_huge_canvas_panics :
  pixelBufferLength 4 (Rect 0 0 (2 ^ 62) 0) = Panic /\
  pixelBufferLength 1 (Rect 0 0 (2 ^ 62) 0) = Ok 0.
Proof. split; vm_compute; reflexivity. Qed.

(** C2, as stated, fails: for an original of 800 x 600 and a request of
    3 x 7 the rectangle is 800 x 1866, and 800 / 1866 is not 3 / 7. *)
Lemma cover_outside_ratio_not_exact :
  exists r,
    Image.touchOriginalFromOutsideSourceRect (sampleImage 800 600 false) 3 7 HorCenter VerCenter
      = Ok r /\
    ~ (Dx r * 7 = Dy r * 3 /\ In (originalBounds (sampleOriginal 800 600 false)) r = true).
Proof.
  eexists. split; [vm_compute; reflexivity |].
  vm_compute. intros [H _]. discriminate H.
Qed.

(** C3.  The same cover-from-outside request with a red outside colour,
    issued twice on an image of 800 x 600 whose backend never fails: the
    second call does not find the version the first one made, and the image
    ends with three versions. *)
Theorem repeated_request_with_outside_colour_appends_again :
  requestTwice
    (fun w => Image.VersionTouchOrigFromOutside okEnv w 400 400 HorCenter VerCenter false red)
    (sampleWorld 800 600 false)
  = Ok (Image.RetVersion 1, Image.RetVersion 2, 2%nat, 3%nat).
Proof. vm_compute. reflexivity. Qed.

(** The fit-inside path, which asks for the zero colour, finds it again. *)
Example repeated_fit_inside_request_is_found :
  requestTwice
    (fun w => Image.Version okEnv w 400 400 HorCenter VerCenter false)
    (sampleWorld 800 600 false)
  = Ok (Image.RetVersion 1, Image.RetVersion 1, 2%nat, 2%nat).
Proof. vm_compute. reflexivity. Qed.

(** No request with another outside colour than the zero colour is ever
    found among versions whose outside colour was never set. *)
Lemma nonzero_colour_never_found (vs : list ImageVersion.t) (r : Rectangle)
    (width height : Z) (g : bool) (c : color.Color) (start : nat) :
  (forall v, List.In v vs -> ImageVersion.OutsideColor v = color.zero) ->
  c <> color.zero ->
  Image.search vs start r width height g c = None.
Proof.
  intros Hzero Hc. apply search_none. intros v Hin (_ & _ & _ & Hcol & _).
  apply Hc. rewrite <- Hcol. apply Hzero. exact Hin.
Qed.

(** ** The theorems on sample data *)

Lemma fit_inside_rect_in_bounds_witness :
  exists r,
    Image.touchOriginalFromInsideSourceRect (sampleImage 800 600 false) 400 400
                                            HorCenter VerCenter = Ok r /\
    In r (originalBounds (sampleOriginal 800 600 false)) = true /\
    0 <= X (Min r) <= X (Max r) /\ X (Max r) <= 800 /\
    0 <= Y (Min r) <= Y (Max r) /\ Y (Max r) <= 600.
Proof.
  apply (fit_inside_rect_in_bounds (sampleImage 800 600 false)
           (sampleOriginal 800 600 false) [] 400 400 HorCenter VerCenter);
    [reflexivity | simpl; lia | simpl; lia | lia | lia].
Defined.

Lemma fit_inside_left_right_symmetric_witness :
  exists rl rr,
    Image.touchOriginalFromInsideSourceRect (sampleImage 800 600 false) 400 400 Left VerCenter
      = Ok rl /\
    Image.touchOriginalFromInsideSourceRect (sampleImage 800 600 false) 400 400 Right VerCenter
      = Ok rr /\
    Dx rl = Dx rr /\ Dy rl = Dy rr /\
    X (Min rl) + X (Min rr) = 800 - Dx rl.
Proof.
  apply (fit_inside_left_right_symmetric (sampleImage 800 600 false)
           (sampleOriginal 800 600 false) [] 400 400 VerCenter);
    [reflexivity | simpl; lia | simpl; lia | lia | lia | vm_compute; reflexivity].
Defined.

Lemma cover_outside_rect_shape_witness :
  exists r,
    Image.touchOriginalFromOutsideSourceRect (sampleImage 800 600 false) 3 7
                                             HorCenter VerCenter = Ok r /\
    ((Dy r = 600 /\ Y (Min r) = 0 /\ Dx r * 7 <= 600 * 3 <= (Dx r + 1) * 7)
     \/
     (Dx r = 800 /\ X (Min r) = 0 /\ Dy r * 3 <= 800 * 7 <= (Dy r + 1) * 3)) /\
    (3 * 600 <> 800 * 7 ->
     In (originalBounds (sampleOriginal 800 600 false)) r = true /\
     X (Min r) <= 0 /\ 800 <= X (Max r) /\ Y (Min r) <= 0 /\ 600 <= Y (Max r)).
Proof.
  apply (cover_outside_rect_shape (sampleImage 800 600 false)
           (sampleOriginal 800 600 false) [] 3 7 HorCenter VerCenter);
    [reflexivity | simpl; lia | simpl; lia | lia | lia | simpl; lia | simpl; lia].
Defined.

Lemma sample_has_no_cover_version (g : bool) (c : color.Color) :
  forall v, List.In v (Versions (Image.img (sampleWorld 800 600 false))) ->
            ~ keyEq v coverRect 400 400 g c.
Proof. intros v [<- | []] [H _]. discriminate H. Qed.


Lemma cache_hit_changes_nothing_witness :
  exists i v,
    Image.SourceRectVersion okEnv (sampleWorld 800 600 false) fullRect 800 600 false color.zero
      = Ok (Image.RetVersion i, sampleWorld 800 600 false) /\
    nth_error (Versions (Image.img (sampleWorld 800 600 false))) i = Some v /\
    keyEq v fullRect 800 600 (effectiveGrayscale (sampleOriginal 800 600 false) false) color.zero.
Proof.
  apply (cache_hit_changes_nothing okEnv (sampleWorld 800 600 false)
           (sampleOriginal 800 600 false) [] fullRect 800 600 false color.zero);
    [reflexivity |].
  exists (sampleOriginal 800 600 false). split; [left; reflexivity |].
  repeat split; reflexivity.
Defined.

Lemma lookup_exact_first_match_witness :
  let w := sampleWorld 800 600 false in
  let g := effectiveGrayscale (sampleOriginal 800 600 false) false in
  (forall v, Image.matches v fullRect 800 600 g color.zero = true <->
             keyEq v fullRect 800 600 g color.zero) /\
  (forall i, firstMatch (Versions (Image.img w)) i fullRect 800 600 g color.zero ->
             Image.SourceRectVersion okEnv w fullRect 800 600 false color.zero
               = Ok (Image.RetVersion i, w)) /\
  ((forall v, List.In v (Versions (Image.img w)) ->
              ~ keyEq v fullRect 800 600 g color.zero) ->
   ((exists err, LoadImage okEnv (Image.trace w) (sampleOriginal 800 600 false) = inr err) \/
    pixelsProduced okEnv (sampleOriginal 800 600 false) fullRect 800 600 g = true ->
    exists ret w' tail,
      Image.SourceRectVersion okEnv w fullRect 800 600 false color.zero = Ok (ret, w') /\
      Image.trace w' = Image.trace w ++ EvLoadImage (sampleOriginal 800 600 false) :: tail) /\
   (forall ret w',
      Image.SourceRectVersion okEnv w fullRect 800 600 false color.zero = Ok (ret, w') ->
      exists tail,
        Image.trace w' = Image.trace w ++ EvLoadImage (sampleOriginal 800 600 false) :: tail)).
Proof.
  apply (lookup_exact_first_match okEnv (sampleWorld 800 600 false)
           (sampleOriginal 800 600 false) [] fullRect 800 600 false color.zero).
  reflexivity.
Defined.

Lemma grayscale_original_forces_grayscale_witness :
  let w := sampleWorld 800 600 true in
  Image.SourceRectVersion okEnv w coverRect 400 400 false red
    = Image.SourceRectVersion okEnv w coverRect 400 400 true red /\
  (exists ret w', Image.SourceRectVersion okEnv w coverRect 400 400 false red = Ok (ret, w')) /\
  (forall i w',
     Image.SourceRectVersion okEnv w coverRect 400 400 false red = Ok (Image.RetVersion i, w') ->
     exists v, nth_error (Versions (Image.img w')) i = Some v /\
               ImageVersion.Grayscale v = true).
Proof.
  destruct (grayscale_original_forces_grayscale okEnv (sampleWorld 800 600 true)
              (sampleOriginal 800 600 true) [] coverRect 400 400 false red
              eq_refl eq_refl) as [Hsame [Hret Hgray]].
  split; [exact Hsame |]. split; [apply Hret; reflexivity | exact Hgray].
Defined.


Lemma persistence_failure_keeps_append_witness :
  let w := sampleWorld 800 600 false in
  let v0 := sampleOriginal 800 600 false in
  exists w',
    Image.SourceRectVersion failingSaveEnv w coverRect 400 400 false red
      = Ok (Image.RetError "disk full"%string, w') /\
    Versions (Image.img w') =
      Versions (Image.img w) ++
      [newVersionOf v0 coverRect 400 400 (effectiveGrayscale v0 false)].
Proof.
  apply (persistence_failure_keeps_append failingSaveEnv (sampleWorld 800 600 false)
           (sampleOriginal 800 600 false) [] coverRect 400 400 false red
           (Raw {| rawId := 1; rawBounds := fullRect; rawColorModel := color.RGBAModel |})
           "disk full"%string);
    [reflexivity | apply sample_has_no_cover_version | reflexivity | reflexivity
    | left; reflexivity].
Defined.

Lemma versions_start_with_original_and_only_grow_witness :
  (exists v0, Versions (sampleImage 800 600 false) = [v0] /\
              ImageVersion.SourceRect v0 = originalBounds v0) /\
  (forall w sourceRect width height grayscale outsideColor ret w',
     Image.SourceRectVersion okEnv w sourceRect width height grayscale outsideColor
       = Ok (ret, w') ->
     exists added, Versions (Image.img w') = Versions (Image.img w) ++ added /\
                   (List.length added <= 1)%nat) /\
  (forall w width height horAlign verAlign grayscale ret w',
     Image.Version okEnv w width height horAlign verAlign grayscale = Ok (ret, w') ->
     exists added, Versions (Image.img w') = Versions (Image.img w) ++ added /\
                   (List.length added <= 1)%nat) /\
  (forall w width height horAlign verAlign grayscale outsideColor ret w',
     Image.VersionTouchOrigFromOutside okEnv w width height horAlign verAlign grayscale
                                       outsideColor = Ok (ret, w') ->
     exists added, Versions (Image.img w') = Versions (Image.img w) ++ added /\
                   (List.length added <= 1)%nat).
Proof.
  apply (versions_start_with_original_and_only_grow okEnv []
           [EvSaveImageData (sampleOriginal 800 600 false) []] "a.png"%string []
           (sampleImage 800 600 false)).
  - intros d i t E. injection E as <- _. vm_compute. split; discriminate.
  - reflexivity.
Defined.

(** * Further properties *)

Section Protocol.

Lemma original_nil (self : Image.t) : Versions self = [] -> Image.original self = Panic.
Proof. intros H. unfold Image.original. rewrite H. reflexivity. Qed.



Lemma canvasRefused_cons (env : Env) (w : Image.World) (r : Rectangle) (width height : Z)
    (g : bool) (c : color.Color) :
  canvasRefused env w r width height g c -> Versions (Image.img w) <> [].
Proof. intros (v0 & rest & _ & Hv & _) E. rewrite E in Hv. discriminate Hv. Qed.


(** X2.  An error handed back by [SourceRectVersion] is the error of one of the
    three backend operations of a miss: of loading the original, and then
    image and versions are as before and nothing was saved; or of saving the
    pixels or the image, and then the new version is appended. *)
Theorem error_comes_from_the_backend
    (env : Env) (w w' : Image.World) (v0 : ImageVersion.t) (rest : list ImageVersion.t)
    (sourceRect : Rectangle) (width height : Z) (grayscale : bool)
    (outsideColor : color.Color) (e : Error) :
  Versions (Image.img w) = v0 :: rest ->
  Image.SourceRectVersion env w sourceRect width height grayscale outsideColor
    = Ok (Image.RetError e, w') ->
  let g := effectiveGrayscale v0 grayscale in
  let tr := Image.trace w ++ [EvLoadImage v0] in
  (forall v, List.In v (Versions (Image.img w)) ->
             ~ keyEq v sourceRect width height g outsideColor) /\
  ((LoadImage env (Image.trace w) v0 = inr e /\
    Image.img w' = Image.img w /\ Image.trace w' = tr)
   \/
   (exists origImage,
      LoadImage env (Image.trace w) v0 = inl origImage /\
      let version := newVersionOf v0 sourceRect width height g in
      let px := versionImageOf env origImage v0 sourceRect width height g outsideColor in
      Versions (Image.img w') = Versions (Image.img w) ++ [version] /\
      ((SaveImage env tr version px = Some e /\
        Image.trace w' = tr ++ [EvSaveImage version px])
       \/
       (SaveImage env tr version px = None /\
        BackendSaveImage env (tr ++ [EvSaveImage version px]) (Image.img w') = Some e /\
        Image.trace w' = tr ++ [EvSaveImage version px; EvBackendSaveImage (Image.img w')])))).
Proof.
  intros Hv E g tr.
  rewrite (SourceRectVersion_unfold env w v0 rest _ _ _ _ _ Hv) in E. cbv zeta in E.
  fold g in E. fold tr in E.
  destruct (Image.search _ _ _ _ _ _ _) eqn:Es; [discriminate |].
  split; [apply (search_none _ _ _ _ _ _ 0%nat); exact Es |].
  destruct (LoadImage env _ _) as [origImage | err] eqn:El.
  - right. exists origImage. split; [reflexivity |]. cbv zeta.
    destruct (pixelsProduced env v0 _ _ _ _); [| discriminate].
    destruct (SaveImage env _ _ _) as [err |] eqn:Esv.
    + injection E as <- <-. cbn [Image.img Image.trace Image.setVersions Versions].
      split; [reflexivity |]. left. split; reflexivity.
    + destruct (BackendSaveImage env _ _) as [err |] eqn:Eb; [| discriminate].
      injection E as <- <-. cbn [Image.img Image.trace Image.setVersions Versions].
      split; [reflexivity |]. right. split; [reflexivity |]. split; [exact Eb |].
      rewrite <- app_assoc. reflexivity.
  - left. injection E as <- <-. cbn [Image.img Image.trace]. auto.
Qed.

(** X3.  A version handed back has the requested rectangle, width and height and
    the colour mode the call works with.  It is either a stored version with
    the requested outside colour, the world being untouched, or the version
    just appended at the end, which copies file name and content type of the
    original, carries no outside colour, and was saved before the image,
    which already holds it, was saved. *)
Theorem returned_version_meets_request
    (env : Env) (w w' : Image.World) (v0 : ImageVersion.t) (rest : list ImageVersion.t)
    (sourceRect : Rectangle) (width height : Z) (grayscale : bool)
    (outsideColor : color.Color) (i : nat) :
  Versions (Image.img w) = v0 :: rest ->
  Image.SourceRectVersion env w sourceRect width height grayscale outsideColor
    = Ok (Image.RetVersion i, w') ->
  let g := effectiveGrayscale v0 grayscale in
  exists v,
    nth_error (Versions (Image.img w')) i = Some v /\
    ImageVersion.SourceRect v = sourceRect /\
    ImageVersion.Width v = width /\
    ImageVersion.Height v = height /\
    ImageVersion.Grayscale v = g /\
    ((w' = w /\ ImageVersion.OutsideColor v = outsideColor)
     \/
     (i = List.length (Versions (Image.img w)) /\
      Versions (Image.img w') = Versions (Image.img w) ++ [v] /\
      ImageVersion.Filename v = ImageVersion.Filename v0 /\
      ImageVersion.ContentType v = ImageVersion.ContentType v0 /\
      ImageVersion.OutsideColor v = color.zero /\
      exists px,
        Image.trace w' =
          Image.trace w ++
          [EvLoadImage v0; EvSaveImage v px; EvBackendSaveImage (Image.img w')])).
Proof.
  intros Hv E g.
  rewrite (SourceRectVersion_unfold env w v0 rest _ _ _ _ _ Hv) in E. cbv zeta in E.
  fold g in E.
  destruct (Image.search _ _ _ _ _ _ _) as [k |] eqn:Es.
  - injection E as <- <-.
    apply search_first in Es. destruct Es as [j [-> [[v [Hn Hk]] _]]].
    destruct Hk as (K1 & K2 & K3 & K4 & K5).
    exists v. cbn [Nat.add]. repeat split; try assumption. left. split; [reflexivity | exact K4].
  - destruct (LoadImage env _ _) as [origImage | err]; [| discriminate].
    destruct (pixelsProduced env v0 _ _ _ _); [| discriminate].
    destruct (SaveImage env _ _ _); [discriminate |].
    destruct (BackendSaveImage env _ _); [discriminate |].
    injection E as <- <-. cbn [Image.img Image.trace Image.setVersions Versions].
    eexists. split; [apply nth_error_snoc |].
    repeat split. right. repeat split.
    eexists. rewrite <- !app_assoc. reflexivity.
Qed.

(** A call that returns keeps the original, and with it everything the
    resolvers read. *)
Lemma SourceRectVersion_keeps_head
    (env : Env) (w w' : Image.World) (v0 : ImageVersion.t) (rest : list ImageVersion.t)
    (sourceRect : Rectangle) (width height : Z) (grayscale : bool)
    (outsideColor : color.Color) (ret : Image.Return) :
  Versions (Image.img w) = v0 :: rest ->
  Image.SourceRectVersion env w sourceRect width height grayscale outsideColor = Ok (ret, w') ->
  exists added, Versions (Image.img w') = v0 :: rest ++ added.
Proof.
  intros Hv E. destruct (SourceRectVersion_grows _ _ _ _ _ _ _ _ _ E) as [added [Ha _]].
  exists added. rewrite Ha, Hv. reflexivity.
Qed.

(** X4.  A call that returns leaves the original version, the id, the description
    and the link as they were, so both resolvers give the same rectangles
    after it as before. *)
Theorem original_and_geometry_survive_calls
    (env : Env) (w w' : Image.World) (sourceRect : Rectangle) (width height : Z)
    (grayscale : bool) (outsideColor : color.Color) (ret : Image.Return) :
  Image.SourceRectVersion env w sourceRect width height grayscale outsideColor = Ok (ret, w') ->
  Image.original (Image.img w') = Image.original (Image.img w) /\
  ID (Image.img w') = ID (Image.img w) /\
  Description (Image.img w') = Description (Image.img w) /\
  Link (Image.img w') = Link (Image.img w) /\
  (forall wd ht ha va,
     Image.touchOriginalFromInsideSourceRect (Image.img w') wd ht ha va
       = Image.touchOriginalFromInsideSourceRect (Image.img w) wd ht ha va) /\
  (forall wd ht ha va,
     Image.touchOriginalFromOutsideSourceRect (Image.img w') wd ht ha va
       = Image.touchOriginalFromOutsideSourceRect (Image.img w) wd ht ha va).
Proof.
  intros E.
  destruct (Versions (Image.img w)) as [| v0 rest] eqn:Hv.
  { unfold Image.SourceRectVersion, Image.Grayscale in E.
    rewrite (original_nil _ Hv) in E. discriminate E. }
  destruct (SourceRectVersion_keeps_head _ _ _ _ _ _ _ _ _ _ _ Hv E) as [added Hv'].
  split; [rewrite (original_cons _ _ _ Hv), (original_cons _ _ _ Hv'); reflexivity |].
  assert (Hmeta : ID (Image.img w') = ID (Image.img w) /\
                  Description (Image.img w') = Description (Image.img w) /\
                  Link (Image.img w') = Link (Image.img w)).
  { rewrite (SourceRectVersion_unfold env w v0 rest _ _ _ _ _ Hv) in E. cbv zeta in E.
    destruct (Image.search _ _ _ _ _ _ _); [injection E as _ <-; auto |].
    destruct (LoadImage env _ _); [| injection E as _ <-; auto].
    destruct (pixelsProduced env v0 _ _ _ _); [| discriminate].
    destruct (SaveImage env _ _ _); [injection E as _ <-; auto |].
    destruct (BackendSaveImage env _ _); injection E as _ <-; auto. }
  destruct Hmeta as (M1 & M2 & M3).
  repeat split; try assumption.
  - intros wd ht ha va.
    rewrite (inside_bands _ _ _ _ _ _ _ Hv), (inside_bands _ _ _ _ _ _ _ Hv'). reflexivity.
  - intros wd ht ha va.
    rewrite (outside_bands _ _ _ _ _ _ _ Hv), (outside_bands _ _ _ _ _ _ _ Hv'). reflexivity.
Qed.

Lemma Version_Ok_inv (env : Env) (w w' : Image.World) (width height : Z)
    (horAlign : HorAlignment) (verAlign : VerAlignment) (grayscale : bool)
    (ret : Image.Return) :
  Image.Version env w width height horAlign verAlign grayscale = Ok (ret, w') ->
  exists v0 rest r,
    Versions (Image.img w) = v0 :: rest /\
    Image.touchOriginalFromInsideSourceRect (Image.img w) width height horAlign verAlign
      = Ok r /\
    Image.SourceRectVersion env w r width height grayscale color.zero = Ok (ret, w').
Proof.
  intros E. unfold Image.Version in E. apply bind_Ok in E. destruct E as [r [Er E]].
  destruct (Versions (Image.img w)) as [| v0 rest] eqn:Hv.
  { unfold Image.SourceRectVersion, Image.Grayscale in E.
    rewrite (original_nil _ Hv) in E. discriminate E. }
  exists v0, rest, r. auto.
Qed.

(** X5.  [Version] is idempotent: a request that handed back a version hands back
    the same one when repeated, and the repeat changes nothing. *)
Theorem Version_repeats
    (env : Env) (w w1 : Image.World) (width height : Z)
    (horAlign : HorAlignment) (verAlign : VerAlignment) (grayscale : bool) (i : nat) :
  Image.Version env w width height horAlign verAlign grayscale
    = Ok (Image.RetVersion i, w1) ->
  Image.Version env w1 width height horAlign verAlign grayscale
    = Ok (Image.RetVersion i, w1).
Proof.
  intros E. destruct (Version_Ok_inv _ _ _ _ _ _ _ _ _ E) as (v0 & rest & r & Hv & Er & Es).
  destruct (SourceRectVersion_keeps_head _ _ _ _ _ _ _ _ _ _ _ Hv Es) as [added Hv1].
  unfold Image.Version.
  rewrite (inside_bands _ _ _ _ _ _ _ Hv1).
  rewrite (inside_bands _ _ _ _ _ _ _ Hv) in Er. rewrite Er. cbn [bind].
  exact (zero_colour_request_repeats env w w1 v0 rest r width height grayscale i Hv Es).
Qed.

(** X6.  After a miss whose save failed, the version stays in the list: the same
    request with the zero outside colour is answered with that version,
    without another load or save. *)
Theorem failed_save_is_found_afterwards
    (env : Env) (w w' : Image.World) (v0 : ImageVersion.t) (rest : list ImageVersion.t)
    (sourceRect : Rectangle) (width height : Z) (grayscale : bool) (e : Error) :
  Versions (Image.img w) = v0 :: rest ->
  Image.SourceRectVersion env w sourceRect width height grayscale color.zero
    = Ok (Image.RetError e, w') ->
  Versions (Image.img w') <> Versions (Image.img w) ->
  Image.SourceRectVersion env w' sourceRect width height grayscale color.zero
    = Ok (Image.RetVersion (List.length (Versions (Image.img w))), w').
Proof.
  intros Hv E Hneq.
  assert (Hinv :
    (forall v, List.In v (Versions (Image.img w)) ->
               ~ keyEq v sourceRect width height (effectiveGrayscale v0 grayscale) color.zero) /\
    Versions (Image.img w') =
      Versions (Image.img w) ++
      [newVersionOf v0 sourceRect width height (effectiveGrayscale v0 grayscale)]).
  { rewrite (SourceRectVersion_unfold env w v0 rest _ _ _ _ _ Hv) in E. cbv zeta in E.
    destruct (Image.search _ _ _ _ _ _ _) eqn:Es; [discriminate |].
    split; [apply (search_none _ _ _ _ _ _ 0%nat); exact Es |].
    destruct (LoadImage env _ _).
    2: { injection E as _ <-. exfalso. apply Hneq. reflexivity. }
    destruct (pixelsProduced env v0 _ _ _ _); [| discriminate].
    destruct (SaveImage env _ _ _); [injection E as _ <-; reflexivity |].
    destruct (BackendSaveImage env _ _); [injection E as _ <-; reflexivity | discriminate]. }
  destruct Hinv as [Hmiss Happ].
  set (g := effectiveGrayscale v0 grayscale) in *.
  set (nv := newVersionOf v0 sourceRect width height g) in *.
  assert (Hv' : Versions (Image.img w') = v0 :: (rest ++ [nv])).
  { rewrite Happ, Hv. reflexivity. }
  rewrite (SourceRectVersion_unfold env w' v0 (rest ++ [nv]) _ _ _ _ _ Hv'). cbv zeta.
  fold g.
  assert (Es : Image.search (Versions (Image.img w')) 0 sourceRect width height g color.zero
               = Some (List.length (Versions (Image.img w)))).
  { apply search_first. eexists. split; [reflexivity |]. rewrite Happ. split.
    - exists nv. split; [apply nth_error_snoc |].
      unfold nv, newVersionOf, ImageVersion.newImageVersion, keyEq.
      cbn. repeat split; reflexivity.
    - intros j u Hj Hu. rewrite nth_error_app1 in Hu by exact Hj.
      apply Hmiss. eapply nth_error_In. exact Hu. }
  rewrite Es. reflexivity.
Qed.

Lemma NewImage_unfold (env : Env) (tr : list Event) (filename : string)
    (data : list Byte.byte) :
  NewImage env tr filename data =
  match ingest env filename data with
  | inr err => (NewError err, tr)
  | inl (i, t, d, f) =>
      let version := originalVersion env i t f in
      match SaveImageData env tr version d with
      | Some err => (NewError err, tr ++ [EvSaveImageData version d])
      | None =>
          (NewOk {| ID := ""; Description := ""; Link := ""; Versions := [version] |},
           tr ++ [EvSaveImageData version d])
      end
  end.
Proof.
  unfold NewImage, ingest, originalVersion.
  destruct (Decode env data) as [[i t] | err]; [| reflexivity].
  destruct (isOneOf t _); [| reflexivity].
  destruct (PngEncode env i) as [d' | err]; [| reflexivity].
  destruct (Decode env d') as [[i' t'] | err]; reflexivity.
Qed.

(** X7.  [NewImage] asks the backend at most once, to save the bytes of the
    original: not at all when decoding or re-encoding fails; otherwise it
    saves the bytes that came out of the decoding stage under the version
    made of the decoded picture, and it hands back an image exactly when
    that save succeeded, the image holding the version that was saved. *)
Theorem NewImage_saves_the_original_once
    (env : Env) (tr tr' : list Event) (filename : string) (data : list Byte.byte)
    (ret : NewImageReturn) :
  NewImage env tr filename data = (ret, tr') ->
  (exists e, ret = NewError e /\ ingest env filename data = inr e /\ tr' = tr)
  \/
  (exists i t d f v,
     ingest env filename data = inl (i, t, d, f) /\
     v = originalVersion env i t f /\
     tr' = tr ++ [EvSaveImageData v d] /\
     ((exists e, ret = NewError e /\ SaveImageData env tr v d = Some e)
      \/
      (SaveImageData env tr v d = None /\
       ret = NewOk {| ID := ""; Description := ""; Link := ""; Versions := [v] |}))).
Proof.
  rewrite NewImage_unfold.
  destruct (ingest env filename data) as [[[[i t] d] f] | err].
  - cbv zeta. destruct (SaveImageData env tr _ d) as [err |] eqn:Es; intros E;
      injection E as <- <-; right; exists i, t, d, f, (originalVersion env i t f);
      (split; [reflexivity |]); (split; [reflexivity |]); (split; [reflexivity |]).
    + left. exists err. auto.
    + right. auto.
  - intros E. injection E as <- <-. left. exists err. auto.
Qed.

(** X8.  GIF, BMP and TIFF uploads are written as PNG: the bytes saved are the
    PNG encoding, the version describes the picture decoded from those
    bytes, and the file name gets the suffix .png; every other format is
    saved as uploaded. *)
Theorem NewImage_writes_gif_bmp_tiff_as_png
    (env : Env) (tr tr' : list Event) (filename : string) (data : list Byte.byte)
    (image : Image.t) (i0 : RawImage) (t0 : string) :
  Decode env data = inl (i0, t0) ->
  NewImage env tr filename data = (NewOk image, tr') ->
  exists i t d f,
    Versions image = [originalVersion env i t f] /\
    tr' = tr ++ [EvSaveImageData (originalVersion env i t f) d] /\
    (if isOneOf t0 ["gif"; "bmp"; "tiff"]%string
     then PngEncode env i0 = inl d /\ Decode env d = inl (i, t) /\
          f = (filename ++ ".png")%string
     else i = i0 /\ t = t0 /\ d = data /\ f = filename).
Proof.
  intros Hd. rewrite NewImage_unfold. unfold ingest. rewrite Hd.
  destruct (isOneOf t0 _).
  - destruct (PngEncode env i0) as [d' | err] eqn:Hp; [| discriminate].
    destruct (Decode env d') as [[i' t'] | err] eqn:Hd'; [| discriminate].
    cbv zeta. destruct (SaveImageData env tr _ d'); [discriminate |].
    intros E. injection E as <- <-. exists i', t', d', (filename ++ ".png")%string.
    cbn [Versions]. repeat split; try reflexivity; assumption.
  - cbv zeta. destruct (SaveImageData env tr _ data); [discriminate |].
    intros E. injection E as <- <-. exists i0, t0, data, filename.
    cbn [Versions]. repeat split; reflexivity.
Qed.

Lemma newVersionOf_zero_colour (v0 : ImageVersion.t) (r : Rectangle) (width height : Z)
    (g : bool) :
  ImageVersion.OutsideColor (newVersionOf v0 r width height g) = color.zero.
Proof. reflexivity. Qed.

(** What every reachable world has: an original, and no version with an
    outside colour. *)
Lemma reachable_invariant (env : Env) (allowed : color.Color -> Prop) (w : Image.World) :
  reachableWith env allowed w ->
  (exists v0 rest, Versions (Image.img w) = v0 :: rest) /\
  (forall v, List.In v (Versions (Image.img w)) -> ImageVersion.OutsideColor v = color.zero).
Proof.
  induction 1 as [tr tr' filename data image Hnew
                 | w w' sourceRect width height grayscale outsideColor ret Hr IH Hal E].
  - rewrite NewImage_unfold in Hnew.
    destruct (ingest env filename data) as [[[[i t] d] f] | err]; [| discriminate].
    cbv zeta in Hnew. destruct (SaveImageData env tr _ d); [discriminate |].
    injection Hnew as <- _. cbn [Image.img Versions]. split; [eexists _, _; reflexivity |].
    intros v [<- | []]. reflexivity.
  - destruct IH as [[v0 [rest Hv]] Hz].
    destruct (SourceRectVersion_keeps_head _ _ _ _ _ _ _ _ _ _ _ Hv E) as [added Hv'].
    split; [eexists _, _; exact Hv' |].
    rewrite (SourceRectVersion_unfold env w v0 rest _ _ _ _ _ Hv) in E. cbv zeta in E.
    assert (Happ : forall v,
      List.In v (Versions (Image.img w) ++
                 [newVersionOf v0 sourceRect width height (effectiveGrayscale v0 grayscale)]) ->
      ImageVersion.OutsideColor v = color.zero).
    { intros v Hin. apply in_app_or in Hin. destruct Hin as [Hin | [<- | []]];
        [apply Hz; exact Hin | reflexivity]. }
    destruct (Image.search _ _ _ _ _ _ _); [injection E as _ <-; exact Hz |].
    destruct (LoadImage env _ _); [| injection E as _ <-; exact Hz].
    destruct (pixelsProduced env v0 _ _ _ _); [| discriminate].
    destruct (SaveImage env _ _ _); [injection E as _ <-; exact Happ |].
    destruct (BackendSaveImage env _ _); injection E as _ <-; exact Happ.
Qed.

(** The fit-inside rectangle of a positive request lies in the bounds. *)
Lemma inside_rect_In (v0 : ImageVersion.t) (width height : Z)
    (horAlign : HorAlignment) (verAlign : VerAlignment) :
  0 <= ImageVersion.Width v0 < 2 ^ 50 ->
  0 <= ImageVersion.Height v0 < 2 ^ 50 ->
  0 < width -> 0 < height ->
  let W := ImageVersion.Width v0 in
  let H := ImageVersion.Height v0 in
  let ar := Float64.div (ofInt width) (ofInt height) in
  In (if Float64.gt ar (ImageVersion.AspectRatio v0)
      then fullWidthBand W H ar verAlign
      else fullHeightBand W H ar horAlign) (originalBounds v0) = true.
Proof.
  intros HW HH Hw Hh. cbv zeta.
  destruct (request_ratio width height Hw Hh) as [ar [Ear Har]].
  rewrite Ear. unfold ImageVersion.AspectRatio.
  set (W := ImageVersion.Width v0) in *.
  set (H := ImageVersion.Height v0) in *.
  destruct (Float64.gt (FNum ar) (Float64.div (ofInt W) (ofInt H))) eqn:Hgt.
  - assert (HHpos : 0 < H).
    { destruct (Z.eq_dec H 0) as [E0 | N0]; [| lia].
      rewrite E0, orig_ratio_zero_height in Hgt by lia. discriminate. }
    destruct (orig_ratio W H) as [o [Eo _]]; [lia | lia |].
    rewrite Eo in Hgt.
    pose proof (fit_wide_height W H ar o HW (conj HHpos (proj2 HH)) Har Eo Hgt) as Hm.
    assert (Hm' : 0 <= toInt (Float64.div (ofInt W) (FNum ar)) < 2 ^ 50) by lia.
    pose proof (fullWidthBand_shape W H _ (FNum ar) verAlign HW HH eq_refl Hm') as Hs.
    cbv zeta in Hs. destruct Hs as (B1 & B2 & _ & B3 & _ & B4 & _).
    apply in_originalBounds; fold W H; lia.
  - pose proof (fit_tall_width W H ar HW HH Har Hgt) as Hm.
    assert (Hm' : 0 <= toInt (Float64.mul (ofInt H) (FNum ar)) < 2 ^ 50) by lia.
    pose proof (fullHeightBand_shape W H _ (FNum ar) horAlign HW HH eq_refl Hm') as Hs.
    cbv zeta in Hs. destruct Hs as (B1 & B2 & _ & B3 & _ & B4 & _).
    apply in_originalBounds; fold W H; lia.
Qed.





(** X10.  On an image made by [NewImage] and taken further by any calls, a request
    with another outside colour than the zero colour that hands back a
    version always appended it: no such request is ever answered from the
    stored versions. *)
Theorem outside_colour_request_always_appends
    (env : Env) (w w' : Image.World) (sourceRect : Rectangle) (width height : Z)
    (grayscale : bool) (outsideColor : color.Color) (i : nat) :
  reachableWith env anyColour w ->
  outsideColor <> color.zero ->
  Image.SourceRectVersion env w sourceRect width height grayscale outsideColor
    = Ok (Image.RetVersion i, w') ->
  i = List.length (Versions (Image.img w)) /\
  List.length (Versions (Image.img w')) = S (List.length (Versions (Image.img w))) /\
  reachableWith env anyColour w'.
Proof.
  intros Hr Hc E. destruct (reachable_invariant _ _ _ Hr) as [[v0 [rest Hv]] Hz].
  assert (Hr' : reachableWith env anyColour w').
  { eapply reach_call; [exact Hr | exact I | exact E]. }
  rewrite (SourceRectVersion_unfold env w v0 rest _ _ _ _ _ Hv) in E. cbv zeta in E.
  rewrite (nonzero_colour_never_found _ _ _ _ _ _ 0%nat Hz Hc) in E.
  destruct (LoadImage env _ _); [| discriminate].
  destruct (pixelsProduced env v0 _ _ _ _); [| discriminate].
  destruct (SaveImage env _ _ _); [discriminate |].
  destruct (BackendSaveImage env _ _); [discriminate |].
  injection E as <- <-. cbn [Image.img Image.setVersions Versions].
  rewrite length_app. cbn [List.length]. repeat split; [lia | exact Hr'].
Qed.

(** X11.  On an image made by [NewImage] and taken further by calls with the zero
    outside colour only ([Version], [CenteredVersion]), no two versions were
    made for the same rectangle, size and colour mode. *)
Theorem zero_colour_worlds_hold_no_duplicates
    (env : Env) (w : Image.World) (i j : nat) (u v : ImageVersion.t) :
  reachableWith env zeroColour w ->
  nth_error (Versions (Image.img w)) i = Some u ->
  nth_error (Versions (Image.img w)) j = Some v ->
  i <> j ->
  ~ sameRendition u v.
Proof.
  intros Hr. revert i j u v.
  induction Hr as [tr tr' filename data image Hnew
                  | w w' sourceRect width height grayscale outsideColor ret Hr IH Hal E];
    intros i j u v Hi Hj Hne.
  - rewrite NewImage_unfold in Hnew.
    destruct (ingest env filename data) as [[[[p t] d] f] | err]; [| discriminate].
    cbv zeta in Hnew. destruct (SaveImageData env tr _ d); [discriminate |].
    injection Hnew as <- _. cbn [Image.img Versions] in Hi, Hj.
    destruct i as [| i]; [| destruct i; cbn in Hi; discriminate Hi].
    destruct j as [| j]; [congruence | destruct j; cbn in Hj; discriminate Hj].
  - destruct (reachable_invariant _ _ _ Hr) as [[v0 [rest Hv]] Hz].
    unfold zeroColour in Hal. subst outsideColor.
    rewrite (SourceRectVersion_unfold env w v0 rest _ _ _ _ _ Hv) in E. cbv zeta in E.
    set (g := effectiveGrayscale v0 grayscale) in *.
    set (nv := newVersionOf v0 sourceRect width height g) in *.
    destruct (Image.search _ _ _ _ _ _ _) eqn:Es.
    { injection E as _ <-. exact (IH i j u v Hi Hj Hne). }
    rewrite search_none in Es.
    assert (Happ : Versions (Image.img w') = Versions (Image.img w) ++ [nv] ->
                   ~ sameRendition u v).
    { intros Hv'. rewrite Hv' in Hi, Hj.
      assert (Hnew : forall k x, nth_error (Versions (Image.img w)) k = Some x ->
                                 ~ sameRendition x nv /\ ~ sameRendition nv x).
      { intros k x Hk.
        assert (Hx : ~ keyEq x sourceRect width height g color.zero)
          by (apply Es; eapply nth_error_In; exact Hk).
        assert (Hcx : ImageVersion.OutsideColor x = color.zero)
          by (apply Hz; eapply nth_error_In; exact Hk).
        split; intros (S1 & S2 & S3 & S4); apply Hx; unfold keyEq;
          cbn in S1, S2, S3, S4; repeat split; congruence. }
      destruct (Nat.lt_ge_cases i (List.length (Versions (Image.img w)))) as [Li | Gi]; destruct (Nat.lt_ge_cases j (List.length (Versions (Image.img w)))) as [Lj | Gj].
      - rewrite nth_error_app1 in Hi, Hj by assumption. exact (IH i j u v Hi Hj Hne).
      - rewrite nth_error_app1 in Hi by assumption.
        rewrite nth_error_app2 in Hj by assumption.
        remember (j - List.length (Versions (Image.img w)))%nat as k eqn:Ek in Hj; destruct k as [| m]; [| destruct m; cbn in Hj; discriminate Hj].
        cbn in Hj. injection Hj as <-. apply (Hnew i u Hi).
      - rewrite nth_error_app2 in Hi by assumption.
        rewrite nth_error_app1 in Hj by assumption.
        remember (i - List.length (Versions (Image.img w)))%nat as k eqn:Ek in Hi; destruct k as [| m]; [| destruct m; cbn in Hi; discriminate Hi].
        cbn in Hi. injection Hi as <-. apply (Hnew j v Hj).
      - rewrite nth_error_app2 in Hi, Hj by assumption.
        remember (i - List.length (Versions (Image.img w)))%nat as k eqn:Ei in Hi; destruct k as [| m]; [| destruct m; cbn in Hi; discriminate Hi].
        remember (j - List.length (Versions (Image.img w)))%nat as k eqn:Ej in Hj; destruct k as [| m]; [| destruct m; cbn in Hj; discriminate Hj].
        exfalso. lia. }
    destruct (LoadImage env _ _).
    2: { injection E as _ <-. exact (IH i j u v Hi Hj Hne). }
    destruct (pixelsProduced env v0 _ _ _ _); [| discriminate].
    destruct (SaveImage env _ _ _); [injection E as _ <-; apply Happ; reflexivity |].
    destruct (BackendSaveImage env _ _); injection E as _ <-; apply Happ; reflexivity.
Qed.

(** What a call adds to the trace, and the one place pixels are saved. *)
Lemma SourceRectVersion_saves
    (env : Env) (w w' : Image.World) (v0 : ImageVersion.t) (rest : list ImageVersion.t)
    (r : Rectangle) (width height : Z) (grayscale : bool) (c : color.Color)
    (ret : Image.Return) :
  Versions (Image.img w) = v0 :: rest ->
  Image.SourceRectVersion env w r width height grayscale c = Ok (ret, w') ->
  exists added,
    Image.trace w' = Image.trace w ++ added /\
    forall v px, List.In (EvSaveImage v px) added ->
      v = newVersionOf v0 r width height (effectiveGrayscale v0 grayscale) /\
      exists origImage,
        LoadImage env (Image.trace w) v0 = inl origImage /\
        px = versionImageOf env origImage v0 r width height
                            (effectiveGrayscale v0 grayscale) c.
Proof.
  intros Hv E.
  rewrite (SourceRectVersion_unfold env w v0 rest _ _ _ _ _ Hv) in E. cbv zeta in E.
  destruct (Image.search _ _ _ _ _ _ _).
  { injection E as _ <-. exists []. rewrite app_nil_r. split; [reflexivity |].
    intros v px []. }
  destruct (LoadImage env _ _) as [origImage | err].
  2: { injection E as _ <-. eexists. split; [reflexivity |].
       intros v px [Hin | []]. discriminate Hin. }
  destruct (pixelsProduced env v0 _ _ _ _); [| discriminate].
  destruct (SaveImage env _ _ _).
  { injection E as _ <-. cbn [Image.trace]. eexists. split; [rewrite <- app_assoc; reflexivity |].
    intros v px Hin. cbn in Hin. destruct Hin as [Hin | [Hin | []]]; [discriminate Hin |].
    injection Hin as <- <-. split; [reflexivity |]. exists origImage. auto. }
  destruct (BackendSaveImage env _ _);
    (injection E as _ <-; cbn [Image.trace]; eexists;
     split; [rewrite <- !app_assoc; reflexivity |];
     intros v px Hin; cbn in Hin;
     destruct Hin as [Hin | [Hin | [Hin | []]]]; [discriminate Hin | | discriminate Hin];
     injection Hin as <- <-; split; [reflexivity |]; exists origImage; auto).
Qed.

(** X12.  [Version] never takes the fill path: on an image whose original spans
    (0,0)-(Width,Height), whatever pixels a positive request saves are the
    resampling of the loaded original over the rectangle of the new version,
    which lies in the bounds. *)
Theorem Version_always_resamples
    (env : Env) (w w' : Image.World) (v0 : ImageVersion.t) (rest : list ImageVersion.t)
    (width height : Z) (horAlign : HorAlignment) (verAlign : VerAlignment)
    (grayscale : bool) (ret : Image.Return) :
  Versions (Image.img w) = v0 :: rest ->
  ImageVersion.SourceRect v0 = originalBounds v0 ->
  0 <= ImageVersion.Width v0 < 2 ^ 50 ->
  0 <= ImageVersion.Height v0 < 2 ^ 50 ->
  0 < width -> 0 < height ->
  Image.Version env w width height horAlign verAlign grayscale = Ok (ret, w') ->
  exists added,
    Image.trace w' = Image.trace w ++ added /\
    forall v px, List.In (EvSaveImage v px) added ->
      exists origImage,
        LoadImage env (Image.trace w) v0 = inl origImage /\
        px = ResizeImage origImage (ImageVersion.SourceRect v) width height /\
        In (ImageVersion.SourceRect v) (originalBounds v0) = true.
Proof.
  intros Hv Hb HW HH Hw Hh E.
  unfold Image.Version in E.
  rewrite (inside_bands _ _ _ _ _ _ _ Hv) in E. cbn [bind] in E.
  pose proof (inside_rect_In v0 width height horAlign verAlign HW HH Hw Hh) as Hin.
  match type of E with
  | Image.SourceRectVersion env w ?r _ _ _ _ = _ => change (In r (originalBounds v0) = true) in Hin; set (rect := r) in *
  end.
  destruct (SourceRectVersion_saves env w w' v0 rest rect width height grayscale color.zero
              ret Hv E) as [added [Htr Hpx]].
  exists added. split; [exact Htr |].
  intros v px Hev. destruct (Hpx v px Hev) as [-> [origImage [Hl ->]]].
  exists origImage. split; [exact Hl |].
  unfold versionImageOf, newVersionOf, ImageVersion.newImageVersion.
  cbn [ImageVersion.SourceRect]. rewrite Hb, Hin. split; reflexivity.
Qed.



End Protocol.

Section Alignment.

Lemma alignOffset_GoInt (align D m : Z) :
  0 <= m < 2 ^ 50 -> 0 <= D < 2 ^ 50 ->
  (if align =? 0 then GoInt.div (GoInt.sub D m) 2
   else if align =? 2 then GoInt.sub D m
   else 0) = alignOffset align D m /\
  Z.min 0 (D - m) <= alignOffset align D m <= Z.max 0 (D - m).
Proof.
  intros Hm HD. unfold alignOffset.
  assert (Hsub : GoInt.sub D m = D - m) by (apply sub_small; lia).
  assert (Hq : Z.min 0 (D - m) <= Z.quot (D - m) 2 <= Z.max 0 (D - m))
    by (Z.quot_rem_to_equations; lia).
  assert (Hdiv : GoInt.div (D - m) 2 = Z.quot (D - m) 2).
  { apply wrap_id. unfold GoInt.inRange, GoInt.minInt, GoInt.maxInt. lia. }
  rewrite Hsub, Hdiv.
  split; [reflexivity |].
  destruct (align =? 0); [exact Hq |]. destruct (align =? 2); lia.
Qed.

(** The full-height block in plain integers. *)
Lemma fullHeightBand_closed (W H m : Z) (ar : float64) (horAlign : HorAlignment) :
  0 <= W < 2 ^ 50 -> 0 <= H < 2 ^ 50 ->
  toInt (Float64.mul (ofInt H) ar) = m -> 0 <= m < 2 ^ 50 ->
  fullHeightBand W H ar horAlign =
  {| Min := {| X := alignOffset horAlign W m; Y := 0 |};
     Max := {| X := m + alignOffset horAlign W m; Y := H |} |}.
Proof.
  intros HW HH Em Hm. unfold fullHeightBand. rewrite Em. cbv zeta.
  unfold HorCenter, Right.
  destruct (alignOffset_GoInt horAlign W m Hm HW) as [-> Hb].
  destruct (add_zero_side H HH) as [Z1 Z2].
  unfold Add. cbn [Min Max X Y ZP]. rewrite Z1, Z2.
  unfold GoInt.add. rewrite Z.add_0_l.
  rewrite !wrap_id; [reflexivity | |];
    unfold GoInt.inRange, GoInt.minInt, GoInt.maxInt; lia.
Qed.

(** The full-width block in plain integers. *)
Lemma fullWidthBand_closed (W H m : Z) (ar : float64) (verAlign : VerAlignment) :
  0 <= W < 2 ^ 50 -> 0 <= H < 2 ^ 50 ->
  toInt (Float64.div (ofInt W) ar) = m -> 0 <= m < 2 ^ 50 ->
  fullWidthBand W H ar verAlign =
  {| Min := {| X := 0; Y := alignOffset verAlign H m |};
     Max := {| X := W; Y := m + alignOffset verAlign H m |} |}.
Proof.
  intros HW HH Em Hm. unfold fullWidthBand. rewrite Em. cbv zeta.
  unfold VerCenter, Bottom.
  destruct (alignOffset_GoInt verAlign H m Hm HH) as [-> Hb].
  destruct (add_zero_side W HW) as [Z1 Z2].
  unfold Add. cbn [Min Max X Y ZP]. rewrite Z1, Z2.
  unfold GoInt.add. rewrite Z.add_0_l.
  rewrite !wrap_id; [reflexivity | |];
    unfold GoInt.inRange, GoInt.minInt, GoInt.maxInt; lia.
Qed.

Lemma alignOffset_placed (align D m : Z) :
  placed align D m (alignOffset align D m) (m + alignOffset align D m).
Proof.
  unfold placed, alignOffset. split; [lia |].
  destruct (Z.eqb_spec align 0) as [-> | N0].
  - repeat split; intros; try lia; Z.quot_rem_to_equations; lia.
  - destruct (Z.eqb_spec align 2) as [-> | N2]; repeat split; intros; lia.
Qed.

Lemma placed_full (align D : Z) : placed align D D 0 D.
Proof. unfold placed. repeat split; intros; lia. Qed.

Lemma fullHeightBand_placed (W H m : Z) (ar : float64) (horAlign : HorAlignment)
    (verAlign : VerAlignment) :
  0 <= W < 2 ^ 50 -> 0 <= H < 2 ^ 50 ->
  toInt (Float64.mul (ofInt H) ar) = m -> 0 <= m < 2 ^ 50 ->
  let r := fullHeightBand W H ar horAlign in
  Dx r = m /\ Dy r = H /\
  placed horAlign W (Dx r) (X (Min r)) (X (Max r)) /\
  placed verAlign H (Dy r) (Y (Min r)) (Y (Max r)).
Proof.
  intros HW HH Em Hm.
  pose proof (fullHeightBand_shape W H m ar horAlign HW HH Em Hm) as Hs.
  cbv zeta in *. destruct Hs as (_ & _ & S3 & _ & S5 & _).
  rewrite S3, S5. rewrite (fullHeightBand_closed W H m ar horAlign HW HH Em Hm).
  cbn [Min Max X Y].
  split; [reflexivity |]. split; [reflexivity |].
  split; [apply alignOffset_placed | apply placed_full].
Qed.

Lemma fullWidthBand_placed (W H m : Z) (ar : float64) (horAlign : HorAlignment)
    (verAlign : VerAlignment) :
  0 <= W < 2 ^ 50 -> 0 <= H < 2 ^ 50 ->
  toInt (Float64.div (ofInt W) ar) = m -> 0 <= m < 2 ^ 50 ->
  let r := fullWidthBand W H ar verAlign in
  Dx r = W /\ Dy r = m /\
  placed horAlign W (Dx r) (X (Min r)) (X (Max r)) /\
  placed verAlign H (Dy r) (Y (Min r)) (Y (Max r)).
Proof.
  intros HW HH Em Hm.
  pose proof (fullWidthBand_shape W H m ar verAlign HW HH Em Hm) as Hs.
  cbv zeta in *. destruct Hs as (_ & _ & S3 & _ & S5 & _).
  rewrite S3, S5. rewrite (fullWidthBand_closed W H m ar verAlign HW HH Em Hm).
  cbn [Min Max X Y].
  split; [reflexivity |]. split; [reflexivity |].
  split; [apply placed_full | apply alignOffset_placed].
Qed.

(** X14.  Fit-inside places the rectangle as the alignments say, on both axes: flush
    left or top for 1 and for any value that is no constant, flush right or
    bottom for 2, and centred for 0 with the two margins differing by at most
    one pixel, the far one being the larger. *)
Theorem fit_inside_alignment
    (self : Image.t) (v0 : ImageVersion.t) (rest : list ImageVersion.t)
    (width height : Z) (horAlign : HorAlignment) (verAlign : VerAlignment) :
  Versions self = v0 :: rest ->
  0 <= ImageVersion.Width v0 < 2 ^ 50 ->
  0 <= ImageVersion.Height v0 < 2 ^ 50 ->
  0 < width -> 0 < height ->
  exists r,
    Image.touchOriginalFromInsideSourceRect self width height horAlign verAlign = Ok r /\
    0 <= Dx r <= ImageVersion.Width v0 /\
    0 <= Dy r <= ImageVersion.Height v0 /\
    placed horAlign (ImageVersion.Width v0) (Dx r) (X (Min r)) (X (Max r)) /\
    placed verAlign (ImageVersion.Height v0) (Dy r) (Y (Min r)) (Y (Max r)).
Proof.
  intros Hv HW HH Hw Hh.
  rewrite (inside_bands self v0 rest _ _ _ _ Hv). cbv zeta.
  destruct (request_ratio width height Hw Hh) as [ar [Ear Har]].
  rewrite Ear. unfold ImageVersion.AspectRatio.
  set (W := ImageVersion.Width v0) in *.
  set (H := ImageVersion.Height v0) in *.
  destruct (Float64.gt (FNum ar) (Float64.div (ofInt W) (ofInt H))) eqn:Hgt.
  - assert (HHpos : 0 < H).
    { destruct (Z.eq_dec H 0) as [E0 | N0]; [| lia].
      rewrite E0, orig_ratio_zero_height in Hgt by lia. discriminate. }
    destruct (orig_ratio W H) as [o [Eo _]]; [lia | lia |].
    rewrite Eo in Hgt.
    pose proof (fit_wide_height W H ar o HW (conj HHpos (proj2 HH)) Har Eo Hgt) as Hm.
    assert (Hm' : 0 <= toInt (Float64.div (ofInt W) (FNum ar)) < 2 ^ 50) by lia.
    pose proof (fullWidthBand_placed W H _ (FNum ar) horAlign verAlign HW HH eq_refl Hm')
      as Hp.
    cbv zeta in Hp. destruct Hp as (P1 & P2 & P3 & P4).
    eexists. split; [reflexivity |]. rewrite P1, P2 in *.
    split; [lia |]. split; [lia |]. split; assumption.
  - pose proof (fit_tall_width W H ar HW HH Har Hgt) as Hm.
    assert (Hm' : 0 <= toInt (Float64.mul (ofInt H) (FNum ar)) < 2 ^ 50) by lia.
    pose proof (fullHeightBand_placed W H _ (FNum ar) horAlign verAlign HW HH eq_refl Hm')
      as Hp.
    cbv zeta in Hp. destruct Hp as (P1 & P2 & P3 & P4).
    eexists. split; [reflexivity |]. rewrite P1, P2 in *.
    split; [lia |]. split; [lia |]. split; assumption.
Qed.

(** X15.  Fit-inside keeps one side of the original and cuts the other to whole
    pixels of the requested ratio: full width with a height Y such that
    Y * width <= Width * height <= (Y + 1) * width when the request is at
    least as wide as the original, full height with the mirrored bounds when
    it is at most as wide. *)
Theorem fit_inside_rect_shape
    (self : Image.t) (v0 : ImageVersion.t) (rest : list ImageVersion.t)
    (width height : Z) (horAlign : HorAlignment) (verAlign : VerAlignment) :
  Versions self = v0 :: rest ->
  0 < ImageVersion.Width v0 -> 0 < ImageVersion.Height v0 ->
  0 < width -> 0 < height ->
  ImageVersion.Width v0 * height < 2 ^ 50 ->
  ImageVersion.Height v0 * width < 2 ^ 50 ->
  exists r,
    Image.touchOriginalFromInsideSourceRect self width height horAlign verAlign = Ok r /\
    ((Dx r = ImageVersion.Width v0 /\ X (Min r) = 0 /\
      ImageVersion.Width v0 * height <= width * ImageVersion.Height v0 /\
      Dy r * width <= ImageVersion.Width v0 * height <= (Dy r + 1) * width)
     \/
     (Dy r = ImageVersion.Height v0 /\ Y (Min r) = 0 /\
      width * ImageVersion.Height v0 <= ImageVersion.Width v0 * height /\
      Dx r * height <= ImageVersion.Height v0 * width <= (Dx r + 1) * height)).
Proof.
  intros Hv HW HH Hw Hh Hb1 Hb2.
  rewrite (inside_bands self v0 rest _ _ _ _ Hv). cbv zeta.
  unfold ImageVersion.AspectRatio.
  set (W := ImageVersion.Width v0) in *.
  set (H := ImageVersion.Height v0) in *.
  assert (HWb : 0 <= W < 2 ^ 50) by nia.
  assert (HHb : 0 <= H < 2 ^ 50) by nia.
  destruct (orig_ratio width height) as [ar [Ear Abnd]]; [nia | nia |].
  destruct (orig_ratio W H) as [o [Eo Obnd]]; [lia | lia |].
  rewrite Ear, Eo.
  pose proof (ratio_order W H width height ar o HW HH Hw Hh Hb1 Hb2 Abnd Obnd) as [Ord1 Ord2].
  destruct (Float64.gt (FNum ar) (FNum o)) eqn:Hgt.
  - apply gt_num in Hgt. specialize (Ord1 Hgt).
    pose proof (div_trunc_bounds W width height ar HW Hw Hh Hb1 Abnd) as Hm.
    cbv zeta in Hm. destruct Hm as [Hm Hfl].
    pose proof (fullWidthBand_shape W H _ (FNum ar) verAlign HWb HHb eq_refl Hm) as Hs.
    cbv zeta in Hs. destruct Hs as (S1 & S2 & S3 & S4 & S5 & S6 & _).
    eexists. split; [reflexivity |]. left. rewrite S3, S5. tauto.
  - apply gt_num_false in Hgt. specialize (Ord2 Hgt).
    pose proof (mul_trunc_bounds H width height ar HH Hw Hh Hb2 Abnd) as Hm.
    cbv zeta in Hm. destruct Hm as [Hm Hfl].
    pose proof (fullHeightBand_shape W H _ (FNum ar) horAlign HWb HHb eq_refl Hm) as Hs.
    cbv zeta in Hs. destruct Hs as (S1 & S2 & S3 & S4 & S5 & S6 & _).
    eexists. split; [reflexivity |]. right. rewrite S3, S5. tauto.
Qed.

(** X16.  Cover-from-outside places the rectangle as the alignments say, with the
    overhang in place of the margin, and its sides are at most one pixel
    short of the original's. *)
Theorem cover_outside_alignment
    (self : Image.t) (v0 : ImageVersion.t) (rest : list ImageVersion.t)
    (width height : Z) (horAlign : HorAlignment) (verAlign : VerAlignment) :
  Versions self = v0 :: rest ->
  0 < ImageVersion.Width v0 -> 0 < ImageVersion.Height v0 ->
  0 < width -> 0 < height ->
  ImageVersion.Width v0 * height < 2 ^ 50 ->
  ImageVersion.Height v0 * width < 2 ^ 50 ->
  exists r,
    Image.touchOriginalFromOutsideSourceRect self width height horAlign verAlign = Ok r /\
    ImageVersion.Width v0 - 1 <= Dx r /\
    ImageVersion.Height v0 - 1 <= Dy r /\
    placed horAlign (ImageVersion.Width v0) (Dx r) (X (Min r)) (X (Max r)) /\
    placed verAlign (ImageVersion.Height v0) (Dy r) (Y (Min r)) (Y (Max r)).
Proof.
  intros Hv HW HH Hw Hh Hb1 Hb2.
  rewrite (outside_bands self v0 rest _ _ _ _ Hv). cbv zeta.
  unfold ImageVersion.AspectRatio.
  set (W := ImageVersion.Width v0) in *.
  set (H := ImageVersion.Height v0) in *.
  assert (HWb : 0 <= W < 2 ^ 50) by nia.
  assert (HHb : 0 <= H < 2 ^ 50) by nia.
  destruct (orig_ratio width height) as [ar [Ear Abnd]]; [nia | nia |].
  destruct (orig_ratio W H) as [o [Eo Obnd]]; [lia | lia |].
  rewrite Ear, Eo.
  pose proof (ratio_order W H width height ar o HW HH Hw Hh Hb1 Hb2 Abnd Obnd) as [Ord1 Ord2].
  destruct (Float64.gt (FNum ar) (FNum o)) eqn:Hgt.
  - apply gt_num in Hgt. specialize (Ord1 Hgt).
    pose proof (mul_trunc_bounds H width height ar HH Hw Hh Hb2 Abnd) as Hm.
    cbv zeta in Hm. destruct Hm as [Hm Hfl].
    pose proof (fullHeightBand_placed W H _ (FNum ar) horAlign verAlign HWb HHb eq_refl Hm)
      as Hp.
    cbv zeta in Hp. destruct Hp as (P1 & P2 & P3 & P4).
    eexists. split; [reflexivity |].
    assert (W - 1 <= toInt (Float64.mul (ofInt H) (FNum ar))) by nia.
    rewrite P1, P2 in *.
    split; [lia |]. split; [lia |]. split; assumption.
  - apply gt_num_false in Hgt. specialize (Ord2 Hgt).
    pose proof (div_trunc_bounds W width height ar HW Hw Hh Hb1 Abnd) as Hm.
    cbv zeta in Hm. destruct Hm as [Hm Hfl].
    pose proof (fullWidthBand_placed W H _ (FNum ar) horAlign verAlign HWb HHb eq_refl Hm)
      as Hp.
    cbv zeta in Hp. destruct Hp as (P1 & P2 & P3 & P4).
    eexists. split; [reflexivity |].
    assert (H - 1 <= toInt (Float64.div (ofInt W) (FNum ar))) by nia.
    rewrite P1, P2 in *.
    split; [lia |]. split; [lia |]. split; assumption.
Qed.

End Alignment.

Section Scale.
Local Open Scope Q_scope.

Lemma ilog2_comp (x y : Q) : x == y -> ilog2 x = ilog2 y.
Proof.
  intros E. unfold ilog2. rewrite E.
  destruct (Qle_bool 1 y); rewrite E; reflexivity.
Qed.

Lemma roundHalfEven_comp (x y : Q) : x == y -> roundHalfEven x = roundHalfEven y.
Proof.
  intros E. unfold roundHalfEven. cbv zeta. rewrite (Qfloor_comp x y E), E.
  reflexivity.
Qed.

Lemma roundPos_comp (x y : Q) : x == y -> roundPos x == roundPos y.
Proof.
  intros E. unfold roundPos. rewrite (ilog2_comp x y E).
  assert (E' : x / 2 ^ (ilog2 y - 52) == y / 2 ^ (ilog2 y - 52)) by (rewrite E; reflexivity).
  rewrite (roundHalfEven_comp _ _ E'). reflexivity.
Qed.

(** Rounding depends on the value only, not on the fraction that writes it. *)
Lemma round_comp (x y : Q) : x == y -> round x == round y.
Proof.
  intros E. unfold round. rewrite E.
  destruct (Qcompare y 0); [reflexivity | |].
  - apply Qopp_comp. apply roundPos_comp. rewrite E. reflexivity.
  - apply roundPos_comp. exact E.
Qed.

Lemma isZero_comp (x y : Q) : x == y -> isZero x = isZero y.
Proof.
  intros E. unfold isZero.
  destruct (Qeq_bool x 0) eqn:Ex; destruct (Qeq_bool y 0) eqn:Ey; try reflexivity.
  - apply Qeq_bool_iff in Ex. rewrite E in Ex. apply Qeq_bool_iff in Ex. congruence.
  - apply Qeq_bool_iff in Ey. rewrite <- E in Ey. apply Qeq_bool_iff in Ey. congruence.
Qed.

Lemma isNeg_comp (x y : Q) : x == y -> isNeg x = isNeg y.
Proof. intros E. unfold isNeg. rewrite E. reflexivity. Qed.

Lemma sameFloat_refl (a : float64) : sameFloat a a.
Proof. destruct a; cbn; reflexivity. Qed.

Lemma div_comp (a a' b b' : float64) :
  sameFloat a a' -> sameFloat b b' -> sameFloat (Float64.div a b) (Float64.div a' b').
Proof.
  destruct a as [x | s |], a' as [x' | s' |], b as [y | t |], b' as [y' | t' |];
    cbn [sameFloat]; intros Ea Eb; try contradiction; cbn [Float64.div sameFloat]; auto.
  - rewrite (isZero_comp y y' Eb), (isZero_comp x x' Ea), (isNeg_comp x x' Ea).
    destruct (isZero y'); [destruct (isZero x'); cbn; auto |].
    cbn. apply round_comp. rewrite Ea, Eb. reflexivity.
  - reflexivity.
  - rewrite (isNeg_comp y y' Eb). subst. reflexivity.
Qed.

Lemma mul_comp (a a' b b' : float64) :
  sameFloat a a' -> sameFloat b b' -> sameFloat (Float64.mul a b) (Float64.mul a' b').
Proof.
  destruct a as [x | s |], a' as [x' | s' |], b as [y | t |], b' as [y' | t' |];
    cbn [sameFloat]; intros Ea Eb; try contradiction; cbn [Float64.mul sameFloat]; auto.
  - apply round_comp. rewrite Ea, Eb. reflexivity.
  - rewrite (isZero_comp x x' Ea), (isNeg_comp x x' Ea). subst.
    destruct (isZero x'); cbn; auto.
  - rewrite (isZero_comp y y' Eb), (isNeg_comp y y' Eb). subst.
    destruct (isZero y'); cbn; auto.
  - subst. reflexivity.
Qed.

Lemma gt_comp (a a' b b' : float64) :
  sameFloat a a' -> sameFloat b b' -> Float64.gt a b = Float64.gt a' b'.
Proof.
  destruct a as [x | s |], a' as [x' | s' |], b as [y | t |], b' as [y' | t' |];
    cbn [sameFloat]; intros Ea Eb; try contradiction; cbn [Float64.gt]; subst; auto.
  rewrite Ea, Eb. reflexivity.
Qed.

Lemma trunc_comp (x y : Q) : x == y -> trunc x = trunc y.
Proof.
  intros E. unfold trunc. rewrite E.
  destruct (Qle_bool 0 y); rewrite E; reflexivity.
Qed.

Lemma toInt_comp (a a' : float64) : sameFloat a a' -> toInt a = toInt a'.
Proof.
  destruct a as [x | s |], a' as [x' | s' |]; cbn [sameFloat]; intros E;
    try contradiction; cbn [toInt]; auto.
  rewrite (trunc_comp x x' E). reflexivity.
Qed.

Lemma fullWidthBand_comp (W H : Z) (a a' : float64) (verAlign : VerAlignment) :
  sameFloat a a' -> fullWidthBand W H a verAlign = fullWidthBand W H a' verAlign.
Proof.
  intros E. unfold fullWidthBand.
  rewrite (toInt_comp _ _ (div_comp _ _ _ _ (sameFloat_refl (ofInt W)) E)). reflexivity.
Qed.

Lemma fullHeightBand_comp (W H : Z) (a a' : float64) (horAlign : HorAlignment) :
  sameFloat a a' -> fullHeightBand W H a horAlign = fullHeightBand W H a' horAlign.
Proof.
  intros E. unfold fullHeightBand.
  rewrite (toInt_comp _ _ (mul_comp _ _ _ _ (sameFloat_refl (ofInt H)) E)). reflexivity.
Qed.

(** Requests of the same ratio have the same float for it. *)
Lemma scaled_ratio (k width height : Z) :
  (0 < k)%Z -> (0 < width)%Z -> (0 < height)%Z ->
  (k * width < 2 ^ 53)%Z -> (k * height < 2 ^ 53)%Z ->
  sameFloat (Float64.div (ofInt (k * width)) (ofInt (k * height)))
            (Float64.div (ofInt width) (ofInt height)).
Proof.
  intros Hk Hw Hh Bw Bh. unfold ofInt.
  assert (E1 : round (inject_Z (k * width)) == inject_Z k * inject_Z width).
  { rewrite round_int by nia. rewrite inject_Z_mult. reflexivity. }
  assert (E2 : round (inject_Z (k * height)) == inject_Z k * inject_Z height).
  { rewrite round_int by nia. rewrite inject_Z_mult. reflexivity. }
  assert (E3 : round (inject_Z width) == inject_Z width) by (apply round_int; nia).
  assert (E4 : round (inject_Z height) == inject_Z height) by (apply round_int; nia).
  pose proof (inject_Z_pos k Hk) as Hkq.
  pose proof (inject_Z_pos width Hw) as Hwq.
  pose proof (inject_Z_pos height Hh) as Hhq.
  rewrite !div_pos.
  - cbn [sameFloat]. apply round_comp. rewrite E1, E2, E3, E4. field. split; lra.
  - lra.
  - rewrite E2. apply Qmult_lt_0_compat; assumption.
Qed.

End Scale.

Local Open Scope Z_scope.

(** X17.  Both resolvers depend on the ratio of the request only: k * width by
    k * height gets the rectangle of width by height. *)
Theorem resolvers_depend_on_the_ratio_only
    (self : Image.t) (k width height : Z) (horAlign : HorAlignment) (verAlign : VerAlignment) :
  0 < k -> 0 < width -> 0 < height ->
  k * width < 2 ^ 53 -> k * height < 2 ^ 53 ->
  Image.touchOriginalFromInsideSourceRect self (k * width) (k * height) horAlign verAlign
    = Image.touchOriginalFromInsideSourceRect self width height horAlign verAlign /\
  Image.touchOriginalFromOutsideSourceRect self (k * width) (k * height) horAlign verAlign
    = Image.touchOriginalFromOutsideSourceRect self width height horAlign verAlign.
Proof.
  intros Hk Hw Hh Bw Bh.
  pose proof (scaled_ratio k width height Hk Hw Hh Bw Bh) as Hs.
  destruct (Versions self) as [| v0 rest] eqn:Hv.
  - unfold Image.touchOriginalFromInsideSourceRect, Image.touchOriginalFromOutsideSourceRect,
      Image.AspectRatio, Image.original. rewrite Hv. split; reflexivity.
  - rewrite !(inside_bands _ _ _ _ _ _ _ Hv), !(outside_bands _ _ _ _ _ _ _ Hv). cbv zeta.
    rewrite (gt_comp _ _ _ _ Hs (sameFloat_refl (ImageVersion.AspectRatio v0))).
    rewrite (fullWidthBand_comp _ _ _ _ verAlign Hs), (fullHeightBand_comp _ _ _ _ horAlign Hs).
    split; reflexivity.
Qed.

Section Degenerate.

Lemma toInt_of_zero (x : Q) : (x == 0)%Q -> toInt (FNum (round x)) = 0.
Proof.
  intros E.
  assert (H : 0 <= toInt (FNum (round x)) <= 0).
  { apply toInt_round_bounds; [rewrite E; apply Qle_refl | | unfold GoInt.maxInt; lia].
    rewrite E. reflexivity. }
  lia.
Qed.

Lemma empty_In (r s : Rectangle) : Empty r = true -> In r s = true.
Proof. intros E. unfold In. rewrite E. reflexivity. Qed.

(** X18.  A request with a width or a height of zero is not refused by the
    fit-inside resolver: it gets an empty rectangle, full width by zero rows
    or zero columns by full height, which passes every in-bounds test. *)
Theorem fit_inside_of_a_flat_request_is_empty
    (self : Image.t) (v0 : ImageVersion.t) (rest : list ImageVersion.t)
    (width height : Z) (horAlign : HorAlignment) (verAlign : VerAlignment) :
  Versions self = v0 :: rest ->
  0 <= ImageVersion.Width v0 < 2 ^ 50 ->
  0 <= ImageVersion.Height v0 < 2 ^ 50 ->
  (0 < width /\ height = 0 /\ 0 < ImageVersion.Height v0) \/ (width = 0 /\ 0 < height) ->
  exists r,
    Image.touchOriginalFromInsideSourceRect self width height horAlign verAlign = Ok r /\
    Empty r = true /\
    (forall s, In r s = true) /\
    ((0 < width -> Dx r = ImageVersion.Width v0 /\ Dy r = 0) /\
     (0 < height -> Dx r = 0 /\ Dy r = ImageVersion.Height v0)).
Proof.
  intros Hv HW HH Hcase.
  rewrite (inside_bands self v0 rest _ _ _ _ Hv). cbv zeta.
  unfold ImageVersion.AspectRatio.
  set (W := ImageVersion.Width v0) in *.
  set (H := ImageVersion.Height v0) in *.
  destruct Hcase as [(Hw & -> & HHpos) | (-> & Hh)].
  - (* a height of zero: the ratio is +Inf *)
    assert (Ear : Float64.div (ofInt width) (ofInt 0) = FInf false).
    { unfold ofInt, Float64.div.
      change (isZero (round (inject_Z 0))) with true. cbv iota.
      rewrite (isZero_pos _ (round_pos _ (inject_Z_pos width Hw))).
      unfold isNeg. replace (Qle_bool 0 (round (inject_Z width))) with true; [reflexivity |].
      symmetry. apply Qle_bool_iff. apply Qlt_le_weak.
      apply round_pos. apply inject_Z_pos. exact Hw. }
    rewrite Ear.
    destruct (orig_ratio W H) as [o [Eo _]]; [lia | lia |].
    rewrite Eo. cbn [Float64.gt negb].
    assert (Em : toInt (Float64.div (ofInt W) (FInf false)) = 0) by reflexivity.
    assert (Hm : 0 <= 0 < 2 ^ 50) by lia.
    pose proof (fullWidthBand_shape W H 0 (FInf false) verAlign HW HH Em Hm) as Hs.
    cbv zeta in Hs. destruct Hs as (S1 & S2 & S3 & S4 & S5 & _).
    assert (He : Empty (fullWidthBand W H (FInf false) verAlign) = true).
    { unfold Empty. apply orb_true_iff. right. apply Z.leb_le. lia. }
    eexists. split; [reflexivity |]. split; [exact He |].
    split; [intros s; apply empty_In; exact He |].
    split; [intros _; split; assumption | intros Hc; lia].
  - (* a width of zero: the ratio is 0 *)
    assert (Hb : (0 < round (inject_Z height))%Q).
    { apply round_pos. apply inject_Z_pos. exact Hh. }
    assert (Ear : exists a, Float64.div (ofInt 0) (ofInt height) = FNum a /\ (a == 0)%Q).
    { unfold ofInt. rewrite div_pos by exact Hb. eexists. split; [reflexivity |].
      assert (E0 : (round (inject_Z 0) / round (inject_Z height) == 0)%Q).
      { change (round (inject_Z 0)) with 0%Q. field. lra. }
      rewrite (round_comp _ _ E0). reflexivity. }
    destruct Ear as [a [Ear Ea]]. rewrite Ear.
    assert (Hgt : Float64.gt (FNum a) (Float64.div (ofInt W) (ofInt H)) = false).
    { destruct (Z.eq_dec H 0) as [E0 | N0].
      - rewrite E0. apply orig_ratio_zero_height. lia.
      - destruct (orig_ratio W H) as [o [Eo [Olo _]]]; [lia | lia |].
        rewrite Eo. apply gt_num_false. rewrite Ea.
        pose proof (inject_Z_pos H ltac:(lia)) as HHq.
        pose proof (inject_Z_nonneg W (proj1 HW)) as HWq.
        unfold u53 in Olo.
        destruct (Qlt_le_dec o 0) as [Hneg | Hpos]; [| exact Hpos].
        exfalso. assert (o * inject_Z H < 0)%Q by nra. nra. }
    rewrite Hgt.
    assert (Em : toInt (Float64.mul (ofInt H) (FNum a)) = 0).
    { unfold ofInt, Float64.mul. apply toInt_of_zero. rewrite Ea. ring. }
    assert (Hm : 0 <= 0 < 2 ^ 50) by lia.
    pose proof (fullHeightBand_shape W H 0 (FNum a) horAlign HW HH Em Hm) as Hs.
    cbv zeta in Hs. destruct Hs as (S1 & S2 & S3 & S4 & S5 & _).
    assert (He : Empty (fullHeightBand W H (FNum a) horAlign) = true).
    { unfold Empty. apply orb_true_iff. left. apply Z.leb_le. lia. }
    eexists. split; [reflexivity |]. split; [exact He |].
    split; [intros s; apply empty_In; exact He |].
    split; [intros Hc; lia | intros _; split; assumption].
Qed.

End Degenerate.

(** ** The further properties on sample data *)

Lemma newWorld_reachable (allowed : color.Color -> Prop) :
  reachableWith okEnv allowed newWorld.
Proof. apply (reach_new okEnv allowed [] _ "a.png"%string []). reflexivity. Qed.

Lemma error_comes_from_the_backend_witness :
  Versions (Image.img failedWorld) =
    Versions (Image.img (sampleWorld 800 600 false)) ++
    [newVersionOf (sampleOriginal 800 600 false) squareRect 400 400 false].
Proof.
  destruct (error_comes_from_the_backend failingSaveEnv (sampleWorld 800 600 false)
              failedWorld (sampleOriginal 800 600 false) [] squareRect 400 400 false
              color.zero "disk full"%string eq_refl eq_refl)
    as [_ [[Hl _] | [orig [_ Happ]]]].
  - discriminate Hl.
  - exact (proj1 Happ).
Defined.

Lemma returned_version_meets_request_witness :
  exists v,
    nth_error (Versions (Image.img squareWorld)) 1 = Some v /\
    ImageVersion.SourceRect v = squareRect /\
    ImageVersion.Width v = 400 /\ ImageVersion.Height v = 400.
Proof.
  destruct (returned_version_meets_request okEnv (sampleWorld 800 600 false) squareWorld
              (sampleOriginal 800 600 false) [] squareRect 400 400 false color.zero 1
              eq_refl eq_refl)
    as [v (Hn & H1 & H2 & H3 & _)].
  exists v. auto.
Defined.

Lemma original_and_geometry_survive_calls_witness :
  Image.original (Image.img squareWorld) = Image.original (Image.img (sampleWorld 800 600 false)).
Proof.
  exact (proj1 (original_and_geometry_survive_calls okEnv (sampleWorld 800 600 false)
                  squareWorld squareRect 400 400 false color.zero (Image.RetVersion 1)
                  eq_refl)).
Defined.

Lemma Version_repeats_witness :
  Image.Version okEnv squareWorld 400 400 HorCenter VerCenter false
    = Ok (Image.RetVersion 1, squareWorld).
Proof.
  apply (Version_repeats okEnv (sampleWorld 800 600 false) squareWorld 400 400
           HorCenter VerCenter false 1).
  vm_compute. reflexivity.
Defined.

Lemma failed_save_is_found_afterwards_witness :
  Image.SourceRectVersion failingSaveEnv failedWorld squareRect 400 400 false color.zero
    = Ok (Image.RetVersion 1, failedWorld).
Proof.
  apply (failed_save_is_found_afterwards failingSaveEnv (sampleWorld 800 600 false)
           failedWorld (sampleOriginal 800 600 false) [] squareRect 400 400 false
           "disk full"%string);
    [reflexivity | reflexivity | vm_compute; discriminate].
Defined.

Lemma NewImage_saves_the_original_once_witness :
  (exists e, NewOk (sampleImage 800 600 false) = NewError e /\
             ingest okEnv "a.png" [] = inr e /\ Image.trace newWorld = [])
  \/
  (exists i t d f v,
     ingest okEnv "a.png" [] = inl (i, t, d, f) /\
     v = originalVersion okEnv i t f /\
     Image.trace newWorld = [] ++ [EvSaveImageData v d] /\
     ((exists e, NewOk (sampleImage 800 600 false) = NewError e /\
                 SaveImageData okEnv [] v d = Some e)
      \/
      (SaveImageData okEnv [] v d = None /\
       NewOk (sampleImage 800 600 false)
         = NewOk {| ID := ""; Description := ""; Link := ""; Versions := [v] |}))).
Proof.
  apply (NewImage_saves_the_original_once okEnv [] (Image.trace newWorld) "a.png"%string []
           (NewOk (sampleImage 800 600 false))).
  reflexivity.
Defined.

Lemma NewImage_writes_gif_bmp_tiff_as_png_witness :
  exists i t d f,
    Versions gifImage = [originalVersion gifEnv i t f] /\
    t = "png"%string /\ d = [Byte.x89] /\ f = "a.gif.png"%string.
Proof.
  destruct (NewImage_writes_gif_bmp_tiff_as_png gifEnv []
              [EvSaveImageData (originalVersion gifEnv (samplePicture 80 60 color.GrayModel)
                                  "png" "a.gif.png") [Byte.x89]]
              "a.gif"%string [] gifImage
              (samplePicture 800 600 color.OtherModel) "gif"%string eq_refl eq_refl)
    as (i & t & d & f & Hv & Htr & Hre).
  cbn in Hre. destruct Hre as (Hp & Hd & ->).
  injection Hp as <-. cbn in Hd. injection Hd as <- <-.
  eexists _, _, _, _. split; [reflexivity |]. repeat split; reflexivity.
Defined.


Lemma outside_colour_request_always_appends_witness :
  1%nat = List.length (Versions (Image.img newWorld)) /\
  List.length (Versions (Image.img redWorld)) = S (List.length (Versions (Image.img newWorld))) /\
  reachableWith okEnv anyColour redWorld.
Proof.
  apply (outside_colour_request_always_appends okEnv newWorld redWorld coverRect 400 400
           false red 1 (newWorld_reachable anyColour));
    [discriminate | vm_compute; reflexivity].
Defined.

Lemma zero_colour_worlds_hold_no_duplicates_witness :
  ~ sameRendition (sampleOriginal 800 600 false)
                  (newVersionOf (sampleOriginal 800 600 false) squareRect 400 400 false).
Proof.
  apply (zero_colour_worlds_hold_no_duplicates okEnv
           (worldAfter (Image.Version okEnv newWorld 400 400 HorCenter VerCenter false) newWorld)
           0 1).
  - apply (reach_call okEnv zeroColour newWorld _ squareRect 400 400 false color.zero
             (Image.RetVersion 1) (newWorld_reachable zeroColour) eq_refl).
    vm_compute. reflexivity.
  - reflexivity.
  - vm_compute. reflexivity.
  - discriminate.
Defined.

Lemma Version_always_resamples_witness :
  exists added,
    Image.trace squareWorld = Image.trace (sampleWorld 800 600 false) ++ added /\
    forall v px, List.In (EvSaveImage v px) added ->
      exists origImage,
        LoadImage okEnv (Image.trace (sampleWorld 800 600 false))
                  (sampleOriginal 800 600 false) = inl origImage /\
        px = ResizeImage origImage (ImageVersion.SourceRect v) 400 400 /\
        In (ImageVersion.SourceRect v) (originalBounds (sampleOriginal 800 600 false)) = true.
Proof.
  apply (Version_always_resamples okEnv (sampleWorld 800 600 false) squareWorld
           (sampleOriginal 800 600 false) [] 400 400 HorCenter VerCenter false
           (Image.RetVersion 1));
    [reflexivity | reflexivity | simpl; lia | simpl; lia | lia | lia
    | vm_compute; reflexivity].
Defined.


Lemma fit_inside_alignment_witness :
  exists r,
    Image.touchOriginalFromInsideSourceRect (sampleImage 800 600 false) 401 400
                                            HorCenter Bottom = Ok r /\
    0 <= Dx r <= 800 /\ 0 <= Dy r <= 600 /\
    placed HorCenter 800 (Dx r) (X (Min r)) (X (Max r)) /\
    placed Bottom 600 (Dy r) (Y (Min r)) (Y (Max r)).
Proof.
  apply (fit_inside_alignment (sampleImage 800 600 false) (sampleOriginal 800 600 false) []
           401 400 HorCenter Bottom);
    [reflexivity | simpl; lia | simpl; lia | lia | lia].
Defined.

Lemma fit_inside_rect_shape_witness :
  exists r,
    Image.touchOriginalFromInsideSourceRect (sampleImage 800 600 false) 3 7
                                            HorCenter VerCenter = Ok r /\
    ((Dx r = 800 /\ X (Min r) = 0 /\ 800 * 7 <= 3 * 600 /\
      Dy r * 3 <= 800 * 7 <= (Dy r + 1) * 3)
     \/
     (Dy r = 600 /\ Y (Min r) = 0 /\ 3 * 600 <= 800 * 7 /\
      Dx r * 7 <= 600 * 3 <= (Dx r + 1) * 7)).
Proof.
  apply (fit_inside_rect_shape (sampleImage 800 600 false) (sampleOriginal 800 600 false) []
           3 7 HorCenter VerCenter);
    [reflexivity | simpl; lia | simpl; lia | lia | lia | simpl; lia | simpl; lia].
Defined.

Lemma cover_outside_alignment_witness :
  exists r,
    Image.touchOriginalFromOutsideSourceRect (sampleImage 800 600 false) 401 400
                                             Right VerCenter = Ok r /\
    800 - 1 <= Dx r /\ 600 - 1 <= Dy r /\
    placed Right 800 (Dx r) (X (Min r)) (X (Max r)) /\
    placed VerCenter 600 (Dy r) (Y (Min r)) (Y (Max r)).
Proof.
  apply (cover_outside_alignment (sampleImage 800 600 false) (sampleOriginal 800 600 false) []
           401 400 Right VerCenter);
    [reflexivity | simpl; lia | simpl; lia | lia | lia | simpl; lia | simpl; lia].
Defined.

Lemma resolvers_depend_on_the_ratio_only_witness :
  Image.touchOriginalFromInsideSourceRect (sampleImage 800 600 false) (100 * 4) (100 * 3)
                                          Left Top
    = Image.touchOriginalFromInsideSourceRect (sampleImage 800 600 false) 4 3 Left Top /\
  Image.touchOriginalFromOutsideSourceRect (sampleImage 800 600 false) (100 * 4) (100 * 3)
                                           Left Top
    = Image.touchOriginalFromOutsideSourceRect (sampleImage 800 600 false) 4 3 Left Top.
Proof.
  apply (resolvers_depend_on_the_ratio_only (sampleImage 800 600 false) 100 4 3 Left Top);
    lia.
Defined.

Lemma fit_inside_of_a_flat_request_is_empty_witness :
  exists r,
    Image.touchOriginalFromInsideSourceRect (sampleImage 800 600 false) 400 0
                                            HorCenter VerCenter = Ok r /\
    Empty r = true /\
    (forall s, In r s = true) /\
    ((0 < 400 -> Dx r = 800 /\ Dy r = 0) /\
     (0 < 0 -> Dx r = 0 /\ Dy r = 600)).
Proof.
  apply (fit_inside_of_a_flat_request_is_empty (sampleImage 800 600 false)
           (sampleOriginal 800 600 false) [] 400 0 HorCenter VerCenter);
    [reflexivity | simpl; lia | simpl; lia | left; simpl; lia].
Defined.
